(** * look-optique: text acquisition and field extraction

    A shallow embedding of [code.py] (client contracts) and
    [ordonnance.py] (prescriptions), and the properties of their
    text-acquisition threshold, their regular-expression field extractors
    and their batch ordering.

    Python strings are sequences of Unicode code points; the [re] module is
    modelled by a backtracking matcher over the parse trees of the five
    patterns of the sources (CPython 3.7 and later, [str] patterns). *)

From Stdlib Require Import String Ascii.
From Stdlib Require Import Arith NArith List Bool Lia Permutation Sorted.
Import ListNotations.

Set Implicit Arguments.

(** ** Strings *)

(** A character is a code point, a [str] a list of them. *)
Definition char := N.
Definition str := list char.

(** Source text is UTF-8; [utf8] decodes the bytes of a literal. *)
Fixpoint utf8 (bs : list N) : str :=
  match bs with
  | [] => []
  | b0 :: t0 =>
    if (b0 <? 0x80)%N then b0 :: utf8 t0 else
    match t0 with
    | [] => []
    | b1 :: t1 =>
      if (b0 <? 0xE0)%N then ((b0 - 0xC0) * 64 + (b1 - 0x80))%N :: utf8 t1 else
      match t1 with
      | [] => []
      | b2 :: t2 =>
        if (b0 <? 0xF0)%N
        then ((b0 - 0xE0) * 4096 + (b1 - 0x80) * 64 + (b2 - 0x80))%N :: utf8 t2
        else
        match t2 with
        | [] => []
        | b3 :: t3 =>
          ((b0 - 0xF0) * 262144 + (b1 - 0x80) * 4096
           + (b2 - 0x80) * 64 + (b3 - 0x80))%N :: utf8 t3
        end
      end
    end
  end.

Definition u (s : string) : str :=
  utf8 (map N_of_ascii (list_ascii_of_string s)).

Definition chr (s : string) : char := hd 0%N (u s).

(** [len(s) > n], [sep.join(parts)], [s.replace(a, b)] for one-character
    [a] and [b]. *)
Fixpoint join (sep : str) (parts : list str) : str :=
  match parts with
  | [] => []
  | [p] => p
  | p :: ps => p ++ sep ++ join sep ps
  end.

Definition replace (a b : char) (s : str) : str :=
  map (fun c => if (c =? a)%N then b else c) s.

Fixpoint mem (c : char) (l : list char) : bool :=
  match l with
  | [] => false
  | x :: xs => (c =? x)%N || mem c xs
  end.

(** The code points for which [str.isspace] holds; this is the set that
    [str.strip()] removes and that [\s] matches. *)
Definition whitespace : list char :=
  [0x09; 0x0A; 0x0B; 0x0C; 0x0D; 0x1C; 0x1D; 0x1E; 0x1F; 0x20; 0x85; 0xA0;
   0x1680; 0x2000; 0x2001; 0x2002; 0x2003; 0x2004; 0x2005; 0x2006; 0x2007;
   0x2008; 0x2009; 0x200A; 0x2028; 0x2029; 0x202F; 0x205F; 0x3000]%N.

Definition isspace (c : char) : bool := mem c whitespace.

Fixpoint lstrip (s : str) : str :=
  match s with
  | [] => []
  | c :: t => if isspace c then lstrip t else s
  end.

Definition rstrip (s : str) : str := rev (lstrip (rev s)).

Definition strip (s : str) : str := rstrip (lstrip s).

(** Truth value of an [Optional[str]]: [None] and the empty string are
    false. *)
Definition truthy (o : option str) : bool :=
  match o with
  | Some (_ :: _) => true
  | _ => false
  end.

(** ** Outcomes *)

(** What a call does: it returns or it raises. [External] is an exception
    of a collaborator (PDF reader, rasterizer, OCR engine), told apart by a
    code; the others are raised by the sources or by the interpreter. *)
Inductive exn : Type :=
| RuntimeError (msg : str)
| FileNotFoundError (msg : str)
| IndexError
| AttributeError
| External (code : N).

Inductive outcome (A : Type) : Type :=
| Return (a : A)
| Raise (e : exn).

Arguments Return {A} a.
Arguments Raise {A} e.

Definition bind {A B} (x : outcome A) (f : A -> outcome B) : outcome B :=
  match x with
  | Return a => f a
  | Raise e => Raise e
  end.

Notation "x <- c1 ;; c2" := (bind c1 (fun x => c2))
  (at level 61, c1 at next level, right associativity).

(** ** Character data and the [re] engine *)

(** The Unicode character database of the interpreter: simple case mappings
    ([_sre.unicode_tolower], [Py_UNICODE_TOUPPER]), [\d] and the
    alphanumerics behind [\b]. *)
Record ucd : Type := {
  tolower : char -> char;
  toupper : char -> char;
  isdecimal : char -> bool;
  isalnum : char -> bool
}.

(** [re._casefix._EXTRA_CASES]: lower-case characters that share an upper
    case with another lower-case character. *)
Definition EXTRA_CASES (lo : char) : list char :=
  match lo with
  | 0x0069 => [0x0131] | 0x0073 => [0x017f] | 0x00b5 => [0x03bc]
  | 0x0131 => [0x0069] | 0x017f => [0x0073] | 0x0345 => [0x03b9; 0x1fbe]
  | 0x0390 => [0x1fd3] | 0x03b0 => [0x1fe3] | 0x03b2 => [0x03d0]
  | 0x03b5 => [0x03f5] | 0x03b8 => [0x03d1] | 0x03b9 => [0x0345; 0x1fbe]
  | 0x03ba => [0x03f0] | 0x03bc => [0x00b5] | 0x03c0 => [0x03d6]
  | 0x03c1 => [0x03f1] | 0x03c2 => [0x03c3] | 0x03c3 => [0x03c2]
  | 0x03c6 => [0x03d5] | 0x03d0 => [0x03b2] | 0x03d1 => [0x03b8]
  | 0x03d5 => [0x03c6] | 0x03d6 => [0x03c0] | 0x03f0 => [0x03ba]
  | 0x03f1 => [0x03c1] | 0x03f5 => [0x03b5] | 0x0432 => [0x1c80]
  | 0x0434 => [0x1c81] | 0x043e => [0x1c82] | 0x0441 => [0x1c83]
  | 0x0442 => [0x1c84; 0x1c85] | 0x044a => [0x1c86] | 0x0463 => [0x1c87]
  | 0x1c80 => [0x0432] | 0x1c81 => [0x0434] | 0x1c82 => [0x043e]
  | 0x1c83 => [0x0441] | 0x1c84 => [0x0442; 0x1c85]
  | 0x1c85 => [0x0442; 0x1c84] | 0x1c86 => [0x044a] | 0x1c87 => [0x0463]
  | 0x1c88 => [0xa64b] | 0x1e61 => [0x1e9b] | 0x1e9b => [0x1e61]
  | 0x1fbe => [0x0345; 0x03b9] | 0x1fd3 => [0x0390] | 0x1fe3 => [0x03b0]
  | 0xa64b => [0x1c88] | 0xfb05 => [0xfb06] | 0xfb06 => [0xfb05]
  | _ => []
  end%N.

(** Parse trees, named after the opcodes of [re._parser]. A repetition of a
    one-character item is what the compiler emits as [REPEAT_ONE] or
    [MIN_REPEAT_ONE]; the only other repetition in the sources is the
    optional group [(?:[.,]\d+)?], here [OPTIONAL]. *)
Inductive category := CATEGORY_SPACE | CATEGORY_DIGIT | CATEGORY_NOT_DIGIT.

Inductive set_item :=
| SET_LITERAL (c : char)
| SET_RANGE (lo hi : char)
| SET_CATEGORY (k : category).

Inductive atom :=
| LITERAL (c : char)
| NOT_LITERAL (c : char)
| IN (negate : bool) (items : list set_item).

Inductive regex :=
| EMPTY
| ATOM (a : atom)
| SEQ (r1 r2 : regex)
| BRANCH (r1 r2 : regex)
| MAX_REPEAT (lo : nat) (hi : option nat) (a : atom)
| MIN_REPEAT (lo : nat) (hi : option nat) (a : atom)
| OPTIONAL (r : regex)
| SUBPATTERN (n : nat) (r : regex)
| AT_BOUNDARY.

Definition seq_of (rs : list regex) : regex := fold_right SEQ EMPTY rs.

Definition literals (s : str) : regex := seq_of (map (fun c => ATOM (LITERAL c)) s).

Fixpoint branch_of (rs : list regex) : regex :=
  match rs with
  | [] => EMPTY
  | [r] => r
  | r :: rs' => BRANCH r (branch_of rs')
  end.

Definition MAXREPEAT : option nat := None.

(** A match object: the groups that took part, latest first. *)
Definition groups := list (nat * str).

Fixpoint group (g : groups) (n : nat) : option str :=
  match g with
  | [] => None
  | (k, w) :: g' => if Nat.eqb k n then Some w else group g' n
  end.

Definition char_range (lo hi : char) : list char :=
  map N.of_nat (seq (N.to_nat lo) (N.to_nat hi + 1 - N.to_nat lo)).

Section Engine.

Variable db : ucd.

(** [_sre.unicode_iscased]. *)
Definition iscased (c : char) : bool :=
  negb (c =? tolower db c)%N || negb (c =? toupper db c)%N.

Definition category_ok (k : category) (c : char) : bool :=
  match k with
  | CATEGORY_SPACE => isspace c
  | CATEGORY_DIGIT => isdecimal db c
  | CATEGORY_NOT_DIGIT => negb (isdecimal db c)
  end.

(** Without [IGNORECASE] a set is taken as written. *)
Definition item_ok (c : char) (it : set_item) : bool :=
  match it with
  | SET_LITERAL a => (c =? a)%N
  | SET_RANGE lo hi => (lo <=? c)%N && (c <=? hi)%N
  | SET_CATEGORY k => category_ok k c
  end.

(** With [IGNORECASE], [_optimize_charset] lower-cases the members of the
    set into a character map and adds their extra cases; the subject
    character is lower-cased when the set has a cased member. *)
Definition with_extra (lo : char) : list char := lo :: EXTRA_CASES lo.

Definition item_charmap (it : set_item) : list char :=
  match it with
  | SET_LITERAL a => with_extra (tolower db a)
  | SET_RANGE lo hi => flat_map (fun i => with_extra (tolower db i)) (char_range lo hi)
  | SET_CATEGORY _ => []
  end.

Definition item_hascased (it : set_item) : bool :=
  match it with
  | SET_LITERAL a => iscased a
  | SET_RANGE lo hi => existsb iscased (char_range lo hi)
  | SET_CATEGORY _ => false
  end.

Definition item_ok_ignore (c : char) (it : set_item) : bool :=
  match it with
  | SET_CATEGORY k => category_ok k c
  | _ => mem c (item_charmap it)
  end.

Variable ignorecase : bool.

Definition literal_ok (av c : char) : bool :=
  if ignorecase && iscased av
  then mem (tolower db c) (with_extra (tolower db av))
  else (c =? av)%N.

Definition atom_ok (a : atom) (c : char) : bool :=
  match a with
  | LITERAL av => literal_ok av c
  | NOT_LITERAL av => negb (literal_ok av c)
  | IN negate items =>
    xorb negate
      (if ignorecase
       then existsb (item_ok_ignore
                       (if existsb item_hascased items then tolower db c else c))
                    items
       else existsb (item_ok c) items)
  end.

(** [\b]: exactly one of the neighbours is a word character. *)
Definition is_word (o : option char) : bool :=
  match o with
  | Some c => isalnum db c || (c =? 95)%N
  | None => false
  end.

Definition at_boundary (prev : option char) (rest : str) : bool :=
  xorb (is_word prev) (is_word (hd_error rest)).

Definition may_take (hi : option nat) : bool :=
  match hi with
  | Some O => false
  | _ => true
  end.

Definition one_less (hi : option nat) : option nat := option_map pred hi.

Section Backtrack.

Variable R : Type.

(** Greedy repetition of an item: take one more while possible, give
    back on failure of what follows. *)
Fixpoint repeat_max (a : atom) (lo : nat) (hi : option nat)
         (prev : option char) (rest : str)
         (k : option char -> str -> option R) : option R :=
  let stop := match lo with O => k prev rest | S _ => None end in
  match rest with
  | x :: xs =>
    if atom_ok a x && may_take hi then
      match repeat_max a (pred lo) (one_less hi) (Some x) xs k with
      | Some r => Some r
      | None => stop
      end
    else stop
  | [] => stop
  end.

(** Lazy repetition: try what follows first, take one more on
    failure. *)
Fixpoint repeat_min (a : atom) (lo : nat) (hi : option nat)
         (prev : option char) (rest : str)
         (k : option char -> str -> option R) : option R :=
  match lo with
  | O =>
    match k prev rest with
    | Some r => Some r
    | None =>
      match rest with
      | x :: xs =>
        if atom_ok a x && may_take hi
        then repeat_min a O (one_less hi) (Some x) xs k
        else None
      | [] => None
      end
    end
  | S lo' =>
    match rest with
    | x :: xs =>
      if atom_ok a x && may_take hi
      then repeat_min a lo' (one_less hi) (Some x) xs k
      else None
    | [] => None
    end
  end.

(** The matcher, in continuation-passing style: [k] is the rest of the
    pattern, and a [None] from it makes the matcher try its next
    choice. [prev] is the character before the cursor, [rest] the
    subject from the cursor on. *)
Fixpoint run (r : regex) (prev : option char) (rest : str) (g : groups)
         (k : option char -> str -> groups -> option R) : option R :=
  match r with
  | EMPTY => k prev rest g
  | ATOM a =>
    match rest with
    | x :: xs => if atom_ok a x then k (Some x) xs g else None
    | [] => None
    end
  | SEQ r1 r2 => run r1 prev rest g (fun p s g' => run r2 p s g' k)
  | BRANCH r1 r2 =>
    match run r1 prev rest g k with
    | Some res => Some res
    | None => run r2 prev rest g k
    end
  | MAX_REPEAT lo hi a => repeat_max a lo hi prev rest (fun p s => k p s g)
  | MIN_REPEAT lo hi a => repeat_min a lo hi prev rest (fun p s => k p s g)
  | OPTIONAL r1 =>
    match run r1 prev rest g k with
    | Some res => Some res
    | None => k prev rest g
    end
  | SUBPATTERN n r1 =>
    run r1 prev rest g
        (fun p s g' =>
           k p s ((n, firstn (length rest - length s) rest) :: g'))
  | AT_BOUNDARY => if at_boundary prev rest then k prev rest g else None
  end.

End Backtrack.

Definition match_here (r : regex) (prev : option char) (rest : str)
  : option (groups * str) :=
  run r prev rest [] (fun _ s g => Some (g, s)).

(** [re.search]: the first position, from the left, where the pattern
    matches. *)
Fixpoint search_from (r : regex) (prev : option char) (rest : str)
  : option groups :=
  match match_here r prev rest with
  | Some (g, _) => Some g
  | None =>
    match rest with
    | [] => None
    | x :: xs => search_from r (Some x) xs
    end
  end.

Definition re_search (r : regex) (s : str) : option groups :=
  search_from r None s.

End Engine.

(** [re.sub(pattern, repl, s)]: the matches of the pattern, found from left
    to right, are replaced by [repl]. The three substitution patterns of
    the sources never match the empty string; after an empty match one
    character is copied. *)
Section Substitution.

Variable db : ucd.
Variable ignorecase : bool.

Fixpoint sub_from (fuel : nat) (r : regex) (repl : str)
         (prev : option char) (rest : str) : str :=
  match fuel with
  | O => rest
  | S fuel' =>
    match run db ignorecase r prev rest [] (fun p s _ => Some (p, s)), rest with
    | Some (p, s), x :: xs =>
      if length s <? length rest
      then repl ++ sub_from fuel' r repl p s
      else repl ++ x :: sub_from fuel' r repl (Some x) xs
    | Some _, [] => repl
    | None, x :: xs => x :: sub_from fuel' r repl (Some x) xs
    | None, [] => []
    end
  end.

Definition re_sub (r : regex) (repl : str) (s : str) : str :=
  sub_from (S (length s)) r repl None s.

End Substitution.

(** ** Character data of Basic Latin, Latin-1 and Latin Extended-A *)

(** The simple case mappings and classes of U+0000..U+017F, as the
    interpreter has them; the code points above are left without case and
    class here. *)
Definition between (lo hi c : char) : bool := (lo <=? c)%N && (c <=? hi)%N.

Local Open Scope N_scope.

Definition latin_tolower (c : char) : char :=
  if between 0x41 0x5A c || between 0xC0 0xD6 c || between 0xD8 0xDE c
  then (c + 32)%N
  else if (c =? 0x130)%N then 0x69%N
  else if (c =? 0x178)%N then 0xFF%N
  else if (between 0x100 0x137 c || between 0x14A 0x177 c) && N.even c
  then (c + 1)%N
  else if (between 0x139 0x148 c || between 0x179 0x17E c) && N.odd c
  then (c + 1)%N
  else c.

Definition latin_toupper (c : char) : char :=
  if between 0x61 0x7A c || between 0xE0 0xF6 c || between 0xF8 0xFE c
  then (c - 32)%N
  else if (c =? 0xB5)%N then 0x39C%N
  else if (c =? 0xDF)%N then 0x53%N
  else if (c =? 0xFF)%N then 0x178%N
  else if (c =? 0x131)%N then 0x49%N
  else if (c =? 0x149)%N then 0x2BC%N
  else if (c =? 0x17F)%N then 0x53%N
  else if (between 0x100 0x137 c || between 0x14A 0x177 c) && N.odd c
  then (c - 1)%N
  else if (between 0x139 0x148 c || between 0x179 0x17E c) && N.even c
  then (c - 1)%N
  else c.

Definition latin_isdecimal (c : char) : bool := between 0x30 0x39 c.

Definition latin_isalnum (c : char) : bool :=
  between 0x30 0x39 c || between 0x41 0x5A c || between 0x61 0x7A c
  || (c =? 0xAA)%N || between 0xB2 0xB3 c || (c =? 0xB5)%N
  || between 0xB9 0xBA c || between 0xBC 0xBE c || between 0xC0 0xD6 c
  || between 0xD8 0xF6 c || between 0xF8 0x17F c.

Definition latin : ucd :=
  {| tolower := latin_tolower; toupper := latin_toupper;
     isdecimal := latin_isdecimal; isalnum := latin_isalnum |}.

Local Close Scope N_scope.

(** ** The patterns of the sources *)

Definition SPACE : atom := IN false [SET_CATEGORY CATEGORY_SPACE].
Definition DIGIT : atom := IN false [SET_CATEGORY CATEGORY_DIGIT].
Definition SEPARATOR : atom :=
  IN false [SET_LITERAL (chr ":"); SET_LITERAL (chr "-")].

(** [[ \t]+], [\D] and [[^0-9 ]], compiled without flags. *)
Definition BLANKS_RE : regex :=
  MAX_REPEAT 1 MAXREPEAT (IN false [SET_LITERAL (chr " "); SET_LITERAL 9%N]).

Definition NOT_DIGIT_RE : regex :=
  ATOM (IN false [SET_CATEGORY CATEGORY_NOT_DIGIT]).

Definition NOT_DIGIT_OR_SPACE_RE : regex :=
  ATOM (IN true [SET_RANGE (chr "0") (chr "9"); SET_LITERAL (chr " ")]).

(** [[0-9][0-9 \-]{10,}] *)
Definition NUMBER_CHARS : atom :=
  IN false [SET_RANGE (chr "0") (chr "9");
            SET_LITERAL (chr " "); SET_LITERAL (chr "-")].

Definition NUMBER_GROUP : regex :=
  seq_of [ ATOM (IN false [SET_RANGE (chr "0") (chr "9")]);
           MAX_REPEAT 10 MAXREPEAT NUMBER_CHARS ].

(** [Mon\s+num[eé]ro\s*[:\-]?\s*([0-9][0-9 \-]{10,})] *)
Definition NUMBER_RE : regex :=
  seq_of
    [ literals (u "Mon"); MAX_REPEAT 1 MAXREPEAT SPACE;
      literals (u "num");
      ATOM (IN false [SET_LITERAL (chr "e"); SET_LITERAL (chr "é")]);
      literals (u "ro");
      MAX_REPEAT 0 MAXREPEAT SPACE; MAX_REPEAT 0 (Some 1) SEPARATOR;
      MAX_REPEAT 0 MAXREPEAT SPACE;
      SUBPATTERN 1 NUMBER_GROUP ].

(** [Mon\s+nom\s+ou\s+celui\s+de\s+mon\s+ayant\s+droit\s*[:\-]?\s*([^\n]+)] *)
Definition NAME_RE : regex :=
  seq_of
    [ literals (u "Mon"); MAX_REPEAT 1 MAXREPEAT SPACE;
      literals (u "nom"); MAX_REPEAT 1 MAXREPEAT SPACE;
      literals (u "ou"); MAX_REPEAT 1 MAXREPEAT SPACE;
      literals (u "celui"); MAX_REPEAT 1 MAXREPEAT SPACE;
      literals (u "de"); MAX_REPEAT 1 MAXREPEAT SPACE;
      literals (u "mon"); MAX_REPEAT 1 MAXREPEAT SPACE;
      literals (u "ayant"); MAX_REPEAT 1 MAXREPEAT SPACE;
      literals (u "droit");
      MAX_REPEAT 0 MAXREPEAT SPACE; MAX_REPEAT 0 (Some 1) SEPARATOR;
      MAX_REPEAT 0 MAXREPEAT SPACE;
      SUBPATTERN 1 (MAX_REPEAT 1 MAXREPEAT (NOT_LITERAL 10%N)) ].

(** The title alternatives of the person pattern, in the order written. *)
Definition TITLES : list str :=
  [u "Monsieur"; u "Madame"; u "Mlle"; u "M."; u "Enfant"].

Definition TITLE_GROUP : regex := branch_of (map literals TITLES).

(** [\b(Monsieur|Madame|Mlle|M\.|Enfant)\s+([A-Za-zÀ-ÿ' \-]+?)\s*\((\d{2}/\d{2}/\d{4})\)] *)
Definition PERSON_RE : regex :=
  seq_of
    [ AT_BOUNDARY;
      SUBPATTERN 1 TITLE_GROUP;
      MAX_REPEAT 1 MAXREPEAT SPACE;
      SUBPATTERN 2
        (MIN_REPEAT 1 MAXREPEAT
           (IN false [SET_RANGE (chr "A") (chr "Z");
                      SET_RANGE (chr "a") (chr "z");
                      SET_RANGE (chr "À") (chr "ÿ");
                      SET_LITERAL (chr "'"); SET_LITERAL (chr " ");
                      SET_LITERAL (chr "-")]));
      MAX_REPEAT 0 MAXREPEAT SPACE;
      ATOM (LITERAL (chr "("));
      SUBPATTERN 3
        (seq_of
           [ MAX_REPEAT 2 (Some 2) DIGIT; ATOM (LITERAL (chr "/"));
             MAX_REPEAT 2 (Some 2) DIGIT; ATOM (LITERAL (chr "/"));
             MAX_REPEAT 4 (Some 4) DIGIT ]);
      ATOM (LITERAL (chr ")")) ].

(** [(?:Oeil|Œil)\s*Droit\s*[:\-]?\s*([+\-]?\d+(?:[.,]\d+)?)], and the same
    with [Gauche]. *)
Definition EYE_RE (side : str) : regex :=
  seq_of
    [ branch_of [literals (u "Oeil"); literals (u "Œil")];
      MAX_REPEAT 0 MAXREPEAT SPACE;
      literals side;
      MAX_REPEAT 0 MAXREPEAT SPACE; MAX_REPEAT 0 (Some 1) SEPARATOR;
      MAX_REPEAT 0 MAXREPEAT SPACE;
      SUBPATTERN 1
        (seq_of
           [ MAX_REPEAT 0 (Some 1)
               (IN false [SET_LITERAL (chr "+"); SET_LITERAL (chr "-")]);
             MAX_REPEAT 1 MAXREPEAT DIGIT;
             OPTIONAL
               (seq_of
                  [ ATOM (IN false [SET_LITERAL (chr "."); SET_LITERAL (chr ",")]);
                    MAX_REPEAT 1 MAXREPEAT DIGIT ]) ]) ].

Definition IGNORECASE : bool := true.

(** ** Text acquisition

    [extract_text_pdf], the same function in [code.py] and in
    [ordonnance.py]. The PDF reader, the rasterizer and the OCR engine are
    collaborators: each call either answers or fails, and every call is
    logged so that one can tell which of them ran. *)

Inductive answer (A : Type) : Type :=
| Ok (a : A)
| Fails (code : N).

Arguments Ok {A} a.
Arguments Fails {A} code.

Definition NL : str := [10%N].

Section Acquisition.

Variables Page Image : Type.

Record collaborators : Type := {
  POPPLER_PATH : option str;                        (* os.getenv *)
  PdfReader : str -> answer (list Page);            (* reader.pages *)
  page_extract_text : Page -> answer (option str);  (* page.extract_text() *)
  convert_from_path : str -> N -> str -> answer (list Image);
  image_to_string : Image -> str -> str -> answer str
}.

Inductive event : Type :=
| PDF_READER (pdf_path : str)
| EXTRACT_TEXT (page : Page)
| CONVERT_FROM_PATH (pdf_path : str) (dpi : N) (poppler_path : str)
| IMAGE_TO_STRING (img : Image) (lang config : str).

(** A computation with collaborators: the calls made, in order, and the
    outcome. *)
Definition io (A : Type) : Type := (list event * outcome A)%type.

Definition io_ret {A} (a : A) : io A := ([], Return a).

Definition io_raise {A} (e : exn) : io A := ([], Raise e).

Definition io_bind {A B} (x : io A) (f : A -> io B) : io B :=
  match x with
  | (log, Return a) => let (log', r) := f a in (log ++ log', r)
  | (log, Raise e) => (log, Raise e)
  end.

Definition call {A} (ev : event) (r : answer A) : io A :=
  ([ev], match r with Ok a => Return a | Fails c => Raise (External c) end).

Definition lift {A} (o : outcome A) : io A := ([], o).

Notation "x <~ c1 ;; c2" := (io_bind c1 (fun x => c2))
  (at level 61, c1 at next level, right associativity).

Variable w : collaborators.

(** [for page in reader.pages: ...]: texts that are [None] or empty are
    skipped. *)
Fixpoint read_pages (pages : list Page) (text_parts : list str)
  : io (list str) :=
  match pages with
  | [] => io_ret text_parts
  | page :: pages' =>
    page_text <~ call (EXTRACT_TEXT page) (page_extract_text w page) ;;
    read_pages pages'
               match page_text with
               | Some ((_ :: _) as t) => text_parts ++ [t]
               | _ => text_parts
               end
  end.

(** The body of the [try] up to the threshold test. *)
Definition structural_text (pdf_path : str) : io str :=
  pages <~ call (PDF_READER pdf_path) (PdfReader w pdf_path) ;;
  text_parts <~ read_pages pages [] ;;
  io_ret (strip (join NL text_parts)).

Fixpoint ocr_pages (images : list Image) (ocr_text_parts : list str)
  : io (list str) :=
  match images with
  | [] => io_ret ocr_text_parts
  | img :: images' =>
    page_txt <~ call (IMAGE_TO_STRING img (u "eng") (u "--oem 3 --psm 6"))
                     (image_to_string w img (u "eng") (u "--oem 3 --psm 6")) ;;
    ocr_pages images' (ocr_text_parts ++ [page_txt])
  end.

Definition POPPLER_NOT_SET : exn :=
  RuntimeError (u "POPPLER_PATH is not set in .env").

(** The OCR fallback, from [if not POPPLER_PATH] on. *)
Definition ocr_text (pdf_path : str) : io str :=
  match POPPLER_PATH w with
  | Some ((_ :: _) as poppler_path) =>
    images <~ call (CONVERT_FROM_PATH pdf_path 400 poppler_path)
                   (convert_from_path w pdf_path 400 poppler_path) ;;
    ocr_text_parts <~ ocr_pages images [] ;;
    io_ret (join NL ocr_text_parts)
  | _ => io_raise POPPLER_NOT_SET
  end.

(** [except Exception: pass] swallows whatever the [try] raised. *)
Definition extract_text_pdf (pdf_path : str) : io str :=
  let (log, attempt) := structural_text pdf_path in
  match attempt with
  | Return text =>
    if 30 <? length text then (log, Return text)
    else io_bind (log, Return tt) (fun _ => ocr_text pdf_path)
  | Raise _ => io_bind (log, Return tt) (fun _ => ocr_text pdf_path)
  end.

End Acquisition.

Arguments PDF_READER {Page Image} pdf_path.
Arguments EXTRACT_TEXT {Page Image} page.
Arguments CONVERT_FROM_PATH {Page Image} pdf_path dpi poppler_path.
Arguments IMAGE_TO_STRING {Page Image} img lang config.
Arguments io_ret {Page Image A} a.
Arguments io_raise {Page Image A} e.
Arguments lift {Page Image A} o.

(** ** Paths and their order *)

(** A [pathlib.Path]: its anchor (drive and root, possibly empty) and the
    names below it. *)
Record path : Type := {
  anchor : str;
  names : list str
}.

(** What differs between [PosixPath] and [WindowsPath]. *)
Record flavour : Type := {
  sep : char;
  normcase : str -> str
}.

Definition posix : flavour := {| sep := chr "/"; normcase := fun s => s |}.

Definition parts (p : path) : list str :=
  match anchor p with
  | [] => names p
  | _ => anchor p :: names p
  end.

(** [str(p)]. *)
Definition path_str (fl : flavour) (p : path) : str :=
  anchor p ++ join [sep fl] (names p).

(** [os.path.basename]: what follows the last separator. *)
Fixpoint after_last (c : char) (s : str) (acc : str) : str :=
  match s with
  | [] => acc
  | x :: xs => if (x =? c)%N then after_last c xs [] else after_last c xs (acc ++ [x])
  end.

Definition basename (fl : flavour) (s : str) : str := after_last (sep fl) s [].

(** Comparison of sequences as Python does it: the first position where
    the two differ decides, and a proper prefix is smaller. *)
Section Lexicographic.

Variable A : Type.
Variable eqb ltb : A -> A -> bool.

Fixpoint lex_ltb (a b : list A) : bool :=
  match a, b with
  | [], [] => false
  | [], _ :: _ => true
  | _ :: _, [] => false
  | x :: a', y :: b' => if eqb x y then lex_ltb a' b' else ltb x y
  end.

End Lexicographic.

Fixpoint str_eqb (a b : str) : bool :=
  match a, b with
  | [], [] => true
  | x :: a', y :: b' => (x =? y)%N && str_eqb a' b'
  | _, _ => false
  end.

Definition str_ltb : str -> str -> bool := lex_ltb N.eqb N.ltb.

(** [Path.__lt__]: the case-normalized parts are compared as lists of
    strings. *)
Definition path_key (fl : flavour) (p : path) : list str :=
  map (normcase fl) (parts p).

Definition key_ltb : list str -> list str -> bool := lex_ltb str_eqb str_ltb.

Definition path_ltb (fl : flavour) (p q : path) : bool :=
  key_ltb (path_key fl p) (path_key fl q).

(** [sorted]: a stable sort that only asks [<]. *)
Section Sorted.

Variable A : Type.
Variable ltb : A -> A -> bool.

Fixpoint insert (x : A) (l : list A) : list A :=
  match l with
  | [] => [x]
  | y :: l' => if ltb y x then y :: insert x l' else x :: l
  end.

Fixpoint sorted (l : list A) : list A :=
  match l with
  | [] => []
  | x :: l' => insert x (sorted l')
  end.

End Sorted.

(** [x] may stand before [y] in a sorted list: [y < x] is false. *)
Definition not_after {A} (ltb : A -> A -> bool) (x y : A) : Prop :=
  ltb y x = false.

(** What the file system shows of the input directory: its name, whether
    it exists, and the paths that [glob] or [rglob] yields, in the order the file
    system enumerates them. *)
Record directory : Type := {
  dir_str : str;
  dir_exists : bool;
  pdf_glob : list path
}.

(** ** Field extraction *)

(** [digits[0]], [digits[i:j]] and [range(start, stop, step)]. *)
Definition index (s : str) (i : nat) : outcome char :=
  match nth_error s i with
  | Some c => Return c
  | None => Raise IndexError
  end.

Definition slice (s : str) (i j : nat) : str := firstn (j - i) (skipn i s).

Fixpoint range_from (fuel start stop step : nat) : list nat :=
  match fuel with
  | O => []
  | S fuel' =>
    if start <? stop then start :: range_from fuel' (start + step) stop step
    else []
  end.

Definition py_range (start stop step : nat) : list nat :=
  range_from stop start stop step.

(** [m.group(n).strip() if m else None], and the same with another string
    method: a group that took no part is [None], on which the method call
    raises. *)
Definition group_then (f : str -> str) (m : option groups) (n : nat)
  : outcome (option str) :=
  match m with
  | Some mo =>
    match group mo n with
    | Some s => Return (Some (f s))
    | None => Raise AttributeError
    end
  | None => Return None
  end.

Definition normalize_spaces (db : ucd) (text : str) : str :=
  let t := replace 0xA0%N (chr " ") text in
  re_sub db false BLANKS_RE (u " ") t.

Module Code.

Definition format_number_2digit_groups (digits : str) : outcome str :=
  first <- index digits 0 ;;
  let groups :=
      map (fun i => slice digits i (i + 2)) (py_range 1 (length digits) 2) in
  Return (join (u " ") ([first] :: groups)).

Section ClientInfo.

Variable db : ucd.

(** The function called on the fifteen-digit branch;
    [extract_client_info] passes [format_number_2digit_groups]. *)
Variable formatter : str -> outcome str.

Definition extract_client_info_with (text : str)
  : outcome (option str * option str) :=
  let t := normalize_spaces db text in
  let num_match := re_search db IGNORECASE NUMBER_RE t in
  client_number <- group_then strip num_match 1 ;;
  client_number <-
    match client_number with
    | Some ((_ :: _) as number) =>
      let digits := re_sub db false NOT_DIGIT_RE [] number in
      if 15 <=? length digits then
        let digits := firstn 15 digits in
        formatted <- formatter digits ;;
        Return (Some formatted)
      else
        Return (Some (strip (re_sub db false NOT_DIGIT_OR_SPACE_RE [] number)))
    | _ => Return client_number
    end ;;
  let name_match := re_search db IGNORECASE NAME_RE text in
  client_name <- group_then strip name_match 1 ;;
  Return (client_name, client_number).

End ClientInfo.

Definition extract_client_info (db : ucd) (text : str)
  : outcome (option str * option str) :=
  extract_client_info_with db format_number_2digit_groups text.

Record client := {
  file : str;
  client_name : option str;
  client_number : option str
}.

Section Batch.

Variables Page Image : Type.
Variable db : ucd.
Variable fl : flavour.
Variable w : collaborators Page Image.

Definition process_pdf (pdf_path : str) : io Page Image client :=
  io_bind (extract_text_pdf w pdf_path) (fun text =>
  io_bind (lift (extract_client_info db text)) (fun info =>
  io_ret {| file := basename fl pdf_path;
            client_name := fst info;
            client_number := snd info |})).

Fixpoint process_all (pdf_files : list path) (all_clients : list client)
  : io Page Image (list client) :=
  match pdf_files with
  | [] => io_ret all_clients
  | pdf :: pdf_files' =>
    io_bind (process_pdf (path_str fl pdf)) (fun result =>
    process_all pdf_files' (all_clients ++ [result]))
  end.

(** The main program; its value is the list handed to
    [save_all_to_json]. *)
Definition main (contracts_dir : directory) : io Page Image (list client) :=
  if negb (dir_exists contracts_dir)
  then io_raise (FileNotFoundError
                 (u "Dossier introuvable: " ++ dir_str contracts_dir))
  else
    let pdf_files := sorted (path_ltb fl) (pdf_glob contracts_dir) in
    match pdf_files with
    | [] => io_raise (FileNotFoundError
                      (u " Aucun PDF trouvé dans: " ++ dir_str contracts_dir))
    | _ => process_all pdf_files []
    end.

End Batch.

End Code.

Module Ordonnance.

Record fields := {
  title : option str;
  full_name : option str;
  birthdate : option str;
  eye_right : option str;
  eye_left : option str
}.

Definition parse_ordonnance (db : ucd) (text : str) : outcome fields :=
  let t := normalize_spaces db text in
  let person_match := re_search db IGNORECASE PERSON_RE t in
  title <- group_then strip person_match 1 ;;
  full_name <- group_then strip person_match 2 ;;
  birthdate <- group_then strip person_match 3 ;;
  let od_match := re_search db IGNORECASE (EYE_RE (u "Droit")) t in
  let og_match := re_search db IGNORECASE (EYE_RE (u "Gauche")) t in
  eye_right <- group_then (replace (chr ",") (chr ".")) od_match 1 ;;
  eye_left <- group_then (replace (chr ",") (chr ".")) og_match 1 ;;
  Return {| title := title; full_name := full_name; birthdate := birthdate;
            eye_right := eye_right; eye_left := eye_left |}.

(** The dictionary of [parse_ordonnance] with its ["file"] entry. *)
Record ordonnance := {
  data : fields;
  file : str
}.

Section Batch.

Variables Page Image : Type.
Variable db : ucd.
Variable fl : flavour.
Variable w : collaborators Page Image.

Definition process_pdf (pdf_path : str) : io Page Image ordonnance :=
  io_bind (extract_text_pdf w pdf_path) (fun text =>
  io_bind (lift (parse_ordonnance db text)) (fun data =>
  io_ret {| data := data; file := basename fl pdf_path |})).

Fixpoint process_all (pdf_files : list path) (results : list ordonnance)
  : io Page Image (list ordonnance) :=
  match pdf_files with
  | [] => io_ret results
  | pdf :: pdf_files' =>
    io_bind (process_pdf (path_str fl pdf)) (fun result =>
    process_all pdf_files' (results ++ [result]))
  end.

Definition main (ord_dir : directory) : io Page Image (list ordonnance) :=
  if negb (dir_exists ord_dir)
  then io_raise (FileNotFoundError
                 (u " Dossier introuvable: " ++ dir_str ord_dir))
  else
    let pdf_files := sorted (path_ltb fl) (pdf_glob ord_dir) in
    match pdf_files with
    | [] => io_raise (FileNotFoundError
                      (u " Aucun PDF trouvé dans: " ++ dir_str ord_dir))
    | _ => process_all pdf_files []
    end.

End Batch.

End Ordonnance.

(** ** Vocabulary of the statements *)

(** The events of the structural path and those of the OCR path. *)
Definition structural_event {Page Image} (ev : event Page Image) : Prop :=
  match ev with
  | PDF_READER _ | EXTRACT_TEXT _ => True
  | _ => False
  end.

Definition ocr_event {Page Image} (ev : event Page Image) : Prop :=
  match ev with
  | CONVERT_FROM_PATH _ _ _ | IMAGE_TO_STRING _ _ _ => True
  | _ => False
  end.

Definition ENG : str := u "eng".
Definition CONFIG : str := u "--oem 3 --psm 6".

(** The fallback is needed when the structural attempt raised or gave at
    most thirty characters. *)
Definition needs_ocr (attempt : outcome str) : Prop :=
  match attempt with
  | Return text => length text <= 30
  | Raise _ => True
  end.

(** A scanned document: one page whose text layer holds four characters,
    and two page images. Pages and images are numbered. *)
Definition scanned (poppler_path : option str) : collaborators nat nat :=
  {| POPPLER_PATH := poppler_path;
     PdfReader := fun _ => Ok [0];
     page_extract_text := fun _ => Ok (Some (u "p. 1"));
     convert_from_path := fun _ _ _ => Ok [0; 1];
     image_to_string := fun img _ _ =>
       Ok (if Nat.eqb img 0 then u "Mon numéro : 2 74 01 12 345 678 90"
           else u "Mon nom ou celui de mon ayant droit : Jean Dupont") |}.

(** A document with a text layer of thirty-nine characters once stripped;
    its rasterizer and OCR engine fail when called. *)
Definition born_digital (poppler_path : option str) : collaborators nat nat :=
  {| POPPLER_PATH := poppler_path;
     PdfReader := fun _ => Ok [0; 1];
     page_extract_text := fun page =>
       Ok (if Nat.eqb page 0 then Some (u "Madame Anne Dupont (01/02/1980)")
           else Some (u " OEIL x "));
     convert_from_path := fun _ _ _ => Fails 1;
     image_to_string := fun _ _ _ => Fails 2 |}.

(** A flat directory with two documents, as the file system may list
    them. *)
Definition pdf_in_contracts (name : str) : path :=
  {| anchor := u "/"; names := [u "srv"; u "contracts"; name] |}.

Definition contracts_b_a : directory :=
  {| dir_str := u "/srv/contracts";
     dir_exists := true;
     pdf_glob := [pdf_in_contracts (u "b.pdf"); pdf_in_contracts (u "a.pdf")] |}.

Definition contracts_a_b : directory :=
  {| dir_str := u "/srv/contracts";
     dir_exists := true;
     pdf_glob := [pdf_in_contracts (u "a.pdf"); pdf_in_contracts (u "b.pdf")] |}.

(** What a successful run of the matcher stands for: the pattern consumed
    the string [w] and turned the groups [g] into [g']. Priorities among
    the choices are left out, [\b] is not tested. *)
Definition within (hi : option nat) (n : nat) : Prop :=
match hi with
| Some m => n <= m
| None => True
end.

Fixpoint Matches (db : ucd) (ic : bool) (r : regex) (w : str) (g g' : groups)
  : Prop :=
match r with
| EMPTY => w = [] /\ g' = g
| ATOM a => exists x, w = [x] /\ atom_ok db ic a x = true /\ g' = g
| SEQ r1 r2 =>
  exists w1 w2 g1,
    w = w1 ++ w2 /\ Matches db ic r1 w1 g g1 /\ Matches db ic r2 w2 g1 g'
| BRANCH r1 r2 => Matches db ic r1 w g g' \/ Matches db ic r2 w g g'
| MAX_REPEAT lo hi a | MIN_REPEAT lo hi a =>
  Forall (fun x => atom_ok db ic a x = true) w
  /\ lo <= length w /\ within hi (length w) /\ g' = g
| OPTIONAL r1 => Matches db ic r1 w g g' \/ (w = [] /\ g' = g)
| SUBPATTERN n r1 => exists g1, Matches db ic r1 w g g1 /\ g' = (n, w) :: g1
| AT_BOUNDARY => w = [] /\ g' = g
end.

(** A repetition that succeeded consumed a run of matching characters of
    an allowed length before its continuation succeeded. *)
Definition repeated (db : ucd) (ic : bool) (R : Type) (a : atom)
           (k : option char -> str -> option R)
           (lo : nat) (hi : option nat) (rest : str) (res : R) : Prop :=
exists w rest' prev',
  rest = w ++ rest' /\ Forall (fun x => atom_ok db ic a x = true) w
  /\ lo <= length w /\ within hi (length w) /\ k prev' rest' = Some res.

(** Whether group [n] occurs in a pattern, and the sub-pattern of group
    [n] when every match of the pattern goes through it exactly once. *)
Fixpoint mentions (r : regex) (n : nat) : bool :=
match r with
| SEQ r1 r2 | BRANCH r1 r2 => mentions r1 n || mentions r2 n
| OPTIONAL r1 => mentions r1 n
| SUBPATTERN m r1 => Nat.eqb m n || mentions r1 n
| _ => false
end.

Fixpoint capture (r : regex) (n : nat) : option regex :=
match r with
| SEQ r1 r2 =>
  if mentions r2 n
  then (if mentions r1 n then None else capture r2 n)
  else capture r1 n
| SUBPATTERN m r1 =>
  if Nat.eqb m n
  then (if mentions r1 n then None else Some r1)
  else capture r1 n
| _ => None
end.

(** [m.group(1) if m else None]. *)
Definition captured (m : option groups) (n : nat) : option str :=
match m with
| Some mo => group mo n
| None => None
end.

(** What the proofs ask of the character data: on the Basic Latin block it
    is the data of [latin], and white space has no lower case of its
    own. *)
Record ucd_ok (db : ucd) : Prop := {
  tolower_ascii : forall c, (c < 128)%N -> tolower db c = latin_tolower c;
  toupper_ascii : forall c, (c < 128)%N -> toupper db c = latin_toupper c;
  isdecimal_ascii : forall c, (c < 128)%N -> isdecimal db c = latin_isdecimal c;
  tolower_space : forall c, isspace c = true -> tolower db c = c
}.

(** Equality of characters and of strings up to case, as [IGNORECASE]
    understands it: the lower cases agree, or they share an upper case. *)
Definition same_letter (db : ucd) (x c : char) : Prop :=
In (tolower db x) (with_extra (tolower db c)).

Definition equal_ignoring_case (db : ucd) (s t : str) : Prop :=
Forall2 (same_letter db) s t.

Definition ascii_digit (c : char) : bool := between (chr "0") (chr "9") c.

Definition digit_or_space (c : char) : bool :=
ascii_digit c || (c =? chr " ")%N.

(** The grouping of an identifier in the words of the specification: the
    first digit alone, then the remaining digits in consecutive pairs. *)
Fixpoint pairs (d : str) : list str :=
match d with
| a :: b :: d' => [a; b] :: pairs d'
| [a] => [[a]]
| [] => []
end.

Definition first_then_pairs (d : str) : list str :=
match d with
| first :: d' => [first] :: pairs d'
| [] => []
end.

(** A string of white space. *)
Definition blank (s : str) : Prop := Forall (fun c => isspace c = true) s.

(** The identifier and the name the two patterns of [extract_client_info]
    capture, and the three matches of [parse_ordonnance]. *)
Definition number_match (db : ucd) (text : str) : option groups :=
re_search db IGNORECASE NUMBER_RE (normalize_spaces db text).

Definition name_match (db : ucd) (text : str) : option groups :=
re_search db IGNORECASE NAME_RE text.

Definition number_span (db : ucd) (text : str) : option str :=
captured (number_match db text) 1.

Definition name_span (db : ucd) (text : str) : option str :=
captured (name_match db text) 1.

Definition person_match (db : ucd) (text : str) : option groups :=
re_search db IGNORECASE PERSON_RE (normalize_spaces db text).

Definition od_match (db : ucd) (text : str) : option groups :=
re_search db IGNORECASE (EYE_RE (u "Droit")) (normalize_spaces db text).

Definition og_match (db : ucd) (text : str) : option groups :=
re_search db IGNORECASE (EYE_RE (u "Gauche")) (normalize_spaces db text).

(** Members of a set that lie in the Basic Latin block. *)
Definition ascii_item (it : set_item) : bool :=
match it with
| SET_LITERAL a => (a <? 128)%N
| SET_RANGE lo hi => (hi <? 128)%N
| SET_CATEGORY _ => true
end.

(** The sub-patterns of the groups of the person and eye patterns. *)
Definition NAME_GROUP : regex :=
MIN_REPEAT 1 MAXREPEAT
  (IN false [SET_RANGE (chr "A") (chr "Z");
             SET_RANGE (chr "a") (chr "z");
             SET_RANGE (chr "À") (chr "ÿ");
             SET_LITERAL (chr "'"); SET_LITERAL (chr " ");
             SET_LITERAL (chr "-")]).

Definition DATE_GROUP : regex :=
seq_of [ MAX_REPEAT 2 (Some 2) DIGIT; ATOM (LITERAL (chr "/"));
         MAX_REPEAT 2 (Some 2) DIGIT; ATOM (LITERAL (chr "/"));
         MAX_REPEAT 4 (Some 4) DIGIT ].

Definition VALUE_GROUP : regex :=
seq_of
  [ MAX_REPEAT 0 (Some 1)
      (IN false [SET_LITERAL (chr "+"); SET_LITERAL (chr "-")]);
    MAX_REPEAT 1 MAXREPEAT DIGIT;
    OPTIONAL
      (seq_of
         [ ATOM (IN false [SET_LITERAL (chr "."); SET_LITERAL (chr ",")]);
           MAX_REPEAT 1 MAXREPEAT DIGIT ]) ].

(** The four titles the specification names. *)
Definition FOUR_TITLES : list str :=
[u "Monsieur"; u "Madame"; u "Mlle"; u "M."].

(** A Basic Latin character none of whose case variants is white space. *)
Definition plain_letter (c : char) : bool :=
(c <? 128)%N
&& forallb (fun y => negb (isspace y)) (with_extra (latin_tolower c)).

(** A parenthesized date [(dd/mm/yyyy)] somewhere in a string, [d] being
    any decimal digit. *)
Definition has_date (db : ucd) (s : str) : Prop :=
exists a d1 d2 d3 b,
  s = a ++ chr "(" :: d1 ++ chr "/" :: d2 ++ chr "/" :: d3 ++ chr ")" :: b
  /\ length d1 = 2 /\ length d2 = 2 /\ length d3 = 4
  /\ Forall (fun c => isdecimal db c = true) (d1 ++ d2 ++ d3).

(** How the normalization of white space changes a string: a character is
    kept, or a piece of the string becomes one space. *)
Inductive Spaced : str -> str -> Prop :=
| spaced_same s : Spaced s s
| spaced_copy x s o : Spaced s o -> Spaced (x :: s) (x :: o)
| spaced_space w s o : Spaced s o -> Spaced (w ++ s) (chr " " :: o).

Definition spaceless (m : str) : Prop := Forall (fun c => c <> chr " ") m.

(** A character other than the space. *)
Definition not_space (c : char) : bool := negb (c =? chr " ")%N.

(** No decimal digit is white space. *)
Definition decimal_nonspace (db : ucd) : Prop :=
forall c, isdecimal db c = true -> isspace c = false.

(** A string of decimal digits. *)
Definition decimals (db : ucd) (s : str) : Prop :=
Forall (fun c => isdecimal db c = true) s.

(** The normalization of white space written as one pass: a run of spaces
    and tabs becomes one space. [after_blank] tells that the run has
    begun. *)
Definition is_blank (c : char) : bool := (c =? chr " ")%N || (c =? 9)%N.

Fixpoint squeeze (after_blank : bool) (s : str) : str :=
match s with
| [] => []
| x :: xs =>
  if is_blank x
  then (if after_blank then squeeze true xs else chr " " :: squeeze true xs)
  else x :: squeeze false xs
end.

Fixpoint skip_blanks (s : str) : str :=
match s with
| [] => []
| x :: xs => if is_blank x then skip_blanks xs else s
end.

(** Two spaces in a row. *)
Fixpoint double_space (s : str) : bool :=
match s with
| x :: (y :: _) as t =>
  ((x =? chr " ")%N && (y =? chr " ")%N) || double_space t
| _ => false
end.

(** A character that is neither a space, a tab nor a no-break space. *)
Definition visible (c : char) : bool := negb (is_blank c) && negb (c =? 160)%N.

(** The page texts that the loop of the structural extraction keeps:
    those that are neither [None] nor empty. *)
Definition kept (page_texts : list (option str)) : list str :=
  flat_map (fun t => match t with
                     | Some ((_ :: _) as s) => [s]
                     | _ => []
                     end) page_texts.

(** A document of three pages whose second page cannot be read, and of
    three page images of which the second cannot be recognized. *)
Definition damaged (poppler_path : option str) : collaborators nat nat :=
  {| POPPLER_PATH := poppler_path;
     PdfReader := fun _ => Ok [0; 1; 2];
     page_extract_text := fun page =>
       if Nat.eqb page 1 then Fails 3
       else Ok (Some (u "Mon nom ou celui de mon ayant droit : Jean Dupont"));
     convert_from_path := fun _ _ _ => Ok [0; 1; 2];
     image_to_string := fun img _ _ =>
       if Nat.eqb img 1 then Fails 4 else Ok (u "Mon numéro : 2 74") |}.

(** Three documents of which only [a.pdf] has a text layer, on a machine
    without a rasterizer. *)
Definition text_layer_in_a : collaborators nat nat :=
  {| POPPLER_PATH := None;
     PdfReader := fun pdf_path =>
       if str_eqb pdf_path (u "/srv/contracts/a.pdf") then Ok [0] else Ok [1];
     page_extract_text := fun page =>
       Ok (if Nat.eqb page 0
           then Some (u "Mon nom ou celui de mon ayant droit : Jean Dupont")
           else None);
     convert_from_path := fun _ _ _ => Fails 1;
     image_to_string := fun _ _ _ => Fails 2 |}.

Definition contracts_c_a_b : directory :=
  {| dir_str := u "/srv/contracts";
     dir_exists := true;
     pdf_glob := [pdf_in_contracts (u "c.pdf"); pdf_in_contracts (u "a.pdf");
                  pdf_in_contracts (u "b.pdf")] |}.

(** * Properties *)

(** ** Text acquisition *)

Section AcquisitionFacts.

Variables Page Image : Type.
Variable w : collaborators Page Image.

Lemma structural_not_ocr (log : list (event Page Image)) :
  Forall structural_event log -> Forall (fun ev => ~ ocr_event ev) log.
Proof.
  apply Forall_impl. intros [p|p|p d q|i l c]; simpl; tauto.
Qed.

Lemma read_pages_log pages : forall text_parts,
    Forall structural_event (fst (read_pages w pages text_parts)).
Proof.
  induction pages as [|page pages IH]; intros text_parts; simpl.
  - constructor.
  - unfold io_bind, call.
    destruct (page_extract_text w page) as [page_text|code]; simpl.
    + match goal with
      | |- context [read_pages w pages ?acc] =>
        specialize (IH acc); destruct (read_pages w pages acc) as [log r]
      end.
      simpl in *. constructor; [exact I | exact IH].
    + constructor; [exact I | constructor].
Qed.

Lemma structural_text_log pdf_path :
  Forall structural_event (fst (structural_text w pdf_path)).
Proof.
  unfold structural_text, io_bind, call.
  destruct (PdfReader w pdf_path) as [pages|code]; simpl.
  - pose proof (read_pages_log pages []) as H.
    destruct (read_pages w pages []) as [log [parts|e]]; simpl in *.
    + constructor; [exact I |]. rewrite app_nil_r. exact H.
    + constructor; [exact I | exact H].
  - constructor; [exact I | constructor].
Qed.

Lemma ocr_pages_answers images : forall texts ocr_text_parts,
    Forall2 (fun img txt => image_to_string w img ENG CONFIG = Ok txt)
            images texts ->
    ocr_pages w images ocr_text_parts
    = (map (fun img => IMAGE_TO_STRING img ENG CONFIG) images,
       Return (ocr_text_parts ++ texts)).
Proof.
  induction images as [|img images IH]; intros texts acc H; inversion H; subst.
  - simpl. unfold io_ret. now rewrite app_nil_r.
  - simpl. unfold io_bind, call. fold ENG CONFIG.
    match goal with Hx : image_to_string _ _ _ _ = Ok _ |- _ => rewrite Hx end.
    rewrite (IH l' (acc ++ [y])) by assumption.
    simpl. now rewrite <- app_assoc.
Qed.

Lemma accepted_or_needs_ocr (attempt : outcome str) :
  (exists text, attempt = Return text /\ 30 < length text) \/ needs_ocr attempt.
Proof.
  destruct attempt as [text|e]; simpl; [|now right].
  destruct (Nat.lt_ge_cases 30 (length text)); [left; eauto | now right].
Qed.

Lemma extract_text_pdf_accepts pdf_path text :
  snd (structural_text w pdf_path) = Return text ->
  30 < length text ->
  extract_text_pdf w pdf_path = (fst (structural_text w pdf_path), Return text).
Proof.
  intros Hs Hlen. unfold extract_text_pdf.
  destruct (structural_text w pdf_path) as [log attempt]; simpl in *. subst.
  apply Nat.ltb_lt in Hlen. now rewrite Hlen.
Qed.

Lemma extract_text_pdf_falls_back pdf_path :
  needs_ocr (snd (structural_text w pdf_path)) ->
  extract_text_pdf w pdf_path
  = (fst (structural_text w pdf_path) ++ fst (ocr_text w pdf_path),
     snd (ocr_text w pdf_path)).
Proof.
  intros Hn. unfold extract_text_pdf.
  destruct (structural_text w pdf_path) as [log attempt]; simpl in *.
  destruct attempt as [text|e]; simpl in *.
  - apply Nat.ltb_ge in Hn. rewrite Hn.
    now destruct (ocr_text w pdf_path).
  - now destruct (ocr_text w pdf_path).
Qed.

Lemma ocr_text_unconfigured pdf_path :
  truthy (POPPLER_PATH w) = false ->
  ocr_text w pdf_path = ([], Raise POPPLER_NOT_SET).
Proof.
  unfold ocr_text. now destruct (POPPLER_PATH w) as [[|c s]|].
Qed.

Lemma ocr_text_configured pdf_path :
  truthy (POPPLER_PATH w) = true ->
  snd (ocr_text w pdf_path) <> Raise POPPLER_NOT_SET.
Proof.
  unfold ocr_text. destruct (POPPLER_PATH w) as [[|c s]|]; try discriminate.
  intros _. unfold io_bind, call.
  destruct (convert_from_path w pdf_path 400 (c :: s)) as [images|code];
    simpl; [|discriminate].
  assert (Hp : forall imgs acc, snd (ocr_pages w imgs acc) <> Raise POPPLER_NOT_SET).
  { induction imgs as [|img imgs IH]; intros acc; simpl; [discriminate|].
    unfold io_bind, call.
    destruct (image_to_string w img _ _) as [txt|code]; simpl; [|discriminate].
    specialize (IH (acc ++ [txt])).
    now destruct (ocr_pages w imgs (acc ++ [txt])). }
  specialize (Hp images []).
  destruct (ocr_pages w images []) as [log [parts|e]]; simpl in *;
    [discriminate | intros He; apply Hp; congruence].
Qed.

End AcquisitionFacts.

(** C1, as amended. Text acquisition uses one source per document, with a
    strict threshold. When the stripped structural text has more than 30
    characters, [extract_text_pdf] returns it and calls neither the
    rasterizer nor the OCR engine. When it has at most 30 characters
    (empty included) or the structural extraction failed, the fallback is
    taken: with [POPPLER_PATH] set and the rasterizer and the OCR engine
    answering, the rasterizer is called, then the OCR engine once per page
    image, and the newline-joined OCR texts are returned, not the
    structural text; with [POPPLER_PATH] unset the call raises and nothing
    of the OCR path runs. *)
Theorem acquisition_uses_one_source :
  forall (Page Image : Type) (w : collaborators Page Image) (pdf_path : str)
         (log : list (event Page Image)) (attempt : outcome str),
    structural_text w pdf_path = (log, attempt) ->
    (forall text,
        attempt = Return text -> 30 < length text ->
        extract_text_pdf w pdf_path = (log, Return text)
        /\ Forall (fun ev => ~ ocr_event ev) log)
    /\ (forall poppler_path images texts,
           needs_ocr attempt ->
           POPPLER_PATH w = Some poppler_path -> poppler_path <> [] ->
           convert_from_path w pdf_path 400 poppler_path = Ok images ->
           Forall2 (fun img txt => image_to_string w img ENG CONFIG = Ok txt)
                   images texts ->
           extract_text_pdf w pdf_path
           = (log ++ CONVERT_FROM_PATH pdf_path 400 poppler_path
                  :: map (fun img => IMAGE_TO_STRING img ENG CONFIG) images,
              Return (join NL texts)))
    /\ (needs_ocr attempt -> truthy (POPPLER_PATH w) = false ->
        extract_text_pdf w pdf_path = (log, Raise POPPLER_NOT_SET)).
Proof.
  intros Page Image w pdf_path log attempt Hs.
  pose proof (structural_text_log w pdf_path) as Hlog.
  rewrite Hs in Hlog. simpl in Hlog.
  split; [|split].
  - intros text -> Hlen. split.
    + rewrite (@extract_text_pdf_accepts _ _ w pdf_path text);
        [now rewrite Hs | now rewrite Hs | exact Hlen].
    + now apply structural_not_ocr.
  - intros poppler_path images texts Hn Hp Hne Hc Ho.
    rewrite extract_text_pdf_falls_back by (rewrite Hs; exact Hn).
    rewrite Hs. simpl. unfold ocr_text. rewrite Hp.
    destruct poppler_path as [|c s]; [congruence|].
    unfold io_bind, call. rewrite Hc.
    rewrite (ocr_pages_answers w (texts := texts)) by exact Ho.
    simpl. now rewrite app_nil_r.
  - intros Hn Hp.
    rewrite extract_text_pdf_falls_back by (rewrite Hs; exact Hn).
    rewrite ocr_text_unconfigured by exact Hp.
    rewrite Hs. simpl. now rewrite app_nil_r.
Qed.

(** The scanned document, with the rasterizer configured: the four
    characters of its text layer are dropped for the two OCR texts. *)
Lemma acquisition_uses_one_source_witness :
  extract_text_pdf (scanned (Some (u "C:/poppler/bin"))) (u "scan.pdf")
  = ([PDF_READER (u "scan.pdf"); EXTRACT_TEXT 0;
      CONVERT_FROM_PATH (u "scan.pdf") 400 (u "C:/poppler/bin");
      IMAGE_TO_STRING 0 ENG CONFIG; IMAGE_TO_STRING 1 ENG CONFIG],
     Return (u "Mon numéro : 2 74 01 12 345 678 90" ++ NL
               ++ u "Mon nom ou celui de mon ayant droit : Jean Dupont")).
Proof.
  destruct (@acquisition_uses_one_source nat nat
              (scanned (Some (u "C:/poppler/bin"))) (u "scan.pdf")
              [PDF_READER (u "scan.pdf"); EXTRACT_TEXT 0] (Return (u "p. 1")))
    as [_ [H _]].
  - vm_compute. reflexivity.
  - rewrite (H (u "C:/poppler/bin") [0; 1]
               [u "Mon numéro : 2 74 01 12 345 678 90";
                u "Mon nom ou celui de mon ayant droit : Jean Dupont"]).
    + reflexivity.
    + vm_compute; lia.
    + reflexivity.
    + discriminate.
    + reflexivity.
    + repeat constructor.
Defined.

(** C1 as stated fails when [POPPLER_PATH] is unset: the structural text
    of the scanned document has four characters, yet no OCR runs and
    nothing is returned. *)
Lemma acquisition_ocr_always_counterexample :
  structural_text (scanned None) (u "scan.pdf")
  = ([PDF_READER (u "scan.pdf"); EXTRACT_TEXT 0], Return (u "p. 1"))
  /\ extract_text_pdf (scanned None) (u "scan.pdf")
     = ([PDF_READER (u "scan.pdf"); EXTRACT_TEXT 0], Raise POPPLER_NOT_SET).
Proof.
  split; reflexivity.
Qed.

(** C8. [extract_text_pdf] raises the configuration error exactly when the
    fallback is reached (structural text of at most 30 characters, or
    failed structural extraction) and [POPPLER_PATH] is not set; a
    structural text of more than 30 characters is returned whatever
    [POPPLER_PATH] is; and when the error is raised there is no result. *)
Theorem configuration_error_iff :
  forall (Page Image : Type) (w : collaborators Page Image) (pdf_path : str),
    (snd (extract_text_pdf w pdf_path) = Raise POPPLER_NOT_SET
     <-> needs_ocr (snd (structural_text w pdf_path))
         /\ truthy (POPPLER_PATH w) = false)
    /\ (forall text,
           snd (structural_text w pdf_path) = Return text ->
           30 < length text ->
           snd (extract_text_pdf w pdf_path) = Return text)
    /\ (snd (extract_text_pdf w pdf_path) = Raise POPPLER_NOT_SET ->
        forall text, snd (extract_text_pdf w pdf_path) <> Return text).
Proof.
  intros Page Image w pdf_path.
  assert (Hacc : forall text,
             snd (structural_text w pdf_path) = Return text ->
             30 < length text ->
             snd (extract_text_pdf w pdf_path) = Return text).
  { intros text Hs Hlen. now rewrite (extract_text_pdf_accepts w pdf_path Hs Hlen). }
  split; [|split].
  - split.
    + intros Hr.
      destruct (accepted_or_needs_ocr (snd (structural_text w pdf_path)))
        as [[text [Hs Hlen]]|Hn].
      * rewrite (Hacc text Hs Hlen) in Hr. discriminate.
      * split; [exact Hn|].
        rewrite extract_text_pdf_falls_back in Hr by exact Hn. simpl in Hr.
        destruct (truthy (POPPLER_PATH w)) eqn:Hp; [|reflexivity].
        now apply ocr_text_configured in Hr.
    + intros [Hn Hp].
      rewrite extract_text_pdf_falls_back by exact Hn.
      now rewrite ocr_text_unconfigured.
  - exact Hacc.
  - intros Hr text. rewrite Hr. discriminate.
Qed.

(** ** Order of the batch *)

Section LexFacts.

Variable A : Type.
Variable eqb ltb : A -> A -> bool.
Hypothesis eqb_eq : forall x y, eqb x y = true <-> x = y.
Hypothesis ltb_irrefl : forall x, ltb x x = false.
Hypothesis ltb_trans :
  forall x y z, ltb x y = true -> ltb y z = true -> ltb x z = true.
Hypothesis ltb_connected :
  forall x y, ltb x y = false -> ltb y x = false -> x = y.

Let lt := lex_ltb eqb ltb.

Lemma eqb_refl x : eqb x x = true.
Proof. now apply eqb_eq. Qed.

Lemma lex_irrefl a : lt a a = false.
Proof.
  induction a as [|x a IH]; simpl; [reflexivity|].
  now rewrite eqb_refl.
Qed.

Lemma lex_trans a : forall b c, lt a b = true -> lt b c = true -> lt a c = true.
Proof.
  induction a as [|x a IH]; intros [|y b] [|z c]; simpl; try congruence.
  destruct (eqb x y) eqn:Exy.
  - apply eqb_eq in Exy. subst y.
    destruct (eqb x z) eqn:Exz; [apply IH | auto].
  - destruct (eqb y z) eqn:Eyz.
    + apply eqb_eq in Eyz. subst z. now rewrite Exy.
    + intros Hxy Hyz. destruct (eqb x z) eqn:Exz.
      * apply eqb_eq in Exz. subst z.
        pose proof (ltb_irrefl x) as Hi.
        rewrite (ltb_trans Hxy Hyz) in Hi. discriminate.
      * eauto.
Qed.

Lemma lex_connected a : forall b, lt a b = false -> lt b a = false -> a = b.
Proof.
  induction a as [|x a IH]; intros [|y b]; simpl; try congruence.
  destruct (eqb x y) eqn:Exy.
  - apply eqb_eq in Exy. subst y. rewrite eqb_refl.
    intros H1 H2. f_equal. now apply IH.
  - destruct (eqb y x) eqn:Eyx.
    + apply eqb_eq in Eyx. subst y. rewrite eqb_refl in Exy. discriminate.
    + intros H1 H2. rewrite (ltb_connected H1 H2) in Exy.
      rewrite eqb_refl in Exy. discriminate.
Qed.

End LexFacts.

Lemma str_eqb_eq (a : str) : forall b, str_eqb a b = true <-> a = b.
Proof.
  induction a as [|x a IH]; intros [|y b]; simpl; split; try congruence.
  - intros H. apply andb_true_iff in H. destruct H as [H1 H2].
    apply N.eqb_eq in H1. apply IH in H2. congruence.
  - intros H. injection H as -> ->. rewrite N.eqb_refl. now apply IH.
Qed.

Lemma str_ltb_irrefl a : str_ltb a a = false.
Proof. apply lex_irrefl. apply N.eqb_eq. Qed.

Lemma str_ltb_trans a b c :
  str_ltb a b = true -> str_ltb b c = true -> str_ltb a c = true.
Proof.
  apply lex_trans.
  - apply N.eqb_eq.
  - apply N.ltb_irrefl.
  - intros x y z H1 H2. apply N.ltb_lt in H1, H2. apply N.ltb_lt. lia.
Qed.

Lemma str_ltb_connected a b :
  str_ltb a b = false -> str_ltb b a = false -> a = b.
Proof.
  apply lex_connected.
  - apply N.eqb_eq.
  - intros x y H1 H2. apply N.ltb_ge in H1, H2. lia.
Qed.

Lemma key_ltb_irrefl a : key_ltb a a = false.
Proof. apply lex_irrefl. apply str_eqb_eq. Qed.

Lemma key_ltb_trans a b c :
  key_ltb a b = true -> key_ltb b c = true -> key_ltb a c = true.
Proof.
  apply lex_trans.
  - apply str_eqb_eq.
  - apply str_ltb_irrefl.
  - apply str_ltb_trans.
Qed.

Lemma key_ltb_connected a b :
  key_ltb a b = false -> key_ltb b a = false -> a = b.
Proof.
  apply lex_connected.
  - apply str_eqb_eq.
  - apply str_ltb_connected.
Qed.

Section SortedFacts.

Variable A K : Type.
Variable key : A -> K.
Variable kltb : K -> K -> bool.
Hypothesis kltb_irrefl : forall a, kltb a a = false.
Hypothesis kltb_trans :
  forall a b c, kltb a b = true -> kltb b c = true -> kltb a c = true.
Hypothesis kltb_connected :
  forall a b, kltb a b = false -> kltb b a = false -> a = b.

Let ltb (x y : A) : bool := kltb (key x) (key y).

Let precedes := not_after ltb.

Lemma not_after_total x y : precedes x y \/ precedes y x.
Proof.
  unfold precedes, not_after, ltb.
  destruct (kltb (key y) (key x)) eqn:H1; [|now left].
  destruct (kltb (key x) (key y)) eqn:H2; [|now right].
  pose proof (kltb_irrefl (key y)) as Hi.
  rewrite (kltb_trans H1 H2) in Hi. discriminate.
Qed.

Lemma not_after_trans x y z : precedes x y -> precedes y z -> precedes x z.
Proof.
  unfold precedes, not_after, ltb. intros H1 H2.
  destruct (kltb (key z) (key x)) eqn:H3; [|reflexivity].
  destruct (kltb (key y) (key z)) eqn:H4.
  - now rewrite (kltb_trans H4 H3) in H1.
  - rewrite (kltb_connected H2 H4) in H3. congruence.
Qed.

Lemma not_after_antisym x y :
  precedes x y -> precedes y x -> key x = key y.
Proof.
  unfold precedes, not_after, ltb. intros H1 H2. now apply kltb_connected.
Qed.

Lemma insert_perm x l : Permutation (insert ltb x l) (x :: l).
Proof.
  induction l as [|y l IH]; simpl; [reflexivity|].
  destruct (ltb y x); [|reflexivity].
  rewrite IH. apply perm_swap.
Qed.

Lemma sorted_perm l : Permutation (sorted ltb l) l.
Proof.
  induction l as [|x l IH]; simpl; [reflexivity|].
  rewrite insert_perm. now constructor.
Qed.

Lemma insert_sorted x l :
  StronglySorted precedes l -> StronglySorted precedes (insert ltb x l).
Proof.
  induction 1 as [|y l Hs IH Hy]; simpl.
  - repeat constructor.
  - destruct (ltb y x) eqn:Hyx.
    + constructor; [exact IH|].
      apply (Permutation_Forall (Permutation_sym (insert_perm x l))).
      constructor; [|exact Hy].
      destruct (not_after_total y x) as [H|H]; [exact H|].
      unfold precedes, not_after in H. congruence.
    + constructor; [now constructor|].
      constructor; [exact Hyx|].
      eapply Forall_impl; [|exact Hy].
      intros z Hz. eapply not_after_trans; [exact Hyx | exact Hz].
Qed.

Lemma sorted_sorted l : StronglySorted precedes (sorted ltb l).
Proof.
  induction l as [|x l IH]; simpl; [constructor | now apply insert_sorted].
Qed.

(** With distinct keys there is one sorted arrangement. *)
Lemma sorted_unique l1 : forall l2,
    NoDup (map key l1) ->
    StronglySorted precedes l1 -> StronglySorted precedes l2 ->
    Permutation l1 l2 -> l1 = l2.
Proof.
  induction l1 as [|x l1 IH]; intros l2 Hnd H1 H2 Hp.
  - apply Permutation_nil in Hp. now subst.
  - destruct l2 as [|y l2];
      [apply Permutation_sym, Permutation_nil in Hp; discriminate|].
    inversion H1 as [|? ? Hs1 Hx]; subst.
    inversion H2 as [|? ? Hs2 Hy]; subst.
    assert (Hxy : x = y).
    { assert (Hin : In y (x :: l1))
        by (apply (Permutation_in _ (Permutation_sym Hp)); now left).
      destruct Hin as [E|Hin]; [exact E|].
      assert (Hin' : In x (y :: l2))
        by (apply (Permutation_in _ Hp); now left).
      destruct Hin' as [E|Hin']; [now symmetry|].
      rewrite Forall_forall in Hx, Hy.
      pose proof (not_after_antisym (Hx _ Hin) (Hy _ Hin')) as Hk.
      inversion Hnd as [|? ? Hni _]; subst.
      exfalso. apply Hni. rewrite Hk. now apply in_map. }
    subst y. f_equal.
    apply IH; auto.
    + now inversion Hnd.
    + now apply Permutation_cons_inv in Hp.
Qed.

Lemma sorted_order_independent l1 l2 :
  NoDup (map key l1) -> Permutation l2 l1 -> sorted ltb l2 = sorted ltb l1.
Proof.
  intros Hnd Hp. apply sorted_unique.
  - apply (Permutation_NoDup (l := map key l1)); [|exact Hnd].
    apply Permutation_map.
    rewrite sorted_perm. now apply Permutation_sym.
  - apply sorted_sorted.
  - apply sorted_sorted.
  - now rewrite !sorted_perm.
Qed.

End SortedFacts.

Lemma path_ltb_sorted fl l :
  StronglySorted (not_after (path_ltb fl)) (sorted (path_ltb fl) l).
Proof.
  exact (@sorted_sorted _ _ (path_key fl) key_ltb key_ltb_irrefl
                        key_ltb_trans key_ltb_connected l).
Qed.

Lemma path_ltb_order_independent fl l1 l2 :
  NoDup (map (path_key fl) l1) -> Permutation l2 l1 ->
  sorted (path_ltb fl) l2 = sorted (path_ltb fl) l1.
Proof.
  exact (@sorted_order_independent _ _ (path_key fl) key_ltb key_ltb_irrefl
                                   key_ltb_trans key_ltb_connected l1 l2).
Qed.

Section BatchFacts.

Variables Page Image : Type.
Variable db : ucd.
Variable fl : flavour.
Variable w : collaborators Page Image.

Let file_of (pdf : path) : str := basename fl (path_str fl pdf).

Lemma code_process_pdf_file pdf_path log result :
  Code.process_pdf db fl w pdf_path = (log, Return result) ->
  Code.file result = basename fl pdf_path.
Proof.
  unfold Code.process_pdf, io_bind, lift, io_ret.
  destruct (extract_text_pdf w pdf_path) as [l [text|e]]; [|discriminate].
  destruct (Code.extract_client_info db text) as [info|e]; [|discriminate].
  simpl. intros H. injection H as _ <-. reflexivity.
Qed.

Lemma code_process_all_files pdf_files : forall acc log results,
    Code.process_all db fl w pdf_files acc = (log, Return results) ->
    map Code.file results = map Code.file acc ++ map file_of pdf_files.
Proof.
  induction pdf_files as [|pdf pdf_files IH]; intros acc log results; simpl.
  - unfold io_ret. intros H. injection H as _ <-. now rewrite app_nil_r.
  - unfold io_bind at 1.
    destruct (Code.process_pdf db fl w (path_str fl pdf))
      as [l [result|e]] eqn:E; [|discriminate].
    destruct (Code.process_all db fl w pdf_files (acc ++ [result]))
      as [l' r'] eqn:E'.
    intros H. injection H as _ ->.
    rewrite (IH _ _ _ E'), map_app. simpl.
    rewrite (code_process_pdf_file _ E). now rewrite <- app_assoc.
Qed.

Lemma code_main_files d log results :
  Code.main db fl w d = (log, Return results) ->
  map Code.file results = map file_of (sorted (path_ltb fl) (pdf_glob d)).
Proof.
  unfold Code.main.
  destruct (negb (dir_exists d)); [discriminate|].
  destruct (sorted (path_ltb fl) (pdf_glob d)) as [|pdf l] eqn:E;
    [discriminate|].
  intros H. now rewrite (code_process_all_files _ _ H).
Qed.

Lemma ordonnance_process_pdf_file pdf_path log result :
  Ordonnance.process_pdf db fl w pdf_path = (log, Return result) ->
  Ordonnance.file result = basename fl pdf_path.
Proof.
  unfold Ordonnance.process_pdf, io_bind, lift, io_ret.
  destruct (extract_text_pdf w pdf_path) as [l [text|e]]; [|discriminate].
  destruct (Ordonnance.parse_ordonnance db text) as [data|e]; [|discriminate].
  simpl. intros H. injection H as _ <-. reflexivity.
Qed.

Lemma ordonnance_process_all_files pdf_files : forall acc log results,
    Ordonnance.process_all db fl w pdf_files acc = (log, Return results) ->
    map Ordonnance.file results
    = map Ordonnance.file acc ++ map file_of pdf_files.
Proof.
  induction pdf_files as [|pdf pdf_files IH]; intros acc log results; simpl.
  - unfold io_ret. intros H. injection H as _ <-. now rewrite app_nil_r.
  - unfold io_bind at 1.
    destruct (Ordonnance.process_pdf db fl w (path_str fl pdf))
      as [l [result|e]] eqn:E; [|discriminate].
    destruct (Ordonnance.process_all db fl w pdf_files (acc ++ [result]))
      as [l' r'] eqn:E'.
    intros H. injection H as _ ->.
    rewrite (IH _ _ _ E'), map_app. simpl.
    rewrite (ordonnance_process_pdf_file _ E). now rewrite <- app_assoc.
Qed.

Lemma ordonnance_main_files d log results :
  Ordonnance.main db fl w d = (log, Return results) ->
  map Ordonnance.file results
  = map file_of (sorted (path_ltb fl) (pdf_glob d)).
Proof.
  unfold Ordonnance.main.
  destruct (negb (dir_exists d)); [discriminate|].
  destruct (sorted (path_ltb fl) (pdf_glob d)) as [|pdf l] eqn:E;
    [discriminate|].
  intros H. now rewrite (ordonnance_process_all_files _ _ H).
Qed.

End BatchFacts.

(** ** The matcher *)

Section EngineFacts.

Variable db : ucd.
Variable ic : bool.

Lemma within_step hi n :
  may_take hi = true -> within (one_less hi) n -> within hi (S n).
Proof.
  destruct hi as [[|m]|]; simpl; try discriminate; intros; lia.
Qed.

Lemma within_zero hi : within hi 0.
Proof. destruct hi; simpl; [lia | exact I]. Qed.

Section Repeats.

Variable R : Type.
Variable a : atom.
Variable k : option char -> str -> option R.

Let ok (x : char) : Prop := atom_ok db ic a x = true.
Let repeated := repeated db ic a k.

Lemma repeated_stop lo hi prev rest res :
  match lo with O => k prev rest | S _ => None end = Some res ->
  repeated lo hi rest res.
Proof.
  destruct lo; [|discriminate]. intros H.
  exists [], rest, prev. repeat split; auto using within_zero.
Qed.

Lemma repeated_more lo hi x xs res :
  ok x -> may_take hi = true ->
  repeated (pred lo) (one_less hi) xs res -> repeated lo hi (x :: xs) res.
Proof.
  intros Hx Ht (w & rest' & prev' & -> & Hw & Hlo & Hhi & Hk).
  exists (x :: w), rest', prev'. simpl. repeat split; auto.
  - lia.
  - now apply within_step.
Qed.

Lemma repeat_max_sound rest : forall lo hi prev res,
    repeat_max db ic a lo hi prev rest k = Some res -> repeated lo hi rest res.
Proof.
  induction rest as [|x xs IH]; intros lo hi prev res; simpl.
  - apply repeated_stop.
  - destruct (atom_ok db ic a x && may_take hi) eqn:E;
      [|apply repeated_stop].
    apply andb_true_iff in E. destruct E as [Hx Ht].
    destruct (repeat_max db ic a (pred lo) (one_less hi) (Some x) xs k)
      as [r|] eqn:Er.
    + intros H. injection H as <-.
      apply repeated_more; auto. eapply IH, Er.
    + apply repeated_stop.
Qed.

Lemma repeat_min_sound rest : forall lo hi prev res,
    repeat_min db ic a lo hi prev rest k = Some res -> repeated lo hi rest res.
Proof.
  induction rest as [|x xs IH]; intros lo hi prev res; simpl.
  - destruct lo; [|discriminate].
    destruct (k prev []) eqn:E; [|discriminate].
    intros H. injection H as <-. now apply (repeated_stop 0 hi prev).
  - destruct lo as [|lo'].
    + destruct (k prev (x :: xs)) eqn:E.
      * intros H. injection H as <-. now apply (repeated_stop 0 hi prev).
      * destruct (atom_ok db ic a x && may_take hi) eqn:E'; [|discriminate].
        apply andb_true_iff in E'. destruct E' as [Hx Ht].
        intros H. apply repeated_more; auto. eapply IH, H.
    + destruct (atom_ok db ic a x && may_take hi) eqn:E'; [|discriminate].
      apply andb_true_iff in E'. destruct E' as [Hx Ht].
      intros H. apply repeated_more; auto. eapply IH, H.
Qed.

End Repeats.

Lemma firstn_consumed (w rest' : str) :
  firstn (length (w ++ rest') - length rest') (w ++ rest') = w.
Proof.
  rewrite length_app, Nat.add_sub.
  rewrite firstn_app, Nat.sub_diag, firstn_all. simpl. apply app_nil_r.
Qed.

(** Soundness of the matcher: what it accepts is a match. *)
Lemma run_sound (R : Type) (r : regex) :
  forall prev rest g (k : option char -> str -> groups -> option R) res,
    run db ic r prev rest g k = Some res ->
    exists w rest' prev' g',
      rest = w ++ rest' /\ Matches db ic r w g g' /\ k prev' rest' g' = Some res.
Proof.
  induction r as [|a|r1 IH1 r2 IH2|r1 IH1 r2 IH2|lo hi a|lo hi a|r1 IH1|n r1 IH1|];
    intros prev rest g k res; simpl.
  - intros H. exists [], rest, prev, g. auto.
  - destruct rest as [|x xs]; [discriminate|].
    destruct (atom_ok db ic a x) eqn:E; [|discriminate].
    intros H. exists [x], xs, (Some x), g. repeat split; eauto.
  - intros H. apply IH1 in H. destruct H as (w1 & s1 & p1 & g1 & -> & M1 & H).
    apply IH2 in H. destruct H as (w2 & s2 & p2 & g2 & -> & M2 & H).
    exists (w1 ++ w2), s2, p2, g2. rewrite app_assoc. repeat split; auto.
    exists w1, w2, g1. auto.
  - destruct (run db ic r1 prev rest g k) as [res1|] eqn:E.
    + intros H. injection H as <-. apply IH1 in E.
      destruct E as (w & s & p & g' & -> & M & H).
      exists w, s, p, g'. auto.
    + intros H. apply IH2 in H. destruct H as (w & s & p & g' & -> & M & H).
      exists w, s, p, g'. auto.
  - intros H. apply repeat_max_sound in H.
    destruct H as (w & s & p & -> & Hw & Hlo & Hhi & H).
    exists w, s, p, g. repeat split; auto.
  - intros H. apply repeat_min_sound in H.
    destruct H as (w & s & p & -> & Hw & Hlo & Hhi & H).
    exists w, s, p, g. repeat split; auto.
  - destruct (run db ic r1 prev rest g k) as [res1|] eqn:E.
    + intros H. injection H as <-. apply IH1 in E.
      destruct E as (w & s & p & g' & -> & M & H).
      exists w, s, p, g'. auto.
    + intros H. exists [], rest, prev, g. auto.
  - intros H. apply IH1 in H. destruct H as (w & s & p & g1 & -> & M & H).
    rewrite firstn_consumed in H.
    exists w, s, p, ((n, w) :: g1). repeat split; auto.
    exists g1. auto.
  - destruct (at_boundary db prev rest); [|discriminate].
    intros H. exists [], rest, prev, g. auto.
Qed.

(** What [re.search] finds is a match of a substring. *)
Lemma search_from_sound r rest : forall prev g,
    search_from db ic r prev rest = Some g ->
    exists before w after,
      rest = before ++ w ++ after /\ Matches db ic r w [] g.
Proof.
  induction rest as [|x xs IH]; intros prev g; simpl; unfold match_here.
  - destruct (run db ic r prev [] [] (fun _ s g0 => Some (g0, s)))
      as [[g0 s]|] eqn:E; [|discriminate].
    intros H. injection H as <-. apply run_sound in E.
    destruct E as (w & s' & p & g' & Hr & M & H). injection H as <- <-.
    exists [], w, s'. auto.
  - destruct (run db ic r prev (x :: xs) [] (fun _ s g0 => Some (g0, s)))
      as [[g0 s]|] eqn:E.
    + intros H. injection H as <-. apply run_sound in E.
      destruct E as (w & s' & p & g' & Hr & M & H). injection H as <- <-.
      exists [], w, s'. auto.
    + intros H. apply IH in H. destruct H as (b & w & a & -> & M).
      exists (x :: b), w, a. auto.
Qed.

Lemma re_search_sound r s g :
  re_search db ic r s = Some g ->
  exists before w after, s = before ++ w ++ after /\ Matches db ic r w [] g.
Proof. apply search_from_sound. Qed.

End EngineFacts.

Unset Implicit Arguments.

Section MatchFacts.

Variable db : ucd.
Variable ic : bool.

(** A pattern leaves alone the groups it does not mention. *)
Lemma unmentioned_group r n : forall w g g',
    mentions r n = false -> Matches db ic r w g g' -> group g' n = group g n.
Proof.
  induction r as [|a|r1 IH1 r2 IH2|r1 IH1 r2 IH2|lo hi a|lo hi a|r1 IH1|m r1 IH1|];
    intros w g g'; simpl.
  - now intros _ [_ ->].
  - now intros _ (x & _ & _ & ->).
  - intros Hm (w1 & w2 & g1 & _ & M1 & M2).
    apply orb_false_iff in Hm. destruct Hm as [H1 H2].
    rewrite (IH2 _ _ _ H2 M2). now apply (IH1 w1).
  - intros Hm. apply orb_false_iff in Hm. destruct Hm as [H1 H2].
    intros [M|M]; [now apply (IH1 w) | now apply (IH2 w)].
  - now intros _ (_ & _ & _ & ->).
  - now intros _ (_ & _ & _ & ->).
  - intros Hm [M|[_ ->]]; [now apply (IH1 w) | reflexivity].
  - intros Hm (g1 & M & ->).
    apply orb_false_iff in Hm. destruct Hm as [H1 H2].
    simpl. rewrite H1. now apply (IH1 w).
  - now intros _ [_ ->].
Qed.

(** The group of a pattern holds a match of its sub-pattern. *)
Lemma capture_sound r n : forall c w g g',
    capture r n = Some c -> Matches db ic r w g g' ->
    exists v ga gb, group g' n = Some v /\ Matches db ic c v ga gb.
Proof.
  induction r as [|a|r1 IH1 r2 IH2|r1 IH1 r2 IH2|lo hi a|lo hi a|r1 IH1|m r1 IH1|];
    intros c w g g'; simpl; try discriminate.
  - intros Hc (w1 & w2 & g1 & _ & M1 & M2).
    destruct (mentions r2 n) eqn:E2.
    + destruct (mentions r1 n); [discriminate|]. now apply (IH2 c w2 g1).
    + rewrite (unmentioned_group r2 n w2 g1 g' E2 M2). now apply (IH1 c w1 g).
  - intros Hc (g1 & M & ->). simpl.
    destruct (Nat.eqb m n) eqn:E.
    + destruct (mentions r1 n); [discriminate|].
      injection Hc as <-. exists w, g, g1. auto.
    + now apply (IH1 c w g).
Qed.

Lemma Matches_literals s : forall w g g',
    Matches db ic (literals s) w g g' ->
    Forall2 (fun x c => literal_ok db ic c x = true) w s /\ g' = g.
Proof.
  induction s as [|c s IH]; intros w g g'; unfold literals; simpl.
  - intros [-> ->]. split; [constructor | reflexivity].
  - intros (w1 & w2 & g1 & -> & (x & -> & Hx & ->) & M).
    apply IH in M. destruct M as [M ->].
    split; [now constructor | reflexivity].
Qed.

Lemma Matches_branch_of rs : forall w g g',
    rs <> [] -> Matches db ic (branch_of rs) w g g' ->
    exists r, In r rs /\ Matches db ic r w g g'.
Proof.
  induction rs as [|r rs IH]; intros w g g' Hne; [congruence|].
  destruct rs as [|r' rs].
  - simpl. intros M. exists r. auto.
  - change (branch_of (r :: r' :: rs)) with (BRANCH r (branch_of (r' :: rs))).
    simpl Matches. intros [M|M].
    + exists r. split; [now left | exact M].
    + apply IH in M; [|discriminate]. destruct M as (r0 & Hin & M).
      exists r0. split; [now right | exact M].
Qed.

Lemma mem_In c l : mem c l = true <-> In c l.
Proof.
  induction l as [|x l IH]; simpl; [split; [discriminate | tauto]|].
  rewrite orb_true_iff, N.eqb_eq, IH. intuition congruence.
Qed.

End MatchFacts.

(** A character accepted for a literal is that letter up to case. *)
Lemma literal_ok_same_letter db c x :
  literal_ok db IGNORECASE c x = true -> same_letter db x c.
Proof.
  unfold literal_ok, same_letter, IGNORECASE.
  destruct (iscased db c); cbn [andb].
  - intros H. now apply mem_In in H.
  - intros H. apply N.eqb_eq in H. subst x. now left.
Qed.

(** ** Stripping and substitution *)


Lemma lstrip_split s : exists a, s = a ++ lstrip s /\ blank a.
Proof.
  induction s as [|c s (a & Ha & Hb)]; simpl.
  - exists []. split; [reflexivity | constructor].
  - destruct (isspace c) eqn:E.
    + exists (c :: a). split; [simpl; congruence | now constructor].
    + exists []. split; [reflexivity | constructor].
Qed.



Lemma blank_rev a : blank a -> blank (rev a).
Proof. apply Forall_rev. Qed.


Lemma rstrip_split s : exists c, s = rstrip s ++ c /\ blank c.
Proof.
  unfold rstrip. destruct (lstrip_split (rev s)) as (a & Ha & Hb).
  exists (rev a). split; [|now apply blank_rev].
  rewrite <- rev_app_distr, <- Ha. now rewrite rev_involutive.
Qed.



Lemma strip_split s : exists a c, s = a ++ strip s ++ c /\ blank a /\ blank c.
Proof.
  destruct (lstrip_split s) as (a & Ha & Hb).
  destruct (rstrip_split (lstrip s)) as (c & Hc & Hd).
  exists a, c. unfold strip. rewrite <- Hc. auto.
Qed.



Lemma lstrip_head x s : isspace x = false -> lstrip (x :: s) = x :: s.
Proof. intros H. simpl. now rewrite H. Qed.

(** A string that neither starts nor ends with white space is its own
    strip. *)
Lemma strip_id x s y :
  isspace x = false -> isspace y = false ->
  last (x :: s) x = y -> strip (x :: s) = x :: s.
Proof.
  intros Hx Hy Hl. unfold strip. rewrite lstrip_head by exact Hx.
  unfold rstrip.
  assert (Hr : exists t, rev (x :: s) = y :: t).
  { destruct (exists_last (l := x :: s)) as (t & z & E); [discriminate|].
    rewrite E in Hl. rewrite last_last in Hl. subst z.
    exists (rev t). rewrite E, rev_app_distr. reflexivity. }
  destruct Hr as (t & Hr). rewrite Hr, lstrip_head by exact Hy.
  now rewrite <- Hr, rev_involutive.
Qed.

Section SubstitutionFacts.

Variable db : ucd.

(** Substituting the empty string for a one-character pattern filters the
    string. *)
Lemma sub_atom_filter a s : forall fuel prev,
    length s < fuel ->
    sub_from db false fuel (ATOM a) [] prev s
    = filter (fun c => negb (atom_ok db false a c)) s.
Proof.
  induction s as [|x s IH]; intros fuel prev Hf;
    (destruct fuel as [|fuel]; [inversion Hf|]); [reflexivity|].
  simpl in Hf. simpl.
  destruct (atom_ok db false a x); simpl.
  - assert (E : (length s <? S (length s)) = true) by (apply Nat.ltb_lt; lia).
    rewrite E. apply IH. lia.
  - f_equal. apply IH. lia.
Qed.

Lemma re_sub_atom_filter a s :
  re_sub db false (ATOM a) [] s
  = filter (fun c => negb (atom_ok db false a c)) s.
Proof. unfold re_sub. apply sub_atom_filter. lia. Qed.

Lemma re_sub_not_digit s :
  re_sub db false NOT_DIGIT_RE [] s = filter (isdecimal db) s.
Proof.
  unfold NOT_DIGIT_RE. rewrite re_sub_atom_filter.
  apply filter_ext. intros c.
  cbn [atom_ok existsb item_ok category_ok].
  now destruct (isdecimal db c).
Qed.

Lemma re_sub_not_digit_or_space s :
  re_sub db false NOT_DIGIT_OR_SPACE_RE [] s = filter digit_or_space s.
Proof.
  unfold NOT_DIGIT_OR_SPACE_RE. rewrite re_sub_atom_filter.
  apply filter_ext. intros c.
  unfold digit_or_space, ascii_digit, between.
  cbn [atom_ok existsb item_ok].
  now destruct ((chr "0" <=? c)%N && (c <=? chr "9")%N), (c =? chr " ")%N.
Qed.

End SubstitutionFacts.

(** ** The client extractor *)

Lemma concat_pairs d : concat (pairs d) = d.
Proof.
  assert (H : forall n d, length d <= n -> concat (pairs d) = d).
  { induction n as [|n IH]; intros [|a [|b d']] Hl; simpl in *;
      try reflexivity; try lia.
    rewrite IH by lia. reflexivity. }
  now apply (H (length d)).
Qed.

(** The comprehension of [format_number_2digit_groups] cuts what follows
    the first character into pairs. *)
Lemma slices_pairs n : forall rest pre fuel,
    length rest <= n -> length rest <= fuel ->
    map (fun i => slice (pre ++ rest) i (i + 2))
        (range_from fuel (length pre) (length pre + length rest) 2)
    = pairs rest.
Proof.
  induction n as [|n IH]; intros [|a [|b rest]] pre fuel Hn Hf;
    simpl in Hn, Hf; try lia.
  - destruct fuel; simpl; [reflexivity|].
    rewrite Nat.add_0_r, Nat.ltb_irrefl. reflexivity.
  - destruct fuel; simpl; [reflexivity|].
    rewrite Nat.add_0_r, Nat.ltb_irrefl. reflexivity.
  - destruct fuel as [|fuel]; [lia|]. simpl.
    assert (E : (length pre <? length pre + 1) = true)
      by (apply Nat.ltb_lt; lia).
    rewrite E. simpl. f_equal.
    + unfold slice. replace (length pre + 2 - length pre) with 2 by lia.
      rewrite skipn_app, Nat.sub_diag, skipn_all. reflexivity.
    + destruct fuel; [reflexivity|]. simpl.
      assert (E' : (length pre + 2 <? length pre + 1) = false)
        by (apply Nat.ltb_ge; lia).
      now rewrite E'.
  - destruct fuel as [|fuel]; [lia|]. simpl.
    assert (E : (length pre <? length pre + S (S (length rest))) = true)
      by (apply Nat.ltb_lt; lia).
    rewrite E. simpl. f_equal.
    + unfold slice. replace (length pre + 2 - length pre) with 2 by lia.
      rewrite skipn_app, Nat.sub_diag, skipn_all. reflexivity.
    + specialize (IH rest (pre ++ [a; b]) fuel).
      rewrite length_app in IH. simpl in IH.
      rewrite <- app_assoc in IH. simpl in IH.
      replace (length pre + 2 + length rest)
        with (length pre + S (S (length rest))) in IH by lia.
      apply IH; lia.
Qed.

Lemma format_number_first_then_pairs first rest :
  Code.format_number_2digit_groups (first :: rest)
  = Return (join (u " ") (first_then_pairs (first :: rest))).
Proof.
  pose proof (slices_pairs (length rest) rest [first] (length (first :: rest)))
    as E.
  cbn [length] in E.
  change ([first] ++ rest) with (first :: rest) in E.
  change (1 + length rest) with (S (length rest)) in E.
  unfold Code.format_number_2digit_groups, index, py_range.
  cbn [nth_error bind length first_then_pairs].
  rewrite E by lia. reflexivity.
Qed.

Lemma first_then_pairs_fifteen d :
  length d = 15 ->
  length (first_then_pairs d) = 8
  /\ map (@length char) (first_then_pairs d) = [1; 2; 2; 2; 2; 2; 2; 2]
  /\ concat (first_then_pairs d) = d.
Proof.
  intros H.
  do 16 (destruct d as [|? d]; try discriminate H).
  repeat split.
Qed.

Section CaptureFacts.

Variable db : ucd.

(** When the pattern has a group that every match goes through, the
    [m.group(n).method() if m else None] idiom never raises. *)
Lemma group_then_captured f r n c s :
  capture r n = Some c ->
  group_then f (re_search db IGNORECASE r s) n
  = Return (option_map f (captured (re_search db IGNORECASE r s) n))
  /\ (re_search db IGNORECASE r s <> None ->
      exists v ga gb,
        captured (re_search db IGNORECASE r s) n = Some v
        /\ Matches db IGNORECASE c v ga gb).
Proof.
  intros Hc.
  destruct (re_search db IGNORECASE r s) as [mo|] eqn:E; simpl;
    [|split; [reflexivity | congruence]].
  apply re_search_sound in E. destruct E as (b & w & a & _ & M).
  destruct (capture_sound db IGNORECASE r n c w [] mo Hc M)
    as (v & ga & gb & Hg & Mc).
  rewrite Hg. split; [reflexivity|]. intros _. exists v, ga, gb. auto.
Qed.

Lemma capture_number : capture NUMBER_RE 1 = Some NUMBER_GROUP.
Proof. vm_compute. reflexivity. Qed.

Lemma capture_name :
  capture NAME_RE 1 = Some (MAX_REPEAT 1 MAXREPEAT (NOT_LITERAL 10%N)).
Proof. vm_compute. reflexivity. Qed.

(** [extract_client_info], one case after the other. *)
Lemma extract_client_info_with_eq formatter text :
  Code.extract_client_info_with db formatter text
  = let client_name := option_map strip (name_span db text) in
    match option_map strip (number_span db text) with
    | Some ((_ :: _) as number) =>
      let digits := filter (isdecimal db) number in
      if 15 <=? length digits
      then formatted <- formatter (firstn 15 digits) ;;
           Return (client_name, Some formatted)
      else Return (client_name, Some (strip (filter digit_or_space number)))
    | other => Return (client_name, other)
    end.
Proof.
  unfold Code.extract_client_info_with, number_span, name_span,
    number_match, name_match.
  destruct (group_then_captured strip NUMBER_RE 1 NUMBER_GROUP
              (normalize_spaces db text) capture_number) as [-> _].
  destruct (group_then_captured strip NAME_RE 1 _ text capture_name) as [E _].
  cbv zeta. cbn [bind].
  destruct (option_map strip
              (captured (re_search db IGNORECASE NUMBER_RE
                                   (normalize_spaces db text)) 1))
    as [[|c number]|].
  - cbn [bind]. rewrite E. reflexivity.
  - rewrite re_sub_not_digit, re_sub_not_digit_or_space.
    destruct (15 <=? length (filter (isdecimal db) (c :: number))).
    + destruct (formatter _); cbn [bind]; [|reflexivity].
      rewrite E. reflexivity.
    + cbn [bind]. rewrite E. reflexivity.
  - cbn [bind]. rewrite E. reflexivity.
Qed.

End CaptureFacts.

(** ** Character data *)

Lemma latin_ok : ucd_ok latin.
Proof.
  split; try reflexivity.
  intros c H. apply mem_In in H. unfold whitespace in H. simpl in H.
  repeat (destruct H as [<-|H]; [reflexivity|]). contradiction.
Qed.

Lemma char_range_bounds lo hi c :
  In c (char_range lo hi) -> (lo <= c <= hi)%N.
Proof.
  unfold char_range. rewrite in_map_iff. intros (n & <- & Hn).
  apply in_seq in Hn. lia.
Qed.

Lemma existsb_ext_in (A : Type) (f g : A -> bool) l :
  (forall x, In x l -> f x = g x) -> existsb f l = existsb g l.
Proof.
  induction l as [|x l IH]; intros H; simpl; [reflexivity|].
  rewrite (H x) by now left. rewrite IH; [reflexivity|].
  intros y Hy. apply H. now right.
Qed.

Lemma flat_map_ext_in (A B : Type) (f g : A -> list B) l :
  (forall x, In x l -> f x = g x) -> flat_map f l = flat_map g l.
Proof.
  induction l as [|x l IH]; intros H; simpl; [reflexivity|].
  rewrite (H x) by now left. rewrite IH; [reflexivity|].
  intros y Hy. apply H. now right.
Qed.

Section AsciiFacts.

Variable db : ucd.
Hypothesis ok : ucd_ok db.

Lemma iscased_ascii c : (c < 128)%N -> iscased db c = iscased latin c.
Proof.
  intros H. unfold iscased.
  now rewrite (tolower_ascii ok H), (toupper_ascii ok H).
Qed.

Lemma item_hascased_ascii it :
  ascii_item it = true -> item_hascased db it = item_hascased latin it.
Proof.
  destruct it as [a|lo hi|k]; simpl; intros H; [| |reflexivity].
  - apply N.ltb_lt in H. now apply iscased_ascii.
  - apply N.ltb_lt in H. apply existsb_ext_in. intros x Hx.
    apply char_range_bounds in Hx. apply iscased_ascii. lia.
Qed.

Lemma item_charmap_ascii it :
  ascii_item it = true -> item_charmap db it = item_charmap latin it.
Proof.
  destruct it as [a|lo hi|k]; simpl; intros H; [| |reflexivity].
  - apply N.ltb_lt in H. now rewrite (tolower_ascii ok H).
  - apply N.ltb_lt in H. apply flat_map_ext_in. intros x Hx.
    apply char_range_bounds in Hx.
    rewrite (tolower_ascii ok (c := x)) by lia. reflexivity.
Qed.

(** A set of uncased Basic Latin characters is taken as written, also
    under [IGNORECASE]. *)
Lemma uncased_ascii_set negate items x :
  forallb ascii_item items = true ->
  existsb (item_hascased latin) items = false ->
  forallb (fun it => match it with SET_CATEGORY _ => false | _ => true end)
          items = true ->
  atom_ok db IGNORECASE (IN negate items) x
  = xorb negate (existsb (fun it => mem x (item_charmap latin it)) items).
Proof.
  intros Ha Hc Hk. unfold atom_ok, IGNORECASE.
  assert (E : existsb (item_hascased db) items = false).
  { rewrite <- Hc. apply existsb_ext_in. intros it Hit.
    apply item_hascased_ascii.
    rewrite forallb_forall in Ha. now apply Ha. }
  rewrite E. f_equal. apply existsb_ext_in. intros it Hit.
  rewrite forallb_forall in Ha, Hk.
  specialize (Ha it Hit). specialize (Hk it Hit).
  destruct it as [a|lo hi|k]; try discriminate Hk;
    unfold item_ok_ignore; now rewrite item_charmap_ascii.
Qed.

Lemma number_chars_ok x :
  atom_ok db IGNORECASE NUMBER_CHARS x = true -> In x (u "0123456789 -").
Proof.
  unfold NUMBER_CHARS.
  rewrite uncased_ascii_set by (vm_compute; reflexivity).
  cbn [xorb existsb]. rewrite orb_false_r, !orb_true_iff, !mem_In.
  intros [H|[H|H]]; revert H.
  - change (item_charmap latin (SET_RANGE (chr "0") (chr "9")))
      with (u "0123456789").
    intros H. apply (in_or_app (u "0123456789") (u " -")). now left.
  - change (item_charmap latin (SET_LITERAL (chr " "))) with (u " ").
    intros [<-|[]]. vm_compute. tauto.
  - change (item_charmap latin (SET_LITERAL (chr "-"))) with (u "-").
    intros [<-|[]]. vm_compute. tauto.
Qed.

Lemma first_digit_ok x :
  atom_ok db IGNORECASE (IN false [SET_RANGE (chr "0") (chr "9")]) x = true ->
  In x (u "0123456789").
Proof.
  rewrite uncased_ascii_set by (vm_compute; reflexivity).
  cbn [xorb existsb]. rewrite orb_false_r, mem_In.
  change (item_charmap latin (SET_RANGE (chr "0") (chr "9")))
    with (u "0123456789").
  auto.
Qed.

(** The characters of a captured identifier. *)
Lemma number_group_chars v ga gb :
  Matches db IGNORECASE NUMBER_GROUP v ga gb ->
  Forall (fun x => In x (u "0123456789 -")) v.
Proof.
  unfold NUMBER_GROUP, seq_of. cbn [fold_right Matches].
  intros (w1 & w2 & g1 & -> & (x & -> & Hx & _)
          & (w3 & w4 & g2 & -> & (Hw & _) & (-> & _))).
  apply Forall_app. split.
  - constructor; [|constructor]. apply first_digit_ok in Hx.
    apply (in_or_app (u "0123456789") (u " -")). now left.
  - rewrite app_nil_r. eapply Forall_impl; [|exact Hw].
    intros c. apply number_chars_ok.
Qed.

Lemma isdecimal_number_char x :
  In x (u "0123456789 -") -> isdecimal db x = ascii_digit x.
Proof.
  intros H. rewrite (isdecimal_ascii ok (c := x)).
  - reflexivity.
  - vm_compute in H.
    repeat (destruct H as [<-|H]; [reflexivity|]). contradiction.
Qed.

End AsciiFacts.

(** ** Claims on [extract_client_info] *)

Lemma firstn_fifteen (d : str) :
  15 <= length d -> exists first rest, firstn 15 d = first :: rest.
Proof.
  destruct d as [|first d]; simpl; [lia|]. eauto.
Qed.

Lemma number_span_chars db text g :
  ucd_ok db -> number_span db text = Some g ->
  Forall (fun x => In x (u "0123456789 -")) g.
Proof.
  intros ok Hg. unfold number_span, number_match in Hg.
  destruct (group_then_captured db strip NUMBER_RE 1 NUMBER_GROUP
              (normalize_spaces db text) capture_number) as [_ H].
  destruct H as (v & ga & gb & Hv & M).
  - intros E. rewrite E in Hg. discriminate.
  - rewrite Hv in Hg. injection Hg as <-.
    now apply (number_group_chars db ok v ga gb).
Qed.

Lemma Forall_strip (P : char -> Prop) s : Forall P s -> Forall P (strip s).
Proof.
  destruct (strip_split s) as (a & c & Hs & _). intros H.
  rewrite Hs in H. apply Forall_app in H. destruct H as [_ H].
  apply Forall_app in H. tauto.
Qed.

Lemma Forall_firstn (A : Type) (P : A -> Prop) n l :
  Forall P l -> Forall P (firstn n l).
Proof.
  intros H. rewrite <- (firstn_skipn n l) in H.
  apply Forall_app in H. tauto.
Qed.

Lemma Forall_filter (A : Type) (f : A -> bool) l :
  Forall (fun x => f x = true) (filter f l).
Proof.
  apply Forall_forall. intros x Hx. apply filter_In in Hx. tauto.
Qed.

(** C2. When the digits of the captured identifier are fifteen or more,
    [extract_client_info] keeps the first fifteen and returns them as the
    first digit alone followed by seven pairs, joined by single spaces:
    eight tokens of decimal digits. *)
Theorem identifier_regrouped :
  forall (db : ucd) (text g : str),
    ucd_ok db ->
    number_span db text = Some g ->
    let digits := re_sub db false NOT_DIGIT_RE [] (strip g) in
    15 <= length digits ->
    let tokens := first_then_pairs (firstn 15 digits) in
    Code.extract_client_info db text
    = Return (option_map strip (name_span db text),
              Some (join (u " ") tokens))
    /\ map (@length char) tokens = [1; 2; 2; 2; 2; 2; 2; 2]
    /\ concat tokens = firstn 15 digits
    /\ Forall (fun c => ascii_digit c = true) (firstn 15 digits).
Proof.
  intros db text g ok Hg digits Hlen tokens.
  assert (Hd : digits = filter (isdecimal db) (strip g))
    by apply re_sub_not_digit.
  assert (H15 : length (firstn 15 digits) = 15)
    by (rewrite length_firstn; lia).
  destruct (first_then_pairs_fifteen _ H15) as (_ & Hl & Hc).
  split; [|split; [exact Hl | split; [exact Hc|]]].
  - unfold Code.extract_client_info. rewrite extract_client_info_with_eq.
    rewrite Hg. cbn [option_map]. cbv zeta.
    destruct (strip g) as [|c number] eqn:Es;
      [rewrite Hd in Hlen; simpl in Hlen; lia|].
    rewrite <- Hd. apply Nat.leb_le in Hlen. rewrite Hlen.
    destruct (firstn_fifteen digits) as (first & rest & Ef);
      [now apply Nat.leb_le|].
    subst tokens. rewrite Ef, format_number_first_then_pairs. reflexivity.
  - apply Forall_firstn. rewrite Hd.
    pose proof (Forall_strip _ g (number_span_chars db text g ok Hg)) as Hs.
    apply Forall_forall. intros x Hx. apply filter_In in Hx.
    destruct Hx as [Hin Hx]. rewrite Forall_forall in Hs.
    now rewrite <- (isdecimal_number_char db ok x (Hs x Hin)).
Qed.

(** The eighteen digits of the specification's example. *)
Lemma identifier_regrouped_witness :
  Code.extract_client_info latin (u "Mon numéro : 748012345678901234")
  = Return (None, Some (u "7 48 01 23 45 67 89 01")).
Proof.
  destruct (identifier_regrouped latin
              (u "Mon numéro : 748012345678901234")
              (u "748012345678901234") latin_ok) as [H _].
  - vm_compute. reflexivity.
  - vm_compute. lia.
  - rewrite H. vm_compute. reflexivity.
Defined.




(** C10. [format_number_2digit_groups] fails on the empty string, but
    [extract_client_info] only calls it on strings of exactly fifteen
    decimal digits: replacing it by any function that agrees with it on
    those strings changes nothing, it returns on each of them, and
    [extract_client_info] never raises [IndexError]. *)
Theorem formatter_called_on_fifteen_digits :
  Code.format_number_2digit_groups [] = Raise IndexError
  /\ (forall (db : ucd) (formatter : str -> outcome str) (text : str),
         (forall d,
             length d = 15 -> Forall (fun c => isdecimal db c = true) d ->
             formatter d = Code.format_number_2digit_groups d) ->
         Code.extract_client_info_with db formatter text
         = Code.extract_client_info db text)
  /\ (forall d, length d = 15 ->
                exists s, Code.format_number_2digit_groups d = Return s)
  /\ (forall (db : ucd) (text : str),
         Code.extract_client_info db text <> Raise IndexError).
Proof.
  split; [reflexivity|]. split; [|split].
  - intros db formatter text Hf.
    unfold Code.extract_client_info. rewrite !extract_client_info_with_eq.
    cbv zeta.
    destruct (option_map strip (number_span db text)) as [[|c number]|];
      try reflexivity.
    destruct (15 <=? length (filter (isdecimal db) (c :: number))) eqn:E;
      [|reflexivity].
    apply Nat.leb_le in E. rewrite Hf; [reflexivity| |].
    + rewrite length_firstn. lia.
    + apply Forall_firstn, Forall_filter.
  - intros [|first rest] H; [discriminate|].
    rewrite format_number_first_then_pairs. eauto.
  - intros db text.
    unfold Code.extract_client_info. rewrite extract_client_info_with_eq.
    cbv zeta.
    destruct (option_map strip (number_span db text)) as [[|c number]|];
      try discriminate.
    destruct (15 <=? length (filter (isdecimal db) (c :: number))) eqn:E;
      [|discriminate].
    apply Nat.leb_le in E.
    destruct (firstn_fifteen _ E) as (first & rest & Ef).
    rewrite Ef, format_number_first_then_pairs. discriminate.
Qed.

(** [extract_client_info] always returns; a pattern that does not match
    gives [None]. *)
Lemma extract_client_info_total db text :
  exists name number,
    Code.extract_client_info db text = Return (name, number)
    /\ (name_match db text = None -> name = None)
    /\ (number_match db text = None -> number = None).
Proof.
  unfold Code.extract_client_info. rewrite extract_client_info_with_eq.
  cbv zeta. exists (option_map strip (name_span db text)).
  assert (Hname : name_match db text = None ->
                  option_map strip (name_span db text) = None)
    by (unfold name_span; now intros ->).
  destruct (option_map strip (number_span db text)) as [[|c number]|] eqn:En.
  - eexists. split; [reflexivity|]. split; [exact Hname|].
    unfold number_span in En. intros E. rewrite E in En. discriminate.
  - assert (Hnum : forall x : option str, number_match db text = None -> x = None).
    { unfold number_span in En. intros x E. rewrite E in En. discriminate. }
    destruct (15 <=? length (filter (isdecimal db) (c :: number))) eqn:E.
    + apply Nat.leb_le in E.
      destruct (firstn_fifteen _ E) as (first & rest & Ef).
      rewrite Ef, format_number_first_then_pairs. cbn [bind].
      eexists. split; [reflexivity|]. split; [exact Hname | apply Hnum].
    + eexists. split; [reflexivity|]. split; [exact Hname | apply Hnum].
  - eexists. split; [reflexivity|]. split; [exact Hname | reflexivity].
Qed.

(** ** Claims on [parse_ordonnance] *)

Lemma capture_title : capture PERSON_RE 1 = Some TITLE_GROUP.
Proof. vm_compute. reflexivity. Qed.

Lemma capture_full_name : capture PERSON_RE 2 = Some NAME_GROUP.
Proof. vm_compute. reflexivity. Qed.

Lemma capture_birthdate : capture PERSON_RE 3 = Some DATE_GROUP.
Proof. vm_compute. reflexivity. Qed.

Lemma capture_right : capture (EYE_RE (u "Droit")) 1 = Some VALUE_GROUP.
Proof. vm_compute. reflexivity. Qed.

Lemma capture_left : capture (EYE_RE (u "Gauche")) 1 = Some VALUE_GROUP.
Proof. vm_compute. reflexivity. Qed.

(** [parse_ordonnance], field by field. *)
Lemma parse_ordonnance_eq db text :
  Ordonnance.parse_ordonnance db text
  = Return
      {| Ordonnance.title := option_map strip (captured (person_match db text) 1);
         Ordonnance.full_name :=
           option_map strip (captured (person_match db text) 2);
         Ordonnance.birthdate :=
           option_map strip (captured (person_match db text) 3);
         Ordonnance.eye_right :=
           option_map (replace (chr ",") (chr "."))
                      (captured (od_match db text) 1);
         Ordonnance.eye_left :=
           option_map (replace (chr ",") (chr "."))
                      (captured (og_match db text) 1) |}.
Proof.
  unfold Ordonnance.parse_ordonnance, person_match, od_match, og_match.
  cbv zeta.
  destruct (group_then_captured db strip PERSON_RE 1 _
              (normalize_spaces db text) capture_title) as [-> _].
  destruct (group_then_captured db strip PERSON_RE 2 _
              (normalize_spaces db text) capture_full_name) as [-> _].
  destruct (group_then_captured db strip PERSON_RE 3 _
              (normalize_spaces db text) capture_birthdate) as [-> _].
  destruct (group_then_captured db (replace (chr ",") (chr "."))
              (EYE_RE (u "Droit")) 1 _
              (normalize_spaces db text) capture_right) as [-> _].
  destruct (group_then_captured db (replace (chr ",") (chr "."))
              (EYE_RE (u "Gauche")) 1 _
              (normalize_spaces db text) capture_left) as [-> _].
  reflexivity.
Qed.

(** A person match sets its three groups. *)
Lemma person_groups db text :
  person_match db text <> None ->
  exists t n d,
    captured (person_match db text) 1 = Some t
    /\ captured (person_match db text) 2 = Some n
    /\ captured (person_match db text) 3 = Some d.
Proof.
  intros H. unfold person_match in *.
  destruct (group_then_captured db strip PERSON_RE 1 _
              (normalize_spaces db text) capture_title) as [_ H1].
  destruct (group_then_captured db strip PERSON_RE 2 _
              (normalize_spaces db text) capture_full_name) as [_ H2].
  destruct (group_then_captured db strip PERSON_RE 3 _
              (normalize_spaces db text) capture_birthdate) as [_ H3].
  destruct (H1 H) as (t & _ & _ & Ht & _).
  destruct (H2 H) as (n & _ & _ & Hn & _).
  destruct (H3 H) as (d & _ & _ & Hd & _).
  exists t, n, d. auto.
Qed.

Lemma lstrip_nonspace s : Forall (fun c => isspace c = false) s -> lstrip s = s.
Proof.
  intros [|c l Hc _]; simpl; [reflexivity | now rewrite Hc].
Qed.

Lemma strip_nonspace s : Forall (fun c => isspace c = false) s -> strip s = s.
Proof.
  intros H. unfold strip, rstrip. rewrite (lstrip_nonspace s H).
  rewrite lstrip_nonspace by now apply Forall_rev.
  apply rev_involutive.
Qed.

Lemma same_letter_nonspace db x c :
  ucd_ok db -> plain_letter c = true -> same_letter db x c ->
  isspace x = false.
Proof.
  intros ok Hc Hs. unfold plain_letter in Hc.
  apply andb_true_iff in Hc. destruct Hc as [Hlt Hw].
  apply N.ltb_lt in Hlt.
  destruct (isspace x) eqn:E; [|reflexivity].
  unfold same_letter in Hs.
  rewrite (tolower_space ok x E), (tolower_ascii ok Hlt) in Hs.
  rewrite forallb_forall in Hw. specialize (Hw x Hs).
  rewrite E in Hw. discriminate.
Qed.

Lemma titles_plain : forallb (forallb plain_letter) TITLES = true.
Proof. vm_compute. reflexivity. Qed.

(** What group 1 of the person pattern holds. *)
Lemma title_group_shape db v ga gb :
  Matches db IGNORECASE TITLE_GROUP v ga gb ->
  exists T, In T TITLES /\ equal_ignoring_case db v T.
Proof.
  intros M. unfold TITLE_GROUP in M.
  apply Matches_branch_of in M; [|discriminate].
  destruct M as (r & Hin & M). apply in_map_iff in Hin.
  destruct Hin as (T & <- & HT). exists T. split; [exact HT|].
  apply Matches_literals in M. destruct M as [M _].
  unfold equal_ignoring_case. eapply Forall2_impl; [|exact M].
  intros x c. apply literal_ok_same_letter.
Qed.

Lemma equal_ignoring_case_nonspace db v T :
  ucd_ok db -> forallb plain_letter T = true ->
  equal_ignoring_case db v T -> Forall (fun c => isspace c = false) v.
Proof.
  intros ok HT H. induction H as [|x c v T Hx _ IH]; [constructor|].
  simpl in HT. apply andb_true_iff in HT. destruct HT as [Hc HT].
  constructor; [now apply (same_letter_nonspace db x c) | now apply IH].
Qed.

(** C3, as amended. Whenever the person pattern matches, the title is one
    of the five titles of the pattern, Monsieur, Madame, Mlle, M. and
    Enfant, up to case; no input gives another title. *)
Theorem title_among_five :
  forall (db : ucd) (text : str) (r : Ordonnance.fields) (t : str),
    ucd_ok db ->
    Ordonnance.parse_ordonnance db text = Return r ->
    Ordonnance.title r = Some t ->
    exists T, In T TITLES /\ equal_ignoring_case db t T.
Proof.
  intros db text r t ok Hr Ht.
  rewrite parse_ordonnance_eq in Hr. injection Hr as <-. simpl in Ht.
  destruct (group_then_captured db strip PERSON_RE 1 _
              (normalize_spaces db text) capture_title) as [_ H].
  fold (person_match db text) in H.
  destruct (captured (person_match db text) 1) as [v|] eqn:Ev;
    [|discriminate].
  injection Ht as <-.
  destruct H as (v' & ga & gb & Hv & M).
  - intros E. rewrite E in Ev. discriminate.
  - injection Hv as <-. apply title_group_shape in M.
    destruct M as (T & HT & Heq). exists T. split; [exact HT|].
    rewrite strip_nonspace; [exact Heq|].
    apply (equal_ignoring_case_nonspace db v T ok); [|exact Heq].
    pose proof titles_plain as Hp. rewrite forallb_forall in Hp.
    now apply Hp.
Qed.

(** A prescription for a child. *)
Lemma title_among_five_witness :
  exists T,
    In T TITLES /\ equal_ignoring_case latin (u "ENFANT") T.
Proof.
  apply (title_among_five latin (u "ENFANT Paul (01/02/2003)")
           {| Ordonnance.title := Some (u "ENFANT");
              Ordonnance.full_name := Some (u "Paul");
              Ordonnance.birthdate := Some (u "01/02/2003");
              Ordonnance.eye_right := None;
              Ordonnance.eye_left := None |}
           (u "ENFANT") latin_ok).
  - vm_compute. reflexivity.
  - reflexivity.
Defined.

(** C3 as stated fails on the fifth alternative of the pattern: the title
    of a child's prescription is none of the four. *)
Lemma title_among_four_counterexample :
  Ordonnance.parse_ordonnance latin (u "Enfant Paul (01/02/2003)")
  = Return {| Ordonnance.title := Some (u "Enfant");
              Ordonnance.full_name := Some (u "Paul");
              Ordonnance.birthdate := Some (u "01/02/2003");
              Ordonnance.eye_right := None;
              Ordonnance.eye_left := None |}
  /\ ~ (exists T,
           In T FOUR_TITLES /\ equal_ignoring_case latin (u "Enfant") T).
Proof.
  split; [vm_compute; reflexivity|].
  intros (T & HT & Heq). unfold FOUR_TITLES in HT. simpl in HT.
  destruct HT as [<-|[<-|[<-|[<-|[]]]]];
    inversion Heq as [|x c v T' Hx _]; subst;
    vm_compute in Hx; intuition discriminate.
Qed.

(** *** The date a person match needs *)

Ltac flatten_app :=
  repeat first [rewrite <- app_assoc | progress cbn [app]].

Section DateFacts.

Variable db : ucd.
Hypothesis ok : ucd_ok db.

(** A literal of the Basic Latin block without case is matched by
    itself only. *)
Lemma uncased_ascii_literal c x :
  (c < 128)%N -> iscased latin c = false ->
  atom_ok db IGNORECASE (LITERAL c) x = true -> x = c.
Proof.
  intros Hc Hu. cbn [atom_ok]. unfold literal_ok.
  rewrite (iscased_ascii db ok c Hc), Hu, andb_false_r.
  apply N.eqb_eq.
Qed.

Lemma digit_ok x :
  atom_ok db IGNORECASE DIGIT x = true -> isdecimal db x = true.
Proof.
  unfold DIGIT, IGNORECASE.
  cbn [atom_ok existsb item_hascased item_ok_ignore category_ok orb xorb].
  now rewrite orb_false_r.
Qed.

Lemma digits_ok w :
  Forall (fun x => atom_ok db IGNORECASE DIGIT x = true) w ->
  Forall (fun c => isdecimal db c = true) w.
Proof. apply Forall_impl. exact digit_ok. Qed.

(** A match of the person pattern holds a parenthesized date. *)
Lemma person_pattern_date w g g' :
  Matches db IGNORECASE PERSON_RE w g g' -> has_date db w.
Proof.
  unfold PERSON_RE, seq_of. cbn [fold_right Matches].
  intros (w0 & r0 & g0 & -> & _
          & wt & r1 & g1 & -> & _
          & ws & r2 & g2 & -> & _
          & wn & r3 & g3 & -> & _
          & wb & r4 & g4 & -> & _
          & wo & r5 & g5 & -> & (xo & -> & Ho & _)
          & wd & r6 & g6 & -> & (g7 & Md & _)
          & wc & r7 & g8 & -> & (xc & -> & Hc & _) & _).
  destruct Md as (d1 & q1 & h1 & -> & (Hd1 & Hl1 & Hu1 & _)
                  & s1 & q2 & h2 & -> & (y1 & -> & Hy1 & _)
                  & d2 & q3 & h3 & -> & (Hd2 & Hl2 & Hu2 & _)
                  & s2 & q4 & h4 & -> & (y2 & -> & Hy2 & _)
                  & d3 & q5 & h5 & -> & (Hd3 & Hl3 & Hu3 & _) & (-> & _)).
  apply uncased_ascii_literal in Ho, Hc, Hy1, Hy2;
    try (vm_compute; reflexivity).
  subst xo xc y1 y2. simpl in Hu1, Hu2, Hu3.
  exists (w0 ++ wt ++ ws ++ wn ++ wb), d1, d2, d3, r7.
  split; [|repeat split; try lia].
  - flatten_app. reflexivity.
  - apply Forall_app. split; [now apply digits_ok|].
    apply Forall_app. split; now apply digits_ok.
Qed.

End DateFacts.

(** What the normalization keeps: a piece of its result without a space
    is a piece of its subject. *)
Lemma spaced_prefix s o : Spaced s o -> forall m b,
    o = m ++ b -> spaceless m -> exists b', s = m ++ b'.
Proof.
  induction 1 as [s|x s o _ IH|w s o _ IH]; intros m b E Hm.
  - exists b. exact E.
  - destruct m as [|y m]; [exists (x :: s); reflexivity|].
    simpl in E. injection E as <- E.
    inversion Hm; subst. destruct (IH m b eq_refl) as (b' & ->); auto.
    exists b'. reflexivity.
  - destruct m as [|y m]; [exists (w ++ s); reflexivity|].
    simpl in E. injection E as <- E. inversion Hm; subst. congruence.
Qed.

Lemma spaced_infix s o : Spaced s o -> forall a m b,
    o = a ++ m ++ b -> m <> [] -> spaceless m ->
    exists a' b', s = a' ++ m ++ b'.
Proof.
  induction 1 as [s|x s o Hs IH|w s o Hs IH]; intros a m b E Hne Hm.
  - exists a, b. exact E.
  - destruct a as [|z a].
    + destruct (spaced_prefix (x :: s) (x :: o) (@spaced_copy x s o Hs) m b E Hm)
        as (b' & ->).
      exists [], b'. reflexivity.
    + simpl in E. injection E as <- E.
      destruct (IH a m b E Hne Hm) as (a' & b' & ->).
      exists (x :: a'), b'. reflexivity.
  - destruct a as [|z a].
    + destruct m as [|y m]; [congruence|].
      simpl in E. injection E as <- E. inversion Hm; subst. congruence.
    + simpl in E. injection E as <- E.
      destruct (IH a m b E Hne Hm) as (a' & b' & ->).
      exists (w ++ a'), b'. now rewrite <- app_assoc.
Qed.

Lemma replace_spaced a s : Spaced s (replace a (chr " ") s).
Proof.
  induction s as [|x s IH]; simpl; [constructor|].
  destruct (x =? a)%N.
  - exact (@spaced_space [x] s _ IH).
  - now apply spaced_copy.
Qed.

Lemma sub_from_spaced db ic r fuel : forall prev rest,
    Spaced rest (sub_from db ic fuel r (u " ") prev rest).
Proof.
  induction fuel as [|fuel IH]; intros prev rest; simpl; [constructor|].
  destruct (run db ic r prev rest [] (fun p s _ => Some (p, s)))
    as [[p s]|] eqn:E; destruct rest as [|x xs].
  - exact (@spaced_space [] [] [] (spaced_same [])).
  - apply run_sound in E. destruct E as (w & s' & p' & g' & Hr & _ & Hk).
    injection Hk as <- <-.
    destruct (length s' <? length (x :: xs)).
    + rewrite Hr. apply (@spaced_space w s'). apply IH.
    + apply (@spaced_space [] (x :: xs)). apply spaced_copy. apply IH.
  - constructor.
  - apply spaced_copy. apply IH.
Qed.

(** A spaceless piece of the normalized text is a piece of the text. *)
Lemma normalize_spaces_keeps db text a m b :
  normalize_spaces db text = a ++ m ++ b -> m <> [] -> spaceless m ->
  exists a' b', text = a' ++ m ++ b'.
Proof.
  unfold normalize_spaces, re_sub. intros E Hne Hm.
  destruct (spaced_infix _ _ (sub_from_spaced db false BLANKS_RE _ None _)
                         a m b E Hne Hm) as (a1 & b1 & E1).
  exact (spaced_infix _ _ (replace_spaced 160%N text) a1 m b1 E1 Hne Hm).
Qed.

Lemma decimal_not_space db c :
  ucd_ok db -> isdecimal db c = true -> c <> chr " ".
Proof.
  intros ok H ->.
  rewrite (isdecimal_ascii ok (c := chr " ")) in H by (vm_compute; reflexivity).
  discriminate H.
Qed.

(** A date in the normalized text is a date in the text. *)
Lemma has_date_normalized db text :
  ucd_ok db -> has_date db (normalize_spaces db text) -> has_date db text.
Proof.
  intros ok (a & d1 & d2 & d3 & b & E & H1 & H2 & H3 & Hd).
  set (m := chr "(" :: d1 ++ chr "/" :: d2 ++ chr "/" :: d3 ++ [chr ")"]).
  assert (Em : normalize_spaces db text = a ++ m ++ b).
  { rewrite E. unfold m. flatten_app. reflexivity. }
  assert (Hs : forall d, Forall (fun c => isdecimal db c = true) d ->
                         spaceless d).
  { intros d. apply Forall_impl. intros c. now apply decimal_not_space. }
  apply Forall_app in Hd. destruct Hd as [Hd1 Hd].
  apply Forall_app in Hd. destruct Hd as [Hd2 Hd3].
  destruct (normalize_spaces_keeps db text a m b Em) as (a' & b' & E').
  - discriminate.
  - unfold m. constructor; [discriminate|].
    apply Forall_app. split; [now apply Hs|].
    constructor; [discriminate|].
    apply Forall_app. split; [now apply Hs|].
    constructor; [discriminate|].
    apply Forall_app. split; [now apply Hs|].
    constructor; [discriminate | constructor].
  - exists a', d1, d2, d3, b'. repeat split; auto.
    + rewrite E'. unfold m. flatten_app. reflexivity.
    + apply Forall_app. split; [exact Hd1|].
      apply Forall_app. split; assumption.
Qed.

Lemma has_date_app db a w b : has_date db w -> has_date db (a ++ w ++ b).
Proof.
  intros (a0 & d1 & d2 & d3 & b0 & -> & H).
  exists (a ++ a0), d1, d2, d3, (b0 ++ b). split; [|exact H].
  flatten_app. reflexivity.
Qed.

(** Without a parenthesized date in the text there is no person match. *)
Lemma person_match_needs_date db text :
  ucd_ok db -> ~ has_date db text -> person_match db text = None.
Proof.
  intros ok Hn. destruct (person_match db text) as [mo|] eqn:E; [|reflexivity].
  exfalso. apply Hn. unfold person_match in E. apply re_search_sound in E.
  destruct E as (b & w & a & Ht & M).
  apply has_date_normalized; [exact ok|]. rewrite Ht.
  apply has_date_app. exact (person_pattern_date db ok w [] mo M).
Qed.

Lemma has_date_parenthesis db s : has_date db s -> In (chr "(") s.
Proof.
  intros (a & d1 & d2 & d3 & b & -> & _). apply in_or_app. right. now left.
Qed.

(** C4. The three person fields stand or fall together: they are all
    [None] when the person pattern does not match and all set when it
    does; a text without a parenthesized [dd/mm/yyyy] date, such as a bare
    "Madame Dupont", gives none of them. *)
Theorem person_fields_atomic :
  forall (db : ucd) (text : str) (r : Ordonnance.fields),
    ucd_ok db ->
    Ordonnance.parse_ordonnance db text = Return r ->
    ((person_match db text = None
      /\ Ordonnance.title r = None /\ Ordonnance.full_name r = None
      /\ Ordonnance.birthdate r = None)
     \/ (person_match db text <> None
         /\ exists t n d,
             Ordonnance.title r = Some t /\ Ordonnance.full_name r = Some n
             /\ Ordonnance.birthdate r = Some d))
    /\ (~ has_date db text ->
        Ordonnance.title r = None /\ Ordonnance.full_name r = None
        /\ Ordonnance.birthdate r = None).
Proof.
  intros db text r ok Hr.
  rewrite parse_ordonnance_eq in Hr. injection Hr as <-. simpl.
  split.
  - destruct (person_match db text) as [mo|] eqn:E.
    + right. split; [discriminate|].
      destruct (person_groups db text) as (t & n & d & Ht & Hn & Hd);
        [rewrite E; discriminate|].
      rewrite E in Ht, Hn, Hd. simpl in Ht, Hn, Hd. simpl.
      rewrite Ht, Hn, Hd. simpl.
      exists (strip t), (strip n), (strip d). auto.
    + left. simpl. auto.
  - intros Hn. rewrite (person_match_needs_date db text ok Hn).
    simpl. auto.
Qed.

(** The example of the specification, and two texts whose date is not a
    parenthesized [dd/mm/yyyy]. *)
Lemma person_fields_atomic_witness :
  (Ordonnance.title
     {| Ordonnance.title := None; Ordonnance.full_name := None;
        Ordonnance.birthdate := None; Ordonnance.eye_right := None;
        Ordonnance.eye_left := None |} = None
   /\ Ordonnance.parse_ordonnance latin (u "Madame Dupont")
      = Return {| Ordonnance.title := None; Ordonnance.full_name := None;
                  Ordonnance.birthdate := None; Ordonnance.eye_right := None;
                  Ordonnance.eye_left := None |})
  /\ Ordonnance.parse_ordonnance latin (u "Madame Dupont 01/02/1980")
     = Return {| Ordonnance.title := None; Ordonnance.full_name := None;
                 Ordonnance.birthdate := None; Ordonnance.eye_right := None;
                 Ordonnance.eye_left := None |}
  /\ Ordonnance.parse_ordonnance latin (u "Madame Dupont (1/2/1980)")
     = Return {| Ordonnance.title := None; Ordonnance.full_name := None;
                 Ordonnance.birthdate := None; Ordonnance.eye_right := None;
                 Ordonnance.eye_left := None |}.
Proof.
  assert (E : Ordonnance.parse_ordonnance latin (u "Madame Dupont")
              = Return {| Ordonnance.title := None;
                          Ordonnance.full_name := None;
                          Ordonnance.birthdate := None;
                          Ordonnance.eye_right := None;
                          Ordonnance.eye_left := None |})
    by (vm_compute; reflexivity).
  split; [split; [|exact E] | split; vm_compute; reflexivity].
  destruct (person_fields_atomic latin (u "Madame Dupont") _ latin_ok E)
    as [_ H].
  apply H. intros Hd. apply has_date_parenthesis in Hd.
  vm_compute in Hd. intuition discriminate.
Defined.

(** C5. Each eye value is the captured number with its commas turned into
    dots, and [None] when its pattern does not match; ["-1,25"] is stored
    as ["-1.25"] and ["+0.50"] as it is. *)
Theorem eye_values_normalized :
  forall (db : ucd) (text : str) (r : Ordonnance.fields),
    Ordonnance.parse_ordonnance db text = Return r ->
    Ordonnance.eye_right r
    = option_map (replace (chr ",") (chr ".")) (captured (od_match db text) 1)
    /\ Ordonnance.eye_left r
       = option_map (replace (chr ",") (chr ".")) (captured (og_match db text) 1)
    /\ (od_match db text = None -> Ordonnance.eye_right r = None)
    /\ (og_match db text = None -> Ordonnance.eye_left r = None)
    /\ (forall v,
           Ordonnance.eye_right r = Some v \/ Ordonnance.eye_left r = Some v ->
           ~ In (chr ",") v)
    /\ replace (chr ",") (chr ".") (u "-1,25") = u "-1.25"
    /\ replace (chr ",") (chr ".") (u "+0.50") = u "+0.50".
Proof.
  intros db text r Hr.
  rewrite parse_ordonnance_eq in Hr. injection Hr as <-. simpl.
  repeat split.
  - now intros ->.
  - now intros ->.
  - assert (Hrep : forall s, ~ In (chr ",") (replace (chr ",") (chr ".") s)).
    { intros s H. unfold replace in H. apply in_map_iff in H.
      destruct H as (x & Hx & _).
      destruct (x =? chr ",")%N eqn:E; [discriminate Hx|].
      apply N.eqb_neq in E. congruence. }
    intros v [H|H];
      [destruct (captured (od_match db text) 1)
      |destruct (captured (og_match db text) 1)];
      try discriminate; injection H as <-; apply Hrep.
Qed.

(** A prescription with a comma in one value and a dot in the other. *)
Lemma eye_values_normalized_witness :
  Ordonnance.parse_ordonnance
    latin (u "Oeil Droit : -1,25  Œil Gauche : +0.50")
  = Return {| Ordonnance.title := None; Ordonnance.full_name := None;
              Ordonnance.birthdate := None;
              Ordonnance.eye_right := Some (u "-1.25");
              Ordonnance.eye_left := Some (u "+0.50") |}
  /\ Some (u "-1.25")
     = option_map (replace (chr ",") (chr "."))
         (captured
            (od_match latin (u "Oeil Droit : -1,25  Œil Gauche : +0.50")) 1).
Proof.
  assert (E : Ordonnance.parse_ordonnance
                latin (u "Oeil Droit : -1,25  Œil Gauche : +0.50")
              = Return {| Ordonnance.title := None;
                          Ordonnance.full_name := None;
                          Ordonnance.birthdate := None;
                          Ordonnance.eye_right := Some (u "-1.25");
                          Ordonnance.eye_left := Some (u "+0.50") |})
    by (vm_compute; reflexivity).
  split; [exact E|].
  exact (proj1 (eye_values_normalized latin _ _ E)).
Defined.

(** C7. Both extractors return on every text, and a pattern that does not
    match leaves its fields [None]. *)
Theorem extractors_total :
  forall (db : ucd) (text : str),
    (exists name number,
        Code.extract_client_info db text = Return (name, number)
        /\ (name_match db text = None -> name = None)
        /\ (number_match db text = None -> number = None))
    /\ (exists r,
           Ordonnance.parse_ordonnance db text = Return r
           /\ (person_match db text = None ->
               Ordonnance.title r = None /\ Ordonnance.full_name r = None
               /\ Ordonnance.birthdate r = None)
           /\ (od_match db text = None -> Ordonnance.eye_right r = None)
           /\ (og_match db text = None -> Ordonnance.eye_left r = None)).
Proof.
  intros db text. split; [apply extract_client_info_total|].
  eexists. split; [apply parse_ordonnance_eq|]. simpl.
  split; [|split].
  - intros ->. simpl. auto.
  - now intros ->.
  - now intros ->.
Qed.

(** ** Order of the records *)

Section ReturnFacts.

Variables Page Image : Type.
Variable db : ucd.
Variable fl : flavour.
Variable w : collaborators Page Image.

(** The text of a document can be acquired. *)
Let acquired (pdf : path) : Prop :=
  exists log text, extract_text_pdf w (path_str fl pdf) = (log, Return text).

Lemma code_process_pdf_returns pdf :
  acquired pdf ->
  exists log result,
    Code.process_pdf db fl w (path_str fl pdf) = (log, Return result).
Proof.
  intros (log & text & H). unfold Code.process_pdf. rewrite H.
  destruct (extract_client_info_total db text) as (name & number & E & _).
  unfold io_bind, lift, io_ret. rewrite E. eauto.
Qed.

Lemma ordonnance_process_pdf_returns pdf :
  acquired pdf ->
  exists log result,
    Ordonnance.process_pdf db fl w (path_str fl pdf) = (log, Return result).
Proof.
  intros (log & text & H). unfold Ordonnance.process_pdf. rewrite H.
  unfold io_bind, lift, io_ret. rewrite parse_ordonnance_eq. eauto.
Qed.

Lemma code_process_all_returns pdf_files : forall acc,
    Forall acquired pdf_files ->
    exists log results,
      Code.process_all db fl w pdf_files acc = (log, Return results).
Proof.
  induction pdf_files as [|pdf pdf_files IH]; intros acc H;
    inversion H as [|? ? Hp Hps]; subst; cbn [Code.process_all].
  - unfold io_ret. eauto.
  - destruct (code_process_pdf_returns pdf Hp) as (l & result & ->).
    destruct (IH (acc ++ [result]) Hps) as (l' & results & E).
    unfold io_bind. rewrite E. eauto.
Qed.

Lemma ordonnance_process_all_returns pdf_files : forall acc,
    Forall acquired pdf_files ->
    exists log results,
      Ordonnance.process_all db fl w pdf_files acc = (log, Return results).
Proof.
  induction pdf_files as [|pdf pdf_files IH]; intros acc H;
    inversion H as [|? ? Hp Hps]; subst; cbn [Ordonnance.process_all].
  - unfold io_ret. eauto.
  - destruct (ordonnance_process_pdf_returns pdf Hp) as (l & result & ->).
    destruct (IH (acc ++ [result]) Hps) as (l' & results & E).
    unfold io_bind. rewrite E. eauto.
Qed.

Lemma main_returns (d : directory) :
  dir_exists d = true -> pdf_glob d <> [] ->
  Forall acquired (pdf_glob d) ->
  (exists log results, Code.main db fl w d = (log, Return results))
  /\ (exists log results, Ordonnance.main db fl w d = (log, Return results)).
Proof.
  intros He Hne Ha.
  pose proof (@sorted_perm _ _ (path_key fl) key_ltb (pdf_glob d)) as Hp.
  fold (path_ltb fl) in Hp.
  assert (Hs : Forall acquired (sorted (path_ltb fl) (pdf_glob d)))
    by (apply (Permutation_Forall (Permutation_sym Hp)); exact Ha).
  assert (Hn : sorted (path_ltb fl) (pdf_glob d) <> []).
  { intros E. rewrite E in Hp. apply Permutation_nil in Hp. congruence. }
  unfold Code.main, Ordonnance.main. rewrite He. cbn [negb].
  destruct (sorted (path_ltb fl) (pdf_glob d)) as [|pdf l]; [congruence|].
  split.
  - apply code_process_all_returns. exact Hs.
  - apply ordonnance_process_all_returns. exact Hs.
Qed.

End ReturnFacts.

(** C9. The documents are processed in the order of their paths, compared
    part by part and character by character (lexicographically), whatever
    the order in which the file system lists them: the sorted list is an
    ordered rearrangement of the listing, the records of a finished run
    carry the file names in that order, in [code.py] and in
    [ordonnance.py], and a second listing of the same documents gives the
    same run. When the directory exists, lists a document and the text of
    every document can be acquired, both programs finish, each with the
    records in that order. *)
Theorem batch_order_deterministic :
  forall (Page Image : Type) (db : ucd) (fl : flavour)
         (w : collaborators Page Image) (d d' : directory),
    dir_str d' = dir_str d ->
    dir_exists d' = dir_exists d ->
    Permutation (pdf_glob d') (pdf_glob d) ->
    NoDup (map (path_key fl) (pdf_glob d)) ->
    let pdf_files := sorted (path_ltb fl) (pdf_glob d) in
    let file_of := fun pdf => basename fl (path_str fl pdf) in
    StronglySorted (not_after (path_ltb fl)) pdf_files
    /\ Permutation pdf_files (pdf_glob d)
    /\ (forall log results,
           Code.main db fl w d = (log, Return results) ->
           map Code.file results = map file_of pdf_files)
    /\ (forall log results,
           Ordonnance.main db fl w d = (log, Return results) ->
           map Ordonnance.file results = map file_of pdf_files)
    /\ Code.main db fl w d' = Code.main db fl w d
    /\ Ordonnance.main db fl w d' = Ordonnance.main db fl w d
    /\ (dir_exists d = true -> pdf_glob d <> [] ->
        Forall (fun pdf =>
                  exists log text,
                    extract_text_pdf w (path_str fl pdf) = (log, Return text))
               (pdf_glob d) ->
        (exists log results,
            Code.main db fl w d = (log, Return results)
            /\ Code.main db fl w d' = (log, Return results)
            /\ map Code.file results = map file_of pdf_files)
        /\ (exists log results,
               Ordonnance.main db fl w d = (log, Return results)
               /\ Ordonnance.main db fl w d' = (log, Return results)
               /\ map Ordonnance.file results = map file_of pdf_files)).
Proof.
  intros Page Image db fl w d d' Hd He Hp Hnd pdf_files file_of.
  pose proof (path_ltb_order_independent fl Hnd Hp) as Hs.
  assert (Hc : Code.main db fl w d' = Code.main db fl w d)
    by (unfold Code.main; now rewrite Hd, He, Hs).
  assert (Ho : Ordonnance.main db fl w d' = Ordonnance.main db fl w d)
    by (unfold Ordonnance.main; now rewrite Hd, He, Hs).
  split; [apply path_ltb_sorted|].
  split; [exact (@sorted_perm _ _ (path_key fl) key_ltb (pdf_glob d))|].
  split; [intros log results; apply code_main_files|].
  split; [intros log results; apply ordonnance_main_files|].
  split; [exact Hc|]. split; [exact Ho|].
  intros Hex Hne Ha.
  destruct (main_returns Page Image db fl w d Hex Hne Ha)
    as [(lc & rc & Ec) (lo & ro & Eo)].
  split.
  - exists lc, rc. split; [exact Ec|]. split; [now rewrite Hc|].
    eapply code_main_files. exact Ec.
  - exists lo, ro. split; [exact Eo|]. split; [now rewrite Ho|].
    eapply ordonnance_main_files. exact Eo.
Qed.

(** The directory that lists [b.pdf] before [a.pdf]: in both programs the
    records come out as [a.pdf], [b.pdf], and so they do when it lists
    [a.pdf] first. *)
Lemma batch_order_deterministic_witness :
  (exists log results,
      Code.main latin posix (born_digital None) contracts_b_a
      = (log, Return results)
      /\ Code.main latin posix (born_digital None) contracts_a_b
         = (log, Return results)
      /\ map Code.file results = [u "a.pdf"; u "b.pdf"])
  /\ (exists log results,
         Ordonnance.main latin posix (born_digital None) contracts_b_a
         = (log, Return results)
         /\ Ordonnance.main latin posix (born_digital None) contracts_a_b
            = (log, Return results)
         /\ map Ordonnance.file results = [u "a.pdf"; u "b.pdf"]).
Proof.
  assert (Hnd : NoDup (map (path_key posix) (pdf_glob contracts_b_a))).
  { repeat constructor; simpl; intuition discriminate. }
  assert (Hp : Permutation (pdf_glob contracts_a_b) (pdf_glob contracts_b_a))
    by apply perm_swap.
  destruct (@batch_order_deterministic nat nat latin posix (born_digital None)
              contracts_b_a contracts_a_b eq_refl eq_refl Hp Hnd)
    as (_ & _ & _ & _ & _ & _ & H).
  destruct H as [(lc & rc & Ec & Ec' & Fc) (lo & ro & Eo & Eo' & Fo)].
  - reflexivity.
  - discriminate.
  - repeat constructor; eexists; eexists; vm_compute; reflexivity.
  - split.
    + exists lc, rc. split; [exact Ec|]. split; [exact Ec'|].
      rewrite Fc. vm_compute. reflexivity.
    + exists lo, ro. split; [exact Eo|]. split; [exact Eo'|].
      rewrite Fo. vm_compute. reflexivity.
Defined.

(** * Further properties of the code *)

(** ** [format_number_2digit_groups] on any string *)

Lemma pairs_length d : length (pairs d) = (length d + 1) / 2.
Proof.
  assert (H : forall n d, length d <= n -> length (pairs d) = (length d + 1) / 2).
  { induction n as [|n IH]; intros [|a [|b d']] Hl;
      try reflexivity; cbn [length] in Hl; try lia.
    cbn [pairs length]. rewrite IH by lia.
    replace (S (S (length d')) + 1) with (length d' + 1 + 1 * 2) by lia.
    rewrite Nat.div_add by lia. lia. }
  now apply (H (length d)).
Qed.

Lemma join_filter (p : char -> bool) sep l :
  filter p sep = [] -> filter p (join sep l) = concat (map (filter p) l).
Proof.
  intros Hs. induction l as [|t [|t' l] IH]; simpl.
  - reflexivity.
  - now rewrite app_nil_r.
  - rewrite !filter_app, Hs. simpl in IH. now rewrite IH.
Qed.

Lemma concat_map_filter (p : char -> bool) l :
  concat (map (filter p) l) = filter p (concat l).
Proof.
  induction l as [|t l IH]; simpl; [reflexivity|].
  now rewrite filter_app, IH.
Qed.

Lemma join_length sep t l :
  length (join sep (t :: l))
  = length (concat (t :: l)) + length l * length sep.
Proof.
  revert t. induction l as [|t' l IH]; intros t.
  - simpl. rewrite app_nil_r. lia.
  - change (join sep (t :: t' :: l)) with (t ++ sep ++ join sep (t' :: l)).
    rewrite !length_app, IH. simpl. rewrite !length_app. lia.
Qed.

(** X1. On every non-empty string [format_number_2digit_groups] returns,
    and its result is the string with single spaces put in: taking the
    spaces out of the result gives what taking them out of the argument
    gives, and the result is longer by half the length of the argument,
    rounded down. *)
Theorem format_number_adds_spaces :
  forall d : str,
    d <> [] ->
    exists s,
      Code.format_number_2digit_groups d = Return s
      /\ filter not_space s = filter not_space d
      /\ length s = length d + length d / 2.
Proof.
  intros [|first rest] Hne; [congruence|].
  rewrite format_number_first_then_pairs. eexists. split; [reflexivity|].
  split.
  - rewrite join_filter by reflexivity.
    rewrite concat_map_filter. cbn [first_then_pairs concat].
    now rewrite concat_pairs.
  - cbn [first_then_pairs]. rewrite join_length.
    cbn [concat]. rewrite concat_pairs, pairs_length. simpl length.
    rewrite Nat.mul_1_r.
    replace (S (length rest)) with (length rest + 1) by lia.
    lia.
Qed.

(** A string of two characters. *)
Lemma format_number_adds_spaces_witness :
  exists s,
    Code.format_number_2digit_groups (u "74") = Return s
    /\ filter not_space s = filter not_space (u "74")
    /\ length s = length (u "74") + length (u "74") / 2.
Proof.
  apply (format_number_adds_spaces (u "74")). discriminate.
Defined.

Lemma ascii_digit_bounds c : ascii_digit c = true -> (48 <= c <= 57)%N.
Proof.
  unfold ascii_digit, between. intros H.
  apply andb_true_iff in H. destruct H as [H1 H2].
  apply N.leb_le in H1, H2. exact (conj H1 H2).
Qed.

Lemma ascii_digit_isdecimal db c :
  ucd_ok db -> ascii_digit c = true -> isdecimal db c = true.
Proof.
  intros ok H. rewrite (isdecimal_ascii ok (c := c)); [exact H|].
  apply ascii_digit_bounds in H. lia.
Qed.

Lemma ascii_digit_nonspace c : ascii_digit c = true -> isspace c = false.
Proof.
  intros H. apply ascii_digit_bounds in H.
  destruct (isspace c) eqn:E; [|reflexivity].
  apply mem_In in E. unfold whitespace in E. simpl in E.
  repeat (destruct E as [<-|E]; [lia|]). contradiction.
Qed.

Lemma filter_all (A : Type) (p : A -> bool) l :
  Forall (fun x => p x = true) l -> filter p l = l.
Proof.
  induction 1 as [|x l Hx _ IH]; simpl; [reflexivity|].
  now rewrite Hx, IH.
Qed.

(** X2. Re-grouping is idempotent: the digits of a formatted
    fifteen-digit identifier are the fifteen digits, so formatting them
    again gives the same string. *)
Theorem regrouping_idempotent :
  forall (db : ucd) (d : str),
    ucd_ok db ->
    length d = 15 ->
    Forall (fun c => ascii_digit c = true) d ->
    exists s,
      Code.format_number_2digit_groups d = Return s
      /\ re_sub db false NOT_DIGIT_RE [] s = d
      /\ Code.format_number_2digit_groups
           (firstn 15 (re_sub db false NOT_DIGIT_RE [] s)) = Return s.
Proof.
  intros db d ok Hl Hd.
  destruct d as [|first rest]; [discriminate|].
  rewrite format_number_first_then_pairs. eexists. split; [reflexivity|].
  assert (E : re_sub db false NOT_DIGIT_RE []
                     (join (u " ") (first_then_pairs (first :: rest)))
              = first :: rest).
  { rewrite re_sub_not_digit, join_filter.
    - rewrite concat_map_filter. cbn [first_then_pairs concat].
      rewrite concat_pairs. apply filter_all.
      eapply Forall_impl; [|exact Hd].
      intros c. now apply ascii_digit_isdecimal.
    - simpl.
      rewrite (isdecimal_ascii ok (c := 32%N)) by reflexivity. reflexivity. }
  split; [exact E|].
  rewrite E, <- Hl, firstn_all. apply format_number_first_then_pairs.
Qed.

(** The fifteen digits of the specification's example. *)
Lemma regrouping_idempotent_witness :
  re_sub latin false NOT_DIGIT_RE [] (u "7 48 01 23 45 67 89 01")
  = u "748012345678901"
  /\ Code.format_number_2digit_groups (u "748012345678901")
     = Return (u "7 48 01 23 45 67 89 01").
Proof.
  destruct (regrouping_idempotent latin (u "748012345678901") latin_ok)
    as (s & Hs & Hr & _).
  - reflexivity.
  - repeat constructor.
  - assert (E : Code.format_number_2digit_groups (u "748012345678901")
                = Return (u "7 48 01 23 45 67 89 01"))
      by (vm_compute; reflexivity).
    rewrite E in Hs. injection Hs as <-. split; [exact Hr | exact E].
Defined.

(** ** Shape of the extracted client fields *)

Lemma lstrip_head_nonspace s x t : lstrip s = x :: t -> isspace x = false.
Proof.
  induction s as [|c s IH]; simpl; [discriminate|].
  destruct (isspace c) eqn:E; [exact IH|].
  intros H. injection H as <- _. exact E.
Qed.

Lemma lstrip_idempotent s : lstrip (lstrip s) = lstrip s.
Proof.
  destruct (lstrip s) as [|x t] eqn:E; [reflexivity|].
  apply lstrip_head. exact (lstrip_head_nonspace s x t E).
Qed.

Lemma rstrip_idempotent s : rstrip (rstrip s) = rstrip s.
Proof.
  unfold rstrip. now rewrite rev_involutive, lstrip_idempotent.
Qed.

Lemma blank_head x s : blank (x :: s) -> isspace x = true.
Proof. intros H. now inversion H. Qed.

Lemma rstrip_keeps_head d r :
  isspace d = false -> exists r', rstrip (d :: r) = d :: r'.
Proof.
  intros Hd. destruct (rstrip_split (d :: r)) as (c & E & Hc).
  destruct (rstrip (d :: r)) as [|x q].
  - simpl in E. subst c. apply blank_head in Hc. congruence.
  - simpl in E. injection E as <- _. eauto.
Qed.

Lemma strip_keeps_head d r :
  isspace d = false -> exists r', strip (d :: r) = d :: r'.
Proof.
  intros Hd. unfold strip. rewrite lstrip_head by exact Hd.
  now apply rstrip_keeps_head.
Qed.

(** The result of [strip] is stripped. *)
Lemma strip_idempotent s : strip (strip s) = strip s.
Proof.
  assert (Hl : lstrip (strip s) = strip s).
  { unfold strip. destruct (rstrip_split (lstrip s)) as (c & E & _).
    destruct (rstrip (lstrip s)) as [|x q]; [reflexivity|].
    apply lstrip_head.
    apply (lstrip_head_nonspace s x (q ++ c)). exact E. }
  unfold strip at 1. rewrite Hl. unfold strip. apply rstrip_idempotent.
Qed.

Lemma number_chars_digit x : In x (u "0123456789") -> ascii_digit x = true.
Proof.
  intros H. vm_compute in H.
  repeat (destruct H as [<-|H]; [reflexivity|]). contradiction.
Qed.

(** A captured identifier starts with a digit and has eleven characters
    or more. *)
Lemma number_span_head db text g :
  ucd_ok db -> number_span db text = Some g ->
  exists x w, g = x :: w /\ ascii_digit x = true /\ 10 <= length w.
Proof.
  intros ok Hg. unfold number_span, number_match in Hg.
  destruct (group_then_captured db strip NUMBER_RE 1 NUMBER_GROUP
              (normalize_spaces db text) capture_number) as [_ H].
  destruct H as (v & ga & gb & Hv & M).
  - intros E. rewrite E in Hg. discriminate.
  - rewrite Hv in Hg. injection Hg as <-.
    unfold NUMBER_GROUP, seq_of in M. cbn [fold_right Matches] in M.
    destruct M as (w1 & w2 & g1 & -> & (x & -> & Hx & _)
                   & (w3 & w4 & g2 & -> & (_ & Hl & _) & (-> & _))).
    exists x, (w3 ++ []). repeat split.
    + apply number_chars_digit. now apply (first_digit_ok db ok).
    + rewrite app_nil_r. exact Hl.
Qed.

Lemma number_digits_ascii db text g :
  ucd_ok db -> number_span db text = Some g ->
  Forall (fun c => ascii_digit c = true) (filter (isdecimal db) (strip g)).
Proof.
  intros ok Hg.
  pose proof (Forall_strip _ g (number_span_chars db text g ok Hg)) as Hs.
  apply Forall_forall. intros x Hx. apply filter_In in Hx.
  destruct Hx as [Hin Hx]. rewrite Forall_forall in Hs.
  now rewrite <- (isdecimal_number_char db ok x (Hs x Hin)).
Qed.

Lemma digit_is_digit_or_space c :
  ascii_digit c = true -> digit_or_space c = true.
Proof. unfold digit_or_space. now intros ->. Qed.

(** The fifteen-digit grouping, written out. *)
Lemma grouped_fifteen (d : str) :
  length d = 15 -> Forall (fun c => ascii_digit c = true) d ->
  exists first rest,
    join (u " ") (first_then_pairs d) = first :: rest
    /\ ascii_digit first = true
    /\ Forall (fun c => digit_or_space c = true)
              (join (u " ") (first_then_pairs d))
    /\ strip (join (u " ") (first_then_pairs d))
       = join (u " ") (first_then_pairs d)
    /\ length (join (u " ") (first_then_pairs d)) = 22.
Proof.
  intros Hl Hd.
  do 16 (destruct d as [|? d]; try discriminate Hl).
  repeat match goal with
         | H : Forall _ (_ :: _) |- _ => inversion H; clear H; subst
         end.
  cbn [first_then_pairs pairs join app u].
  eexists. eexists. split; [reflexivity|]. split; [assumption|].
  split; [|split; [|reflexivity]].
  - repeat (constructor;
            [first [now apply digit_is_digit_or_space | reflexivity]|]).
    constructor.
  - match goal with
    | |- strip (?x :: ?s) = _ =>
      apply (strip_id x s (last (x :: s) x));
        [now apply ascii_digit_nonspace | | reflexivity]
    end.
    cbn [last]. now apply ascii_digit_nonspace.
Qed.

(** X3. A client number, when there is one, starts with a digit, holds
    only digits and spaces, and has no white space at either end; on the
    fifteen-digit branch it has exactly 22 characters. The captured span
    it comes from has eleven characters or more. *)
Theorem client_number_shape :
  forall (db : ucd) (text : str) (name : option str) (number : str),
    ucd_ok db ->
    Code.extract_client_info db text = Return (name, Some number) ->
    (exists first rest, number = first :: rest /\ ascii_digit first = true)
    /\ Forall (fun c => digit_or_space c = true) number
    /\ strip number = number
    /\ (exists g, number_span db text = Some g /\ 11 <= length g
                  /\ (15 <= length (re_sub db false NOT_DIGIT_RE [] (strip g))
                      -> length number = 22)).
Proof.
  intros db text name number ok H.
  unfold Code.extract_client_info in H.
  rewrite extract_client_info_with_eq in H. cbv zeta in H.
  destruct (number_span db text) as [g|] eqn:Eg; [|discriminate H].
  destruct (number_span_head db text g ok Eg) as (x & w & -> & Hx & Hw).
  pose proof (number_digits_ascii db text (x :: w) ok Eg) as Hda.
  cbn [option_map] in H.
  destruct (strip_keeps_head x w (ascii_digit_nonspace x Hx)) as (r' & Es).
  rewrite Es in H, Hda.
  destruct (15 <=? length (filter (isdecimal db) (x :: r'))) eqn:E15.
  - apply Nat.leb_le in E15.
    assert (H15 : length (firstn 15 (filter (isdecimal db) (x :: r'))) = 15)
      by (rewrite length_firstn; lia).
    destruct (firstn_fifteen _ E15) as (first & rest & Ef).
    rewrite Ef, format_number_first_then_pairs in H. cbn [bind] in H.
    rewrite <- Ef in H.
    assert (Hn : number
                 = join (u " ")
                        (first_then_pairs
                           (firstn 15 (filter (isdecimal db) (x :: r')))))
      by congruence.
    rewrite Hn. clear Hn H.
    destruct (grouped_fifteen _ H15 (Forall_firstn _ _ 15 _ Hda))
      as (f & r & E & Hf & Hall & Hstrip & Hlen).
    split; [exists f, r; auto|]. split; [exact Hall|].
    split; [exact Hstrip|].
    exists (x :: w). split; [reflexivity|]. split; [simpl; lia|]. auto.
  - assert (Hn : number = strip (filter digit_or_space (x :: r')))
      by congruence.
    rewrite Hn. clear Hn H.
    assert (Ef : filter digit_or_space (x :: r')
                 = x :: filter digit_or_space r')
      by (simpl; now rewrite (digit_is_digit_or_space x Hx)).
    rewrite Ef.
    destruct (strip_keeps_head x (filter digit_or_space r')
                               (ascii_digit_nonspace x Hx)) as (q & Eq).
    split; [exists x, q; auto|]. split; [|split].
    + apply Forall_strip. rewrite <- Ef. apply Forall_filter.
    + apply strip_idempotent.
    + exists (x :: w). split; [reflexivity|]. split; [simpl; lia|].
      rewrite re_sub_not_digit, Es. apply Nat.leb_gt in E15. lia.
Qed.

(** An identifier of nine digits written with hyphens and spaces. *)
Lemma client_number_shape_witness :
  (exists first rest,
      u "1 23456 78  9" = first :: rest /\ ascii_digit first = true)
  /\ strip (u "1 23456 78  9") = u "1 23456 78  9".
Proof.
  destruct (client_number_shape
              latin (u "Mon numéro: 1 23-45-6 78 - 9 -") None
              (u "1 23456 78  9") latin_ok) as (H1 & _ & H3 & _).
  - vm_compute. reflexivity.
  - split; [exact H1 | exact H3].
Defined.

(** A group holds a piece of what the pattern matched. *)
Lemma capture_substring db ic r n : forall c w g g',
    capture r n = Some c -> Matches db ic r w g g' ->
    exists v a b, group g' n = Some v /\ w = a ++ v ++ b.
Proof.
  induction r as [|a|r1 IH1 r2 IH2|r1 IH1 r2 IH2|lo hi a|lo hi a|r1 IH1|m r1 IH1|];
    intros c w g g'; simpl; try discriminate.
  - intros Hc (w1 & w2 & g1 & -> & M1 & M2).
    destruct (mentions r2 n) eqn:E2.
    + destruct (mentions r1 n); [discriminate|].
      destruct (IH2 c w2 g1 g' Hc M2) as (v & a & b & Hv & ->).
      exists v, (w1 ++ a), b. split; [exact Hv|]. now rewrite <- app_assoc.
    + rewrite (unmentioned_group db ic r2 n w2 g1 g' E2 M2).
      destruct (IH1 c w1 g g1 Hc M1) as (v & a & b & Hv & ->).
      exists v, a, (b ++ w2). split; [exact Hv|].
      now rewrite <- !app_assoc.
  - intros Hc (g1 & M & ->). simpl.
    destruct (Nat.eqb m n) eqn:E.
    + exists w, [], []. split; [reflexivity|]. simpl. now rewrite app_nil_r.
    + now apply (IH1 c w g g1).
Qed.

(** What [re.search] captures is a piece of its subject. *)
Lemma captured_substring db r n c s v :
  capture r n = Some c ->
  captured (re_search db IGNORECASE r s) n = Some v ->
  exists a b, s = a ++ v ++ b.
Proof.
  intros Hc Hv.
  destruct (re_search db IGNORECASE r s) as [mo|] eqn:E; [|discriminate].
  apply re_search_sound in E. destruct E as (b0 & w & a0 & -> & M).
  destruct (capture_substring db IGNORECASE r n c w [] mo Hc M)
    as (v' & a & b & Hv' & ->).
  simpl in Hv. rewrite Hv' in Hv. injection Hv as <-.
  exists (b0 ++ a), (b ++ a0). now rewrite <- !app_assoc.
Qed.

Lemma strip_substring s : exists a b, s = a ++ strip s ++ b.
Proof.
  destruct (strip_split s) as (a & c & E & _). eauto.
Qed.

Lemma substring_trans (s t v : str) :
  (exists a b, s = a ++ t ++ b) -> (exists a b, t = a ++ v ++ b) ->
  exists a b, s = a ++ v ++ b.
Proof.
  intros (a & b & ->) (a' & b' & ->).
  exists (a ++ a'), (b' ++ b). now rewrite <- !app_assoc.
Qed.

(** X4. A client name, when there is one, is a piece of the text as it
    was given (white space not normalized), holds no line feed (U+000A),
    and has no white space at either end. *)
Theorem client_name_shape :
  forall (db : ucd) (text : str) (name : str) (number : option str),
    ucd_ok db ->
    Code.extract_client_info db text = Return (Some name, number) ->
    (exists a b, text = a ++ name ++ b)
    /\ ~ In 10%N name
    /\ strip name = name.
Proof.
  intros db text name number ok H.
  unfold Code.extract_client_info in H.
  rewrite extract_client_info_with_eq in H. cbv zeta in H.
  assert (Hn : option_map strip (name_span db text) = Some name).
  { destruct (option_map strip (number_span db text)) as [[|c q]|];
      try congruence.
    destruct (15 <=? length (filter (isdecimal db) (c :: q)));
      [|congruence].
    destruct (Code.format_number_2digit_groups _); cbn [bind] in H;
      congruence. }
  clear H. unfold name_span, name_match in Hn.
  destruct (captured (re_search db IGNORECASE NAME_RE text) 1) as [g|] eqn:Eg;
    [|discriminate].
  injection Hn as <-.
  split; [|split].
  - apply (substring_trans text g (strip g)).
    + exact (captured_substring db NAME_RE 1 _ text g capture_name Eg).
    + apply strip_substring.
  - destruct (group_then_captured db strip NAME_RE 1 _ text capture_name)
      as [_ Hm].
    destruct Hm as (v & ga & gb & Hv & M);
      [intros E; rewrite E in Eg; discriminate|].
    rewrite Eg in Hv. injection Hv as <-.
    cbn [Matches] in M. destruct M as (Hall & _).
    apply Forall_strip in Hall. rewrite Forall_forall in Hall.
    intros Hin. specialize (Hall _ Hin).
    cbn [atom_ok] in Hall. unfold literal_ok in Hall.
    rewrite (iscased_ascii db ok 10%N) in Hall by reflexivity.
    discriminate Hall.
  - apply strip_idempotent.
Qed.

(** A name between runs of spaces, followed by another line. *)
Lemma client_name_shape_witness :
  Code.extract_client_info
    latin (u "Mon nom ou celui de mon ayant droit :   Jean  Dupont  " ++ NL
             ++ u "Adresse")
  = Return (Some (u "Jean  Dupont"), None)
  /\ ~ In 10%N (u "Jean  Dupont").
Proof.
  assert (E : Code.extract_client_info
                latin (u "Mon nom ou celui de mon ayant droit :   Jean  Dupont  "
                         ++ NL ++ u "Adresse")
              = Return (Some (u "Jean  Dupont"), None))
    by (vm_compute; reflexivity).
  split; [exact E|].
  exact (proj1 (proj2 (client_name_shape latin _ _ _ latin_ok E))).
Defined.

(** ** Shape of the prescription fields *)

Lemma latin_decimal_nonspace : decimal_nonspace latin.
Proof. intros c H. now apply ascii_digit_nonspace. Qed.

(** The date group of a person match, and where it stands. *)
Lemma person_pattern_birthdate db w g' :
  ucd_ok db ->
  Matches db IGNORECASE PERSON_RE w [] g' ->
  exists before d1 d2 d3,
    w = before ++ chr "(" :: (d1 ++ chr "/" :: d2 ++ chr "/" :: d3) ++ [chr ")"]
    /\ group g' 3 = Some (d1 ++ chr "/" :: d2 ++ chr "/" :: d3)
    /\ length d1 = 2 /\ length d2 = 2 /\ length d3 = 4
    /\ decimals db d1 /\ decimals db d2 /\ decimals db d3.
Proof.
  intros ok. unfold PERSON_RE, seq_of. cbn [fold_right Matches].
  intros (w0 & r0 & g0 & -> & _
          & wt & r1 & g1 & -> & _
          & ws & r2 & g2 & -> & _
          & wn & r3 & g3 & -> & _
          & wb & r4 & g4 & -> & _
          & wo & r5 & g5 & -> & (xo & -> & Ho & _)
          & wd & r6 & g6 & -> & (g7 & Md & ->)
          & wc & r7 & g8 & -> & (xc & -> & Hc & ->) & (-> & ->)).
  destruct Md as (d1 & q1 & h1 & -> & (Hd1 & Hl1 & Hu1 & _)
                  & s1 & q2 & h2 & -> & (y1 & -> & Hy1 & _)
                  & d2 & q3 & h3 & -> & (Hd2 & Hl2 & Hu2 & _)
                  & s2 & q4 & h4 & -> & (y2 & -> & Hy2 & _)
                  & d3 & q5 & h5 & -> & (Hd3 & Hl3 & Hu3 & _) & (-> & _)).
  apply (uncased_ascii_literal db ok) in Ho, Hc, Hy1, Hy2;
    try (vm_compute; reflexivity).
  subst xo xc y1 y2. simpl in Hu1, Hu2, Hu3.
  exists (w0 ++ wt ++ ws ++ wn ++ wb), d1, d2, d3.
  split; [flatten_app; rewrite ?app_nil_r; reflexivity|].
  split; [cbn [group Nat.eqb]; flatten_app; rewrite ?app_nil_r; reflexivity|].
  repeat split; try lia; now apply digits_ok.
Qed.

(** X5. A birth date, when there is one, is two decimal digits, a slash,
    two decimal digits, a slash and four decimal digits, and it stands in
    parentheses in the text as it was given. *)
Theorem birthdate_shape :
  forall (db : ucd) (text : str) (r : Ordonnance.fields) (b : str),
    ucd_ok db -> decimal_nonspace db ->
    Ordonnance.parse_ordonnance db text = Return r ->
    Ordonnance.birthdate r = Some b ->
    (exists d1 d2 d3,
        b = d1 ++ chr "/" :: d2 ++ chr "/" :: d3
        /\ length d1 = 2 /\ length d2 = 2 /\ length d3 = 4
        /\ decimals db d1 /\ decimals db d2 /\ decimals db d3)
    /\ length b = 10
    /\ exists before after,
        text = before ++ (chr "(" :: b ++ [chr ")"]) ++ after.
Proof.
  intros db text r b ok Hds Hr Hb.
  rewrite parse_ordonnance_eq in Hr. injection Hr as <-. simpl in Hb.
  unfold person_match in Hb.
  destruct (re_search db IGNORECASE PERSON_RE (normalize_spaces db text))
    as [mo|] eqn:E; [|discriminate].
  apply re_search_sound in E. destruct E as (b0 & w & a0 & Ht & M).
  destruct (person_pattern_birthdate db w mo ok M)
    as (pre & d1 & d2 & d3 & -> & Hg & H1 & H2 & H3 & Hd1 & Hd2 & Hd3).
  simpl in Hb. rewrite Hg in Hb. simpl in Hb.
  assert (Hns : Forall (fun c => isspace c = false)
                       (d1 ++ chr "/" :: d2 ++ chr "/" :: d3)).
  { assert (Hd : forall d, decimals db d ->
                           Forall (fun c => isspace c = false) d)
      by (intros d; apply Forall_impl; exact Hds).
    apply Forall_app. split; [now apply Hd|].
    constructor; [reflexivity|].
    apply Forall_app. split; [now apply Hd|].
    constructor; [reflexivity | now apply Hd]. }
  rewrite (strip_nonspace _ Hns) in Hb. injection Hb as <-.
  split; [exists d1, d2, d3; repeat split; assumption|].
  split; [rewrite length_app; simpl; rewrite length_app; simpl; lia|].
  apply (normalize_spaces_keeps
           db text (b0 ++ pre)
           (chr "(" :: (d1 ++ chr "/" :: d2 ++ chr "/" :: d3) ++ [chr ")"])
           a0).
  - rewrite Ht. flatten_app. reflexivity.
  - discriminate.
  - assert (Hd : forall d, decimals db d -> spaceless d).
    { intros d. apply Forall_impl. intros c. now apply decimal_not_space. }
    constructor; [discriminate|].
    apply Forall_app. split.
    + apply Forall_app. split; [now apply Hd|].
      constructor; [discriminate|].
      apply Forall_app. split; [now apply Hd|].
      constructor; [discriminate | now apply Hd].
    + constructor; [discriminate | constructor].
Qed.

(** A prescription whose person line has tabs and doubled spaces. *)
Lemma birthdate_shape_witness :
  length (u "01/02/1980") = 10
  /\ exists before after,
      u "Mme X - Madame  Anne Dupont 	(01/02/1980) OD"
      = before ++ (chr "(" :: u "01/02/1980" ++ [chr ")"]) ++ after.
Proof.
  refine (proj2 (birthdate_shape
                   latin (u "Mme X - Madame  Anne Dupont 	(01/02/1980) OD")
                   {| Ordonnance.title := Some (u "Madame");
                      Ordonnance.full_name := Some (u "Anne Dupont");
                      Ordonnance.birthdate := Some (u "01/02/1980");
                      Ordonnance.eye_right := None;
                      Ordonnance.eye_left := None |}
                   (u "01/02/1980") latin_ok latin_decimal_nonspace _ _)).
  - vm_compute. reflexivity.
  - reflexivity.
Defined.

Section ValueFacts.

Variable db : ucd.
Hypothesis ok : ucd_ok db.

Lemma sign_ok x :
  atom_ok db IGNORECASE
          (IN false [SET_LITERAL (chr "+"); SET_LITERAL (chr "-")]) x = true ->
  x = chr "+" \/ x = chr "-".
Proof.
  rewrite (uncased_ascii_set db ok) by (vm_compute; reflexivity).
  cbn [xorb existsb]. rewrite orb_false_r, orb_true_iff, !mem_In.
  change (item_charmap latin (SET_LITERAL (chr "+"))) with (u "+").
  change (item_charmap latin (SET_LITERAL (chr "-"))) with (u "-").
  intros [[<-|[]]|[<-|[]]]; auto.
Qed.

Lemma point_ok x :
  atom_ok db IGNORECASE
          (IN false [SET_LITERAL (chr "."); SET_LITERAL (chr ",")]) x = true ->
  x = chr "." \/ x = chr ",".
Proof.
  rewrite (uncased_ascii_set db ok) by (vm_compute; reflexivity).
  cbn [xorb existsb]. rewrite orb_false_r, orb_true_iff, !mem_In.
  change (item_charmap latin (SET_LITERAL (chr "."))) with (u ".").
  change (item_charmap latin (SET_LITERAL (chr ","))) with (u ",").
  intros [[<-|[]]|[<-|[]]]; auto.
Qed.

Lemma replace_app a b (s t : str) :
  replace a b (s ++ t) = replace a b s ++ replace a b t.
Proof. apply map_app. Qed.

Lemma replace_decimals s :
  decimals db s -> replace (chr ",") (chr ".") s = s.
Proof.
  induction 1 as [|c s Hc _ IH]; simpl; [reflexivity|].
  rewrite IH. destruct (c =? chr ",")%N eqn:E; [|reflexivity].
  apply N.eqb_eq in E. subst c.
  rewrite (isdecimal_ascii ok (c := chr ",")) in Hc by reflexivity.
  discriminate Hc.
Qed.

(** What an eye pattern captures, once its comma is a dot. *)
Lemma value_group_shape v ga gb :
  Matches db IGNORECASE VALUE_GROUP v ga gb ->
  exists sign whole fraction,
    replace (chr ",") (chr ".") v = sign ++ whole ++ fraction
    /\ (sign = [] \/ sign = u "+" \/ sign = u "-")
    /\ whole <> [] /\ decimals db whole
    /\ (fraction = []
        \/ exists f, fraction = chr "." :: f /\ f <> [] /\ decimals db f).
Proof.
  unfold VALUE_GROUP, seq_of. cbn [fold_right Matches].
  intros (ws & r1 & g1 & -> & (Hs & _ & Hs1 & _)
          & wi & r2 & g2 & -> & (Hi & Hi1 & _)
          & wf & r3 & g3 & -> & Hf & (-> & _)).
  assert (Hsign : ws = [] \/ ws = u "+" \/ ws = u "-").
  { destruct ws as [|x [|y ws]]; [now left| |simpl in Hs1; lia].
    inversion Hs as [|? ? Hx _]; subst.
    destruct (sign_ok x Hx) as [->| ->]; auto. }
  assert (Hw : wi <> []) by (destruct wi; [simpl in Hi1; lia | discriminate]).
  apply digits_ok in Hi.
  assert (Es : replace (chr ",") (chr ".") ws = ws)
    by (destruct Hsign as [->|[->| ->]]; reflexivity).
  rewrite !replace_app, Es, (replace_decimals wi Hi), app_nil_r.
  exists ws, wi, (replace (chr ",") (chr ".") wf).
  split; [reflexivity|]. split; [exact Hsign|]. split; [exact Hw|].
  split; [exact Hi|].
  destruct Hf as [Hf|[-> _]]; [|now left].
  right.
  destruct Hf as (wp & r4 & g4 & -> & (x & -> & Hx & _)
                  & wq & r5 & g5 & -> & (Hq & Hq1 & _) & (-> & _)).
  apply digits_ok in Hq.
  exists wq. rewrite app_nil_r. split; [|split].
  - rewrite replace_app, (replace_decimals wq Hq).
    destruct (point_ok x Hx) as [->| ->]; reflexivity.
  - destruct wq; [simpl in Hq1; lia | discriminate].
  - exact Hq.
Qed.

End ValueFacts.

(** X6. An eye value, when there is one, is an optional sign, one decimal
    digit or more, and possibly a dot followed by one decimal digit or
    more: it holds no comma, no space and no letter. *)
Theorem eye_value_shape :
  forall (db : ucd) (text : str) (r : Ordonnance.fields) (v : str),
    ucd_ok db ->
    Ordonnance.parse_ordonnance db text = Return r ->
    Ordonnance.eye_right r = Some v \/ Ordonnance.eye_left r = Some v ->
    exists sign whole fraction,
      v = sign ++ whole ++ fraction
      /\ (sign = [] \/ sign = u "+" \/ sign = u "-")
      /\ whole <> [] /\ decimals db whole
      /\ (fraction = []
          \/ exists f, fraction = chr "." :: f /\ f <> [] /\ decimals db f).
Proof.
  intros db text r v ok Hr Hv.
  rewrite parse_ordonnance_eq in Hr. injection Hr as <-. simpl in Hv.
  assert (H : exists side g ga gb,
             v = replace (chr ",") (chr ".") g
             /\ Matches db IGNORECASE VALUE_GROUP g ga gb
             /\ (side = u "Droit" \/ side = u "Gauche")).
  { destruct Hv as [Hv|Hv].
    - unfold od_match in Hv.
      destruct (group_then_captured db strip (EYE_RE (u "Droit")) 1 _
                  (normalize_spaces db text) capture_right) as [_ Hm].
      destruct (captured _ 1) as [g|] eqn:Eg; [|discriminate].
      destruct Hm as (g' & ga & gb & Hg & M).
      + intros E. rewrite E in Eg. discriminate.
      + injection Hg as <-. injection Hv as <-.
        exists (u "Droit"), g, ga, gb. auto.
    - unfold og_match in Hv.
      destruct (group_then_captured db strip (EYE_RE (u "Gauche")) 1 _
                  (normalize_spaces db text) capture_left) as [_ Hm].
      destruct (captured _ 1) as [g|] eqn:Eg; [|discriminate].
      destruct Hm as (g' & ga & gb & Hg & M).
      + intros E. rewrite E in Eg. discriminate.
      + injection Hg as <-. injection Hv as <-.
        exists (u "Gauche"), g, ga, gb. auto. }
  destruct H as (side & g & ga & gb & -> & M & _).
  exact (value_group_shape db ok g ga gb M).
Qed.

(** A right eye with a comma and no sign, a left eye without fraction. *)
Lemma eye_value_shape_witness :
  exists sign whole fraction,
    u "1.25" = sign ++ whole ++ fraction
    /\ (sign = [] \/ sign = u "+" \/ sign = u "-")
    /\ whole <> [] /\ decimals latin whole
    /\ (fraction = []
        \/ exists f, fraction = chr "." :: f /\ f <> [] /\ decimals latin f).
Proof.
  apply (eye_value_shape
           latin (u "OEIL DROIT 1,25mm oeil gauche: -3")
           {| Ordonnance.title := None; Ordonnance.full_name := None;
              Ordonnance.birthdate := None;
              Ordonnance.eye_right := Some (u "1.25");
              Ordonnance.eye_left := Some (u "-3") |}
           (u "1.25") latin_ok).
  - vm_compute. reflexivity.
  - left. reflexivity.
Defined.

(** ** Normalization of white space *)

Section Squeeze.

Variable db : ucd.

Let BLANK : atom := IN false [SET_LITERAL (chr " "); SET_LITERAL 9%N].

Lemma blank_atom_ok x : atom_ok db false BLANK x = is_blank x.
Proof.
  unfold BLANK, is_blank. cbn [atom_ok existsb item_ok].
  now destruct (x =? chr " ")%N, (x =? 9)%N.
Qed.

Lemma skip_blanks_length s : length (skip_blanks s) <= length s.
Proof.
  induction s as [|x s IH]; simpl; [lia|].
  destruct (is_blank x); simpl; lia.
Qed.

(** The greedy repetition takes the whole run. *)
Lemma repeat_max_run rest : forall prev,
    exists p,
      repeat_max db false BLANK 0 None prev rest (fun p s => Some (p, s))
      = Some (p, skip_blanks rest).
Proof.
  induction rest as [|x xs IH]; intros prev;
    cbn [repeat_max skip_blanks may_take pred one_less option_map].
  - eauto.
  - rewrite blank_atom_ok, andb_true_r. destruct (is_blank x); [|eauto].
    destruct (IH (Some x)) as (p & ->). eauto.
Qed.

Lemma run_blanks prev rest :
  run db false BLANKS_RE prev rest [] (fun p s _ => Some (p, s))
  = match rest with
    | x :: xs =>
      if is_blank x
      then run db false BLANKS_RE prev rest [] (fun p s _ => Some (p, s))
      else None
    | [] => None
    end
  /\ forall x xs,
      rest = x :: xs -> is_blank x = true ->
      exists p,
        run db false BLANKS_RE prev rest [] (fun p s _ => Some (p, s))
        = Some (p, skip_blanks xs).
Proof.
  unfold BLANKS_RE, MAXREPEAT. cbn [run]. fold BLANK.
  split.
  - destruct rest as [|x xs]; [reflexivity|].
    cbn [repeat_max may_take]. rewrite blank_atom_ok, andb_true_r.
    destruct (is_blank x); reflexivity.
  - intros x xs -> Hx.
    cbn [repeat_max may_take pred one_less option_map].
    rewrite blank_atom_ok, andb_true_r, Hx.
    destruct (repeat_max_run xs (Some x)) as (p & ->). eauto.
Qed.

Lemma squeeze_true_skip s : squeeze true s = squeeze false (skip_blanks s).
Proof.
  induction s as [|x s IH]; simpl; [reflexivity|].
  destruct (is_blank x) eqn:E; [exact IH|]. simpl. now rewrite E.
Qed.

Lemma sub_blanks_squeeze fuel : forall prev rest,
    length rest < fuel ->
    sub_from db false fuel BLANKS_RE (u " ") prev rest = squeeze false rest.
Proof.
  induction fuel as [|fuel IH]; intros prev rest Hf; [lia|].
  cbn [sub_from]. destruct (run_blanks prev rest) as [E1 E2].
  destruct rest as [|x xs].
  - rewrite E1. reflexivity.
  - destruct (is_blank x) eqn:Hx.
    + destruct (E2 x xs eq_refl Hx) as (p & ->).
      pose proof (skip_blanks_length xs) as Hl.
      assert (El : (length (skip_blanks xs) <? length (x :: xs)) = true)
        by (apply Nat.ltb_lt; simpl; lia).
      rewrite El. cbn [squeeze]. rewrite Hx, squeeze_true_skip.
      rewrite IH by (simpl in Hf; lia). reflexivity.
    + rewrite E1. cbn [squeeze]. rewrite Hx.
      rewrite IH by (simpl in Hf; lia). reflexivity.
Qed.

Lemma normalize_spaces_squeeze text :
  normalize_spaces db text = squeeze false (replace 160%N (chr " ") text).
Proof.
  unfold normalize_spaces, re_sub. apply sub_blanks_squeeze. lia.
Qed.

End Squeeze.

Lemma squeeze_In c s : forall b,
    In c (squeeze b s) -> c = chr " " \/ (In c s /\ is_blank c = false).
Proof.
  induction s as [|x s IH]; intros b; simpl; [tauto|].
  destruct (is_blank x) eqn:E.
  - destruct b.
    + intros H. apply IH in H. tauto.
    + intros [<-|H]; [now left|]. apply IH in H. tauto.
  - intros [<-|H]; [right; auto|]. apply IH in H. tauto.
Qed.

Lemma squeeze_single s : forall b,
    double_space (squeeze b s) = false
    /\ hd_error (squeeze true s) <> Some (chr " ").
Proof.
  induction s as [|x s IH]; intros b; [split; [now destruct b | discriminate]|].
  destruct (IH true) as [IHt IHh]. destruct (IH false) as [IHf _].
  assert (Hcons : forall y t,
             double_space t = false ->
             (y = chr " " -> hd_error t <> Some (chr " ")) ->
             double_space (y :: t) = false).
  { intros y [|z t] Hd Hh; [reflexivity|].
    change (double_space (y :: z :: t))
      with (((y =? chr " ")%N && (z =? chr " ")%N) || double_space (z :: t)).
    rewrite Hd, orb_false_r.
    destruct (y =? chr " ")%N eqn:Ey; [|reflexivity].
    destruct (z =? chr " ")%N eqn:Ez; [|reflexivity].
    apply N.eqb_eq in Ey, Ez. subst. exfalso. now apply Hh. }
  cbn [squeeze]. destruct (is_blank x) eqn:E.
  - split; [|exact IHh].
    destruct b; [exact IHt|]. apply Hcons; auto.
  - assert (Hx : x <> chr " ").
    { intros ->. discriminate E. }
    split; [|simpl; congruence].
    apply Hcons; [exact IHf | congruence].
Qed.

Lemma squeeze_visible s : forall b,
    filter visible (squeeze b s) = filter visible s.
Proof.
  induction s as [|x s IH]; intros b; simpl; [reflexivity|].
  unfold visible at 2. destruct (is_blank x) eqn:E; simpl.
  - destruct b; simpl; apply IH.
  - unfold visible at 1. rewrite E. simpl.
    destruct (x =? 160)%N; simpl; now rewrite IH.
Qed.

Lemma replace_visible s :
  filter visible (replace 160%N (chr " ") s) = filter visible s.
Proof.
  induction s as [|x s IH]; simpl; [reflexivity|].
  destruct (x =? 160)%N eqn:E.
  - apply N.eqb_eq in E. subst x. simpl. exact IH.
  - destruct (visible x); now rewrite IH.
Qed.

Lemma replace_In s : ~ In 160%N (replace 160%N (chr " ") s).
Proof.
  unfold replace. rewrite in_map_iff. intros (x & Hx & _).
  destruct (x =? 160)%N eqn:E; [discriminate Hx|].
  apply N.eqb_neq in E. congruence.
Qed.

(** A string without tabs and doubled spaces is left as it is. *)
Lemma squeeze_fixed t :
  ~ In 9%N t -> double_space t = false -> squeeze false t = t.
Proof.
  induction t as [|x t IH]; intros Ht Hd; [reflexivity|].
  assert (Ht' : ~ In 9%N t) by (intros H; apply Ht; now right).
  assert (Hd' : double_space t = false).
  { destruct t as [|y t]; [reflexivity|].
    cbn [double_space] in Hd. apply orb_false_iff in Hd. tauto. }
  cbn [squeeze]. destruct (is_blank x) eqn:E.
  - assert (Hx : x = chr " ").
    { unfold is_blank in E. apply orb_true_iff in E.
      destruct E as [E|E]; apply N.eqb_eq in E; [exact E|].
      subst x. exfalso. apply Ht. now left. }
    subst x. f_equal. rewrite squeeze_true_skip.
    destruct t as [|y t]; [reflexivity|].
    cbn [double_space] in Hd. apply orb_false_iff in Hd.
    destruct Hd as [Hd _]. cbn [N.eqb andb] in Hd.
    assert (Ey : is_blank y = false).
    { unfold is_blank. apply orb_false_iff. split.
      - change ((chr " " =? chr " ")%N) with true in Hd. exact Hd.
      - apply N.eqb_neq. intros ->. apply Ht'. now left. }
    cbn [skip_blanks]. rewrite Ey. now apply IH.
  - f_equal. now apply IH.
Qed.

Lemma normalize_spaces_clean db text :
  ~ In 9%N (normalize_spaces db text)
  /\ ~ In 160%N (normalize_spaces db text)
  /\ double_space (normalize_spaces db text) = false.
Proof.
  rewrite normalize_spaces_squeeze. split; [|split].
  - intros H. apply squeeze_In in H.
    destruct H as [H|[_ H]]; discriminate H.
  - intros H. apply squeeze_In in H.
    destruct H as [H|[H _]]; [discriminate H|].
    revert H. apply replace_In.
  - apply squeeze_single.
Qed.

Lemma normalize_spaces_twice db db' text :
  normalize_spaces db' (normalize_spaces db text) = normalize_spaces db text.
Proof.
  destruct (normalize_spaces_clean db text) as (Ht & Hn & Hd).
  rewrite (normalize_spaces_squeeze db').
  assert (E : replace 160%N (chr " ") (normalize_spaces db text)
              = normalize_spaces db text).
  { unfold replace. rewrite <- (map_id (normalize_spaces db text)) at 2.
    apply map_ext_in. intros c Hc.
    destruct (c =? 160)%N eqn:E; [|reflexivity].
    apply N.eqb_eq in E. subst c. contradiction. }
  rewrite E. now apply squeeze_fixed.
Qed.

(** X7. The normalization of white space turns every run of spaces, tabs
    and no-break spaces into one space and keeps every other character,
    line breaks included, in its place: the result has no tab, no no-break
    space and no two spaces in a row. *)
Theorem normalize_spaces_squeezes :
  forall (db : ucd) (text : str),
    normalize_spaces db text = squeeze false (replace 160%N (chr " ") text)
    /\ ~ In 9%N (normalize_spaces db text)
    /\ ~ In 160%N (normalize_spaces db text)
    /\ double_space (normalize_spaces db text) = false
    /\ filter visible (normalize_spaces db text) = filter visible text.
Proof.
  intros db text.
  destruct (normalize_spaces_clean db text) as (Ht & Hn & Hd).
  split; [apply normalize_spaces_squeeze|].
  repeat (split; [assumption|]).
  now rewrite normalize_spaces_squeeze, squeeze_visible, replace_visible.
Qed.

(** X8. Normalizing twice is normalizing once, and the result does not
    depend on the character data of the interpreter. *)
Theorem normalize_spaces_idempotent :
  forall (db db' : ucd) (text : str),
    normalize_spaces db (normalize_spaces db text) = normalize_spaces db text
    /\ normalize_spaces db' text = normalize_spaces db text.
Proof.
  intros db db' text. split; [apply normalize_spaces_twice|].
  now rewrite !normalize_spaces_squeeze.
Qed.

(** ** Acquisition, page by page *)

Section PageFacts.

Variables Page Image : Type.
Variable w : collaborators Page Image.

Let answers (pages : list Page) (page_texts : list (option str)) : Prop :=
  Forall2 (fun page t => page_extract_text w page = Ok t) pages page_texts.

Let recognized (images : list Image) (texts : list str) : Prop :=
  Forall2 (fun img txt => image_to_string w img ENG CONFIG = Ok txt)
          images texts.

Lemma read_pages_answers pages : forall page_texts text_parts,
    answers pages page_texts ->
    read_pages w pages text_parts
    = (map (fun page => EXTRACT_TEXT page) pages,
       Return (text_parts ++ kept page_texts)).
Proof.
  induction pages as [|page pages IH]; intros page_texts acc H;
    inversion H as [|? t ? ts Hp Hps]; subst.
  - simpl. unfold io_ret. now rewrite app_nil_r.
  - cbn [read_pages]. unfold io_bind at 1, call. rewrite Hp.
    rewrite (IH ts _ Hps). cbn [app map kept flat_map]. f_equal. f_equal.
    destruct t as [[|c s]|]; cbn [app]; rewrite <- ?app_assoc; reflexivity.
Qed.

Lemma read_pages_fails before : forall page after page_texts code text_parts,
    answers before page_texts ->
    page_extract_text w page = Fails code ->
    read_pages w (before ++ page :: after) text_parts
    = (map (fun page => EXTRACT_TEXT page) (before ++ [page]),
       Raise (External code)).
Proof.
  induction before as [|p before IH];
    intros page after page_texts code acc H Hf;
    inversion H as [|? t ? ts Hp Hps]; subst.
  - cbn [app read_pages]. unfold io_bind, call. rewrite Hf. reflexivity.
  - cbn [app read_pages]. unfold io_bind at 1, call. rewrite Hp.
    rewrite (IH page after ts code _ Hps Hf). reflexivity.
Qed.

Lemma structural_text_answers pdf_path pages page_texts :
  PdfReader w pdf_path = Ok pages ->
  answers pages page_texts ->
  structural_text w pdf_path
  = (PDF_READER pdf_path :: map (fun page => EXTRACT_TEXT page) pages,
     Return (strip (join NL (kept page_texts)))).
Proof.
  intros Hr Ha. unfold structural_text, io_bind at 1, call. rewrite Hr.
  rewrite (read_pages_answers pages page_texts [] Ha).
  unfold io_bind, io_ret. cbn [app]. now rewrite app_nil_r.
Qed.

Lemma structural_text_page_fails pdf_path before page after page_texts code :
  PdfReader w pdf_path = Ok (before ++ page :: after) ->
  answers before page_texts ->
  page_extract_text w page = Fails code ->
  structural_text w pdf_path
  = (PDF_READER pdf_path
       :: map (fun page => EXTRACT_TEXT page) (before ++ [page]),
     Raise (External code)).
Proof.
  intros Hr Ha Hf. unfold structural_text, io_bind at 1, call. rewrite Hr.
  rewrite (read_pages_fails before page after page_texts code [] Ha Hf).
  reflexivity.
Qed.

Lemma ocr_pages_fails before : forall img after texts code ocr_text_parts,
    recognized before texts ->
    image_to_string w img ENG CONFIG = Fails code ->
    ocr_pages w (before ++ img :: after) ocr_text_parts
    = (map (fun img => IMAGE_TO_STRING img ENG CONFIG) (before ++ [img]),
       Raise (External code)).
Proof.
  induction before as [|i before IH];
    intros img after texts code acc H Hf;
    inversion H as [|? t ? ts Hp Hps]; subst.
  - cbn [app ocr_pages]. unfold io_bind, call. fold ENG CONFIG.
    rewrite Hf. reflexivity.
  - cbn [app ocr_pages]. unfold io_bind at 1, call. fold ENG CONFIG.
    rewrite Hp. rewrite (IH img after ts code _ Hps Hf). reflexivity.
Qed.

End PageFacts.

(** X9. When the reader and every page answer, the structural text is
    the page texts that are neither absent nor empty, in page order,
    joined by line breaks and stripped. When it has more than thirty
    characters it is what [extract_text_pdf] returns, after one call of
    the reader and one per page; it then has no white space at its
    ends. *)
Theorem structural_text_of_pages :
  forall (Page Image : Type) (w : collaborators Page Image) (pdf_path : str)
         (pages : list Page) (page_texts : list (option str)),
    PdfReader w pdf_path = Ok pages ->
    Forall2 (fun page t => page_extract_text w page = Ok t) pages page_texts ->
    30 < length (strip (join NL (kept page_texts))) ->
    exists text,
      extract_text_pdf w pdf_path
      = (PDF_READER pdf_path :: map (fun page => EXTRACT_TEXT page) pages,
         Return text)
      /\ text = strip (join NL (kept page_texts))
      /\ strip text = text.
Proof.
  intros Page Image w pdf_path pages page_texts Hr Ha Hlen.
  exists (strip (join NL (kept page_texts))).
  pose proof (structural_text_answers Page Image w pdf_path pages page_texts Hr Ha) as Hs.
  split; [|split; [reflexivity | apply strip_idempotent]].
  rewrite (extract_text_pdf_accepts w pdf_path
             (text := strip (join NL (kept page_texts))));
    rewrite ?Hs; auto.
Qed.

(** The document with a text layer: its second page begins and ends with
    a space, which the result keeps inside and drops at the end. *)
Lemma structural_text_of_pages_witness :
  exists text,
    extract_text_pdf (born_digital None) (u "a.pdf")
    = ([PDF_READER (u "a.pdf"); EXTRACT_TEXT 0; EXTRACT_TEXT 1], Return text)
    /\ text = u "Madame Anne Dupont (01/02/1980)" ++ NL ++ u " OEIL x"
    /\ strip text = text.
Proof.
  destruct (structural_text_of_pages
              nat nat (born_digital None) (u "a.pdf") [0; 1]
              [Some (u "Madame Anne Dupont (01/02/1980)"); Some (u " OEIL x ")])
    as (text & He & Ht & Hs).
  - reflexivity.
  - repeat constructor.
  - vm_compute. lia.
  - exists text. split; [exact He|]. split; [|exact Hs].
    rewrite Ht. vm_compute. reflexivity.
Defined.

(** X10. A failure of the structural extraction is never reported and
    never leaves a partial text: when the reader fails, or when a page
    fails after others were read, the pages after it are not read, the
    texts already read are dropped whatever their length, and the call
    goes on with the fallback, whose outcome is the outcome of the
    call. *)
Theorem structural_failure_swallowed :
  forall (Page Image : Type) (w : collaborators Page Image) (pdf_path : str),
    (forall code,
        PdfReader w pdf_path = Fails code ->
        extract_text_pdf w pdf_path
        = (PDF_READER pdf_path :: fst (ocr_text w pdf_path),
           snd (ocr_text w pdf_path)))
    /\ (forall before page after page_texts code,
           PdfReader w pdf_path = Ok (before ++ page :: after) ->
           Forall2 (fun page t => page_extract_text w page = Ok t)
                   before page_texts ->
           page_extract_text w page = Fails code ->
           extract_text_pdf w pdf_path
           = ((PDF_READER pdf_path
                 :: map (fun page => EXTRACT_TEXT page) (before ++ [page]))
                ++ fst (ocr_text w pdf_path),
              snd (ocr_text w pdf_path))).
Proof.
  intros Page Image w pdf_path. split.
  - intros code Hr.
    assert (Hs : structural_text w pdf_path
                 = ([PDF_READER pdf_path], Raise (External code))).
    { unfold structural_text, io_bind, call. now rewrite Hr. }
    rewrite extract_text_pdf_falls_back by (rewrite Hs; exact I).
    now rewrite Hs.
  - intros before page after page_texts code Hr Ha Hf.
    pose proof (structural_text_page_fails
                  Page Image w pdf_path before page after page_texts code Hr Ha Hf) as Hs.
    rewrite extract_text_pdf_falls_back by (rewrite Hs; exact I).
    now rewrite Hs.
Qed.

(** The damaged document without a rasterizer: the forty-nine characters
    of its first page are lost with the failure of the second, and the
    third page is not read. *)
Lemma structural_failure_swallowed_witness :
  extract_text_pdf (damaged None) (u "d.pdf")
  = ([PDF_READER (u "d.pdf"); EXTRACT_TEXT 0; EXTRACT_TEXT 1],
     Raise POPPLER_NOT_SET).
Proof.
  destruct (structural_failure_swallowed nat nat (damaged None) (u "d.pdf"))
    as [_ H].
  rewrite (H [0] 1 [2]
             [Some (u "Mon nom ou celui de mon ayant droit : Jean Dupont")] 3%N).
  - reflexivity.
  - reflexivity.
  - repeat constructor.
  - reflexivity.
Defined.

(** X11. A failure on the fallback path is not caught: when the
    rasterizer fails the call raises its exception and the OCR engine is
    not called; when the OCR engine fails on a page image the call raises
    its exception, the images after it are not recognized and the texts
    of the images before it are lost. *)
Theorem ocr_failure_propagates :
  forall (Page Image : Type) (w : collaborators Page Image) (pdf_path : str)
         (log : list (event Page Image)) (attempt : outcome str)
         (poppler_path : str),
    structural_text w pdf_path = (log, attempt) ->
    needs_ocr attempt ->
    POPPLER_PATH w = Some poppler_path -> poppler_path <> [] ->
    (forall code,
        convert_from_path w pdf_path 400 poppler_path = Fails code ->
        extract_text_pdf w pdf_path
        = (log ++ [CONVERT_FROM_PATH pdf_path 400 poppler_path],
           Raise (External code)))
    /\ (forall before img after texts code,
           convert_from_path w pdf_path 400 poppler_path
           = Ok (before ++ img :: after) ->
           Forall2 (fun img txt => image_to_string w img ENG CONFIG = Ok txt)
                   before texts ->
           image_to_string w img ENG CONFIG = Fails code ->
           extract_text_pdf w pdf_path
           = (log ++ CONVERT_FROM_PATH pdf_path 400 poppler_path
                  :: map (fun img => IMAGE_TO_STRING img ENG CONFIG)
                         (before ++ [img]),
              Raise (External code))).
Proof.
  intros Page Image w pdf_path log attempt poppler_path Hs Hn Hp Hne.
  assert (Hx : extract_text_pdf w pdf_path
               = (log ++ fst (ocr_text w pdf_path), snd (ocr_text w pdf_path))).
  { rewrite extract_text_pdf_falls_back by (rewrite Hs; exact Hn).
    now rewrite Hs. }
  rewrite Hx. unfold ocr_text. rewrite Hp.
  destruct poppler_path as [|c s]; [congruence|].
  split.
  - intros code Hc. unfold io_bind, call. rewrite Hc. reflexivity.
  - intros before img after texts code Hc Ho Hf.
    unfold io_bind, call. rewrite Hc.
    rewrite (ocr_pages_fails Page Image w before img after texts code [] Ho Hf).
    reflexivity.
Qed.

(** The damaged document with a rasterizer: the text of the first page
    image is lost with the failure of the second, and the third image is
    not recognized. *)
Lemma ocr_failure_propagates_witness :
  extract_text_pdf (damaged (Some (u "/usr/bin"))) (u "d.pdf")
  = ([PDF_READER (u "d.pdf"); EXTRACT_TEXT 0; EXTRACT_TEXT 1;
      CONVERT_FROM_PATH (u "d.pdf") 400 (u "/usr/bin");
      IMAGE_TO_STRING 0 ENG CONFIG; IMAGE_TO_STRING 1 ENG CONFIG],
     Raise (External 4%N)).
Proof.
  destruct (ocr_failure_propagates
              nat nat (damaged (Some (u "/usr/bin"))) (u "d.pdf")
              [PDF_READER (u "d.pdf"); EXTRACT_TEXT 0; EXTRACT_TEXT 1]
              (Raise (External 3%N)) (u "/usr/bin"))
    as [_ H].
  - reflexivity.
  - exact I.
  - reflexivity.
  - discriminate.
  - rewrite (H [0] 1 [2] [u "Mon numéro : 2 74"] 4%N).
    + reflexivity.
    + reflexivity.
    + repeat constructor.
    + reflexivity.
Defined.

(** ** The batch, document by document *)

Section IoFacts.

Variables Page Image : Type.

Lemma io_bind_assoc (A B C : Type) (x : io Page Image A)
      (f : A -> io Page Image B) (g : B -> io Page Image C) :
  io_bind (io_bind x f) g = io_bind x (fun a => io_bind (f a) g).
Proof.
  destruct x as [l [a|e]]; [|reflexivity]. unfold io_bind.
  destruct (f a) as [l' [b|e']]; [|reflexivity].
  destruct (g b) as [l'' r]. now rewrite app_assoc.
Qed.

Lemma io_bind_ext (A B : Type) (x : io Page Image A)
      (f g : A -> io Page Image B) :
  (forall a, f a = g a) -> io_bind x f = io_bind x g.
Proof.
  intros H. destruct x as [l [a|e]]; [|reflexivity].
  unfold io_bind. now rewrite H.
Qed.

Lemma io_bind_ret (A B : Type) (a : A) (f : A -> io Page Image B) :
  io_bind (io_ret a) f = f a.
Proof.
  unfold io_bind, io_ret. now destruct (f a).
Qed.

End IoFacts.

Section RunFacts.

Variables Page Image : Type.
Variable db : ucd.
Variable fl : flavour.
Variable w : collaborators Page Image.

Lemma code_process_all_app before : forall rest acc,
    Code.process_all db fl w (before ++ rest) acc
    = io_bind (Code.process_all db fl w before acc)
              (fun acc' => Code.process_all db fl w rest acc').
Proof.
  induction before as [|pdf before IH]; intros rest acc;
    cbn [app Code.process_all].
  - now rewrite io_bind_ret.
  - rewrite io_bind_assoc. apply io_bind_ext. intros result. apply IH.
Qed.

Lemma ordonnance_process_all_app before : forall rest acc,
    Ordonnance.process_all db fl w (before ++ rest) acc
    = io_bind (Ordonnance.process_all db fl w before acc)
              (fun acc' => Ordonnance.process_all db fl w rest acc').
Proof.
  induction before as [|pdf before IH]; intros rest acc;
    cbn [app Ordonnance.process_all].
  - now rewrite io_bind_ret.
  - rewrite io_bind_assoc. apply io_bind_ext. intros result. apply IH.
Qed.




End RunFacts.

(** X12. The batch stops at the first document that fails: when the
    documents before it in path order are processed and it raises, the
    program raises the same exception, after the calls made for those
    documents and for it; no later document is opened and no list of
    records is produced, so nothing is saved. This holds for [code.py]
    and for [ordonnance.py]. *)
Theorem batch_stops_at_first_failure :
  forall (Page Image : Type) (db : ucd) (fl : flavour)
         (w : collaborators Page Image) (d : directory)
         (before : list path) (pdf : path) (after : list path),
    dir_exists d = true ->
    sorted (path_ltb fl) (pdf_glob d) = before ++ pdf :: after ->
    (forall log1 clients log2 e,
        Code.process_all db fl w before [] = (log1, Return clients) ->
        Code.process_pdf db fl w (path_str fl pdf) = (log2, Raise e) ->
        Code.main db fl w d = (log1 ++ log2, Raise e))
    /\ (forall log1 results log2 e,
           Ordonnance.process_all db fl w before [] = (log1, Return results) ->
           Ordonnance.process_pdf db fl w (path_str fl pdf) = (log2, Raise e) ->
           Ordonnance.main db fl w d = (log1 ++ log2, Raise e)).
Proof.
  intros Page Image db fl w d before pdf after He Hs. split.
  - intros log1 clients log2 e H1 H2. unfold Code.main.
    rewrite He, Hs. cbn [negb].
    destruct (before ++ pdf :: after) as [|p l] eqn:E;
      [now destruct before|]. rewrite <- E.
    rewrite code_process_all_app, H1. cbn [io_bind Code.process_all].
    now rewrite H2.
  - intros log1 results log2 e H1 H2. unfold Ordonnance.main.
    rewrite He, Hs. cbn [negb].
    destruct (before ++ pdf :: after) as [|p l] eqn:E;
      [now destruct before|]. rewrite <- E.
    rewrite ordonnance_process_all_app, H1.
    cbn [io_bind Ordonnance.process_all].
    now rewrite H2.
Qed.

(** Three contracts without a rasterizer: [a.pdf] is read, [b.pdf] has no
    text layer and stops the run, [c.pdf] is not opened. *)
Lemma batch_stops_at_first_failure_witness :
  Code.main latin posix text_layer_in_a contracts_c_a_b
  = ([PDF_READER (u "/srv/contracts/a.pdf"); EXTRACT_TEXT 0;
      PDF_READER (u "/srv/contracts/b.pdf"); EXTRACT_TEXT 1],
     Raise POPPLER_NOT_SET).
Proof.
  destruct (batch_stops_at_first_failure
              nat nat latin posix text_layer_in_a contracts_c_a_b
              [pdf_in_contracts (u "a.pdf")] (pdf_in_contracts (u "b.pdf"))
              [pdf_in_contracts (u "c.pdf")])
    as [H _].
  - reflexivity.
  - vm_compute. reflexivity.
  - apply (H [PDF_READER (u "/srv/contracts/a.pdf"); EXTRACT_TEXT 0]
             [{| Code.file := u "a.pdf";
                 Code.client_name := Some (u "Jean Dupont");
                 Code.client_number := None |}]
             [PDF_READER (u "/srv/contracts/b.pdf"); EXTRACT_TEXT 1]
             POPPLER_NOT_SET).
    + vm_compute. reflexivity.
    + vm_compute. reflexivity.
Defined.



(** ** File names *)

Lemma after_last_app c a : forall b acc,
    after_last c (a ++ b) acc = after_last c b (after_last c a acc).
Proof.
  induction a as [|x a IH]; intros b acc; cbn [app after_last]; [reflexivity|].
  destruct (x =? c)%N; apply IH.
Qed.

Lemma after_last_none c s : forall acc,
    ~ In c s -> after_last c s acc = acc ++ s.
Proof.
  induction s as [|x s IH]; intros acc H; cbn [after_last].
  - now rewrite app_nil_r.
  - destruct (x =? c)%N eqn:E.
    + apply N.eqb_eq in E. subst x. exfalso. apply H. now left.
    + rewrite IH by (intros Hi; apply H; now right).
      now rewrite <- app_assoc.
Qed.

Lemma join_snoc sep init : forall name,
    init <> [] -> join sep (init ++ [name]) = join sep init ++ sep ++ name.
Proof.
  induction init as [|p init IH]; intros name Hne; [congruence|].
  destruct init as [|q init]; [reflexivity|].
  change (join sep ((p :: q :: init) ++ [name]))
    with (p ++ sep ++ join sep ((q :: init) ++ [name])).
  rewrite IH by discriminate.
  change (join sep (p :: q :: init)) with (p ++ sep ++ join sep (q :: init)).
  now rewrite <- !app_assoc.
Qed.

Lemma basename_path_str fl p init name :
  names p = init ++ [name] ->
  ~ In (sep fl) name ->
  anchor p = [] \/ (exists a, anchor p = a ++ [sep fl]) ->
  basename fl (path_str fl p) = name.
Proof.
  intros Hn Hs Ha. unfold basename, path_str. rewrite Hn.
  assert (Hsep : forall a acc, after_last (sep fl) (a ++ [sep fl]) acc = []).
  { intros a acc. rewrite after_last_app. cbn [after_last].
    now rewrite N.eqb_refl. }
  destruct init as [|q init].
  - cbn [app join]. rewrite after_last_app.
    destruct Ha as [->|[a ->]].
    + cbn [after_last]. now rewrite after_last_none.
    + rewrite Hsep. now rewrite after_last_none.
  - rewrite join_snoc by discriminate.
    rewrite app_assoc, after_last_app.
    change ([sep fl] ++ name) with (sep fl :: name).
    cbn [after_last]. rewrite N.eqb_refl. now rewrite after_last_none.
Qed.

(** X14. The [file] entry of a record is the name of the document alone,
    without its directories: for a path that is relative or rooted and
    whose last name holds no separator, the base name of its string is
    that last name, and so is the [file] entry of the record that
    [process_pdf] makes for it, in [code.py] and in [ordonnance.py]. *)
Theorem file_entry_is_last_name :
  forall (Page Image : Type) (db : ucd) (fl : flavour)
         (w : collaborators Page Image) (p : path)
         (init : list str) (name : str),
    names p = init ++ [name] ->
    ~ In (sep fl) name ->
    anchor p = [] \/ (exists a, anchor p = a ++ [sep fl]) ->
    basename fl (path_str fl p) = name
    /\ (forall log result,
           Code.process_pdf db fl w (path_str fl p) = (log, Return result) ->
           Code.file result = name)
    /\ (forall log result,
           Ordonnance.process_pdf db fl w (path_str fl p)
           = (log, Return result) ->
           Ordonnance.file result = name).
Proof.
  intros Page Image db fl w p init name Hn Hs Ha.
  pose proof (basename_path_str fl p init name Hn Hs Ha) as Hb.
  split; [exact Hb|]. split.
  - intros log result H.
    pose proof (@code_process_pdf_file _ _ _ _ _ _ _ _ H) as Hf. congruence.
  - intros log result H.
    pose proof (@ordonnance_process_pdf_file _ _ _ _ _ _ _ _ H) as Hf.
    congruence.
Qed.

(** The contract [/srv/contracts/a.pdf]. *)
Lemma file_entry_is_last_name_witness :
  basename posix (u "/srv/contracts/a.pdf") = u "a.pdf".
Proof.
  refine (proj1 (file_entry_is_last_name
                   nat nat latin posix (born_digital None)
                   (pdf_in_contracts (u "a.pdf"))
                   [u "srv"; u "contracts"] (u "a.pdf") eq_refl _ _)).
  - vm_compute. intuition discriminate.
  - right. exists []. reflexivity.
Defined.

(** ** The label of an eye value *)

Section LabelFacts.

Variable db : ucd.
Hypothesis ok : ucd_ok db.

Lemma space_ok x :
  atom_ok db IGNORECASE SPACE x = true -> isspace x = true.
Proof.
  unfold SPACE, IGNORECASE.
  cbn [atom_ok existsb item_hascased item_ok_ignore category_ok orb xorb].
  now rewrite orb_false_r.
Qed.

Lemma spaces_ok w :
  Forall (fun x => atom_ok db IGNORECASE SPACE x = true) w -> blank w.
Proof. apply Forall_impl. exact space_ok. Qed.

Lemma separator_ok x :
  atom_ok db IGNORECASE SEPARATOR x = true -> x = chr ":" \/ x = chr "-".
Proof.
  unfold SEPARATOR.
  rewrite (uncased_ascii_set db ok) by (vm_compute; reflexivity).
  cbn [xorb existsb]. rewrite orb_false_r, orb_true_iff, !mem_In.
  change (item_charmap latin (SET_LITERAL (chr ":"))) with (u ":").
  change (item_charmap latin (SET_LITERAL (chr "-"))) with (u "-").
  intros [[<-|[]]|[<-|[]]]; auto.
Qed.

Lemma literals_ignoring_case s w g g' :
  Matches db IGNORECASE (literals s) w g g' -> equal_ignoring_case db w s.
Proof.
  intros M. apply Matches_literals in M. destruct M as [M _].
  unfold equal_ignoring_case. eapply Forall2_impl; [|exact M].
  intros x c. apply literal_ok_same_letter.
Qed.

(** What a match of an eye pattern is made of. *)
Lemma eye_pattern_shape side w g' :
  Matches db IGNORECASE (EYE_RE side) w [] g' ->
  exists word s0 label s1 c s2 raw,
    w = word ++ s0 ++ label ++ s1 ++ c ++ s2 ++ raw
    /\ (equal_ignoring_case db word (u "Oeil")
        \/ equal_ignoring_case db word (u "Œil"))
    /\ blank s0
    /\ equal_ignoring_case db label side
    /\ blank s1 /\ (c = [] \/ c = u ":" \/ c = u "-") /\ blank s2
    /\ group g' 1 = Some raw.
Proof.
  unfold EYE_RE, seq_of. cbn [fold_right Matches].
  intros (word & r0 & g0 & -> & Mw
          & s0 & r1 & g1 & -> & (H0 & _)
          & label & r2 & g2 & -> & Ml
          & s1 & r3 & g3 & -> & (H1 & _)
          & c & r4 & g4 & -> & (Hc & _ & Hc1 & _)
          & s2 & r5 & g5 & -> & (H2 & _)
          & raw & r6 & g6 & -> & (g7 & _ & ->) & (-> & ->)).
  exists word, s0, label, s1, c, s2, raw.
  split; [now rewrite app_nil_r|].
  split.
  { apply Matches_branch_of in Mw; [|discriminate].
    destruct Mw as (r & [<-|[<-|[]]] & Mw);
      apply literals_ignoring_case in Mw; auto. }
  split; [now apply spaces_ok|].
  split; [exact (literals_ignoring_case _ _ _ _ Ml)|].
  split; [now apply spaces_ok|].
  split.
  { destruct c as [|x [|y c]]; [now left| |simpl in Hc1; lia].
    inversion Hc as [|? ? Hx _]; subst.
    destruct (separator_ok x Hx) as [->| ->]; auto. }
  split; [now apply spaces_ok|].
  cbn [group Nat.eqb]. reflexivity.
Qed.

End LabelFacts.

(** X15. An eye value is read after its own label: when the right eye has
    a value, the normalized text holds the word [Oeil] or [Œil], white
    space or none, the word [Droit] (all in any case), then white space
    and at most one colon or hyphen, and then the value as it was written,
    its comma not yet a dot; likewise with [Gauche] for the left eye. *)
Theorem eye_value_follows_label :
  forall (db : ucd) (text : str) (r : Ordonnance.fields) (side v : str),
    ucd_ok db ->
    Ordonnance.parse_ordonnance db text = Return r ->
    (side = u "Droit" /\ Ordonnance.eye_right r = Some v)
    \/ (side = u "Gauche" /\ Ordonnance.eye_left r = Some v) ->
    exists before word s0 label s1 c s2 raw after,
      normalize_spaces db text
      = before ++ (word ++ s0 ++ label ++ s1 ++ c ++ s2 ++ raw) ++ after
      /\ (equal_ignoring_case db word (u "Oeil")
          \/ equal_ignoring_case db word (u "Œil"))
      /\ blank s0
      /\ equal_ignoring_case db label side
      /\ blank s1 /\ (c = [] \/ c = u ":" \/ c = u "-") /\ blank s2
      /\ v = replace (chr ",") (chr ".") raw.
Proof.
  intros db text r side v ok Hr Hv.
  rewrite parse_ordonnance_eq in Hr. injection Hr as <-. simpl in Hv.
  assert (H : exists mo,
             re_search db IGNORECASE (EYE_RE side) (normalize_spaces db text)
             = Some mo
             /\ option_map (replace (chr ",") (chr ".")) (group mo 1) = Some v).
  { destruct Hv as [[-> Hv]|[-> Hv]].
    - unfold od_match in Hv.
      destruct (re_search db IGNORECASE (EYE_RE (u "Droit"))
                          (normalize_spaces db text)) as [mo|];
        [|discriminate]. exists mo. auto.
    - unfold og_match in Hv.
      destruct (re_search db IGNORECASE (EYE_RE (u "Gauche"))
                          (normalize_spaces db text)) as [mo|];
        [|discriminate]. exists mo. auto. }
  destruct H as (mo & E & Hg).
  apply re_search_sound in E. destruct E as (before & w & after & Ht & M).
  destruct (eye_pattern_shape db ok side w mo M)
    as (word & s0 & label & s1 & c & s2 & raw
        & -> & Hw & H0 & Hl & H1 & Hc & H2 & Hraw).
  rewrite Hraw in Hg. injection Hg as <-.
  exists before, word, s0, label, s1, c, s2, raw, after.
  repeat (split; [assumption|]). reflexivity.
Qed.

(** A left eye in capitals, after a right eye. *)
Lemma eye_value_follows_label_witness :
  exists before word s0 label s1 c s2 raw after,
    normalize_spaces latin (u "OEIL DROIT 1,25mm ŒIL  GAUCHE : -3,5")
    = before ++ (word ++ s0 ++ label ++ s1 ++ c ++ s2 ++ raw) ++ after
    /\ (equal_ignoring_case latin word (u "Oeil")
        \/ equal_ignoring_case latin word (u "Œil"))
    /\ blank s0
    /\ equal_ignoring_case latin label (u "Gauche")
    /\ blank s1 /\ (c = [] \/ c = u ":" \/ c = u "-") /\ blank s2
    /\ u "-3.5" = replace (chr ",") (chr ".") raw.
Proof.
  apply (eye_value_follows_label
           latin (u "OEIL DROIT 1,25mm ŒIL  GAUCHE : -3,5")
           {| Ordonnance.title := None; Ordonnance.full_name := None;
              Ordonnance.birthdate := None;
              Ordonnance.eye_right := Some (u "1.25");
              Ordonnance.eye_left := Some (u "-3.5") |}
           (u "Gauche") (u "-3.5") latin_ok).
  - vm_compute. reflexivity.
  - right. split; reflexivity.
Defined.

(** ** The person line *)

(** What a match of the person pattern is made of. *)
Lemma person_pattern_layout db w g' :
  ucd_ok db ->
  Matches db IGNORECASE PERSON_RE w [] g' ->
  exists t gap raw s d,
    w = t ++ gap ++ raw ++ s ++ chr "(" :: d ++ [chr ")"]
    /\ group g' 1 = Some t /\ group g' 2 = Some raw /\ group g' 3 = Some d
    /\ Forall (fun c => isspace c = false) t
    /\ blank gap /\ gap <> [] /\ raw <> [] /\ blank s
    /\ exists d1 d2 d3,
        d = d1 ++ chr "/" :: d2 ++ chr "/" :: d3
        /\ decimals db d1 /\ decimals db d2 /\ decimals db d3.
Proof.
  intros ok. unfold PERSON_RE, seq_of. cbn [fold_right Matches].
  intros (w0 & r0 & g0 & -> & (-> & ->)
          & wt & r1 & g1 & -> & (gt & Mt & ->)
          & ws & r2 & g2 & -> & (Hs & Hs1 & _ & ->)
          & wn & r3 & g3 & -> & (gn & (_ & Hn1 & _ & ->) & ->)
          & wb & r4 & g4 & -> & (Hb & _ & _ & ->)
          & wo & r5 & g5 & -> & (xo & -> & Ho & ->)
          & wd & r6 & g6 & -> & (g7 & Md & ->)
          & wc & r7 & g8 & -> & (xc & -> & Hc & ->) & (-> & ->)).
  destruct Md as (d1 & q1 & h1 & -> & (Hd1 & _ & _ & ->)
                  & s1 & q2 & h2 & -> & (y1 & -> & Hy1 & ->)
                  & d2 & q3 & h3 & -> & (Hd2 & _ & _ & ->)
                  & s2 & q4 & h4 & -> & (y2 & -> & Hy2 & ->)
                  & d3 & q5 & h5 & -> & (Hd3 & _ & _ & ->) & (-> & ->)).
  apply (uncased_ascii_literal db ok) in Ho, Hc, Hy1, Hy2;
    try (vm_compute; reflexivity).
  subst xo xc y1 y2.
  exists wt, ws, wn, wb, (d1 ++ chr "/" :: d2 ++ chr "/" :: d3).
  split; [flatten_app; rewrite ?app_nil_r; reflexivity|].
  split; [reflexivity|]. split; [reflexivity|].
  split; [cbn [group Nat.eqb]; flatten_app; rewrite ?app_nil_r; reflexivity|].
  split.
  { apply title_group_shape in Mt. destruct Mt as (T & HT & Heq).
    apply (equal_ignoring_case_nonspace db wt T ok); [|exact Heq].
    pose proof titles_plain as Hp. rewrite forallb_forall in Hp.
    now apply Hp. }
  split; [now apply (spaces_ok db)|].
  split; [destruct ws; [simpl in Hs1; lia | discriminate]|].
  split; [destruct wn; [simpl in Hn1; lia | discriminate]|].
  split; [now apply (spaces_ok db)|].
  exists d1, d2, d3. split; [reflexivity|].
  repeat split; now apply digits_ok.
Qed.

(** X16. The three fields of the person line stand side by side in the
    normalized text: the title as it was written, white space, the name
    with the white space around it, and the birth date in parentheses.
    The name is what stands between the title and the parenthesis, without
    the white space at its ends. *)
Theorem person_line_layout :
  forall (db : ucd) (text : str) (r : Ordonnance.fields) (t n b : str),
    ucd_ok db -> decimal_nonspace db ->
    Ordonnance.parse_ordonnance db text = Return r ->
    Ordonnance.title r = Some t ->
    Ordonnance.full_name r = Some n ->
    Ordonnance.birthdate r = Some b ->
    exists before gap raw s after,
      normalize_spaces db text
      = before ++ (t ++ gap ++ raw ++ s ++ chr "(" :: b ++ [chr ")"]) ++ after
      /\ blank gap /\ gap <> []
      /\ raw <> [] /\ n = strip raw
      /\ blank s.
Proof.
  intros db text r t n b ok Hds Hr Ht Hn Hb.
  rewrite parse_ordonnance_eq in Hr. injection Hr as <-.
  simpl in Ht, Hn, Hb. unfold person_match in *.
  destruct (re_search db IGNORECASE PERSON_RE (normalize_spaces db text))
    as [mo|] eqn:E; [|discriminate].
  apply re_search_sound in E. destruct E as (before & w & after & Hw & M).
  destruct (person_pattern_layout db w mo ok M)
    as (t' & gap & raw & s & d & -> & G1 & G2 & G3 & Hns & Hgap & Hne
        & Hraw & Hsp & d1 & d2 & d3 & -> & Hd1 & Hd2 & Hd3).
  simpl in Ht, Hn, Hb. rewrite G1 in Ht. rewrite G2 in Hn. rewrite G3 in Hb.
  simpl in Ht, Hn, Hb.
  rewrite (strip_nonspace _ Hns) in Ht.
  assert (Hd : Forall (fun c => isspace c = false)
                      (d1 ++ chr "/" :: d2 ++ chr "/" :: d3)).
  { assert (Hx : forall x, decimals db x ->
                           Forall (fun c => isspace c = false) x)
      by (intros x; apply Forall_impl; exact Hds).
    apply Forall_app. split; [now apply Hx|].
    constructor; [reflexivity|].
    apply Forall_app. split; [now apply Hx|].
    constructor; [reflexivity | now apply Hx]. }
  rewrite (strip_nonspace _ Hd) in Hb.
  injection Ht as <-. injection Hn as <-. injection Hb as <-.
  exists before, gap, raw, s, after.
  repeat (split; [first [assumption | reflexivity]|]). assumption.
Qed.

(** A person line with a tab after the title and two spaces before the
    parenthesis. *)
Lemma person_line_layout_witness :
  exists before gap raw s after,
    normalize_spaces latin (u "Dr X - madame	Anne-Marie D'Ys  (01/02/1980) OD")
    = before ++ (u "madame" ++ gap ++ raw ++ s
                   ++ chr "(" :: u "01/02/1980" ++ [chr ")"]) ++ after
    /\ blank gap /\ gap <> []
    /\ raw <> [] /\ u "Anne-Marie D'Ys" = strip raw
    /\ blank s.
Proof.
  apply (person_line_layout
           latin (u "Dr X - madame	Anne-Marie D'Ys  (01/02/1980) OD")
           {| Ordonnance.title := Some (u "madame");
              Ordonnance.full_name := Some (u "Anne-Marie D'Ys");
              Ordonnance.birthdate := Some (u "01/02/1980");
              Ordonnance.eye_right := None;
              Ordonnance.eye_left := None |}
           (u "madame") (u "Anne-Marie D'Ys") (u "01/02/1980")
           latin_ok latin_decimal_nonspace).
  - vm_compute. reflexivity.
  - reflexivity.
  - reflexivity.
  - reflexivity.
Defined.

(** ** Texts without digits *)

Lemma normalize_spaces_In db text c :
  In c (normalize_spaces db text) -> c = chr " " \/ In c text.
Proof.
  rewrite normalize_spaces_squeeze. intros H. apply squeeze_In in H.
  destruct H as [H|[H _]]; [now left|].
  unfold replace in H. apply in_map_iff in H. destruct H as (x & Hx & Hin).
  cbv beta in Hx. destruct (x =? 160)%N; [left; now subst c | right; now subst c].
Qed.

Lemma decimal_in_text db text a x b :
  ucd_ok db ->
  normalize_spaces db text = a ++ x :: b -> isdecimal db x = true ->
  In x text.
Proof.
  intros ok Ht Hx.
  destruct (normalize_spaces_In db text x) as [E|H].
  - rewrite Ht. apply in_or_app. right. now left.
  - exfalso. exact (decimal_not_space db x ok Hx E).
  - exact H.
Qed.

Lemma number_match_digit db text :
  ucd_ok db -> number_match db text <> None ->
  exists x, In x text /\ isdecimal db x = true.
Proof.
  intros ok H. unfold number_match in H.
  destruct (group_then_captured db strip NUMBER_RE 1 _
              (normalize_spaces db text) capture_number) as [_ Hm].
  destruct (Hm H) as (v & _ & _ & Hv & _).
  destruct (number_span_head db text v ok Hv) as (x & w & -> & Hx & _).
  destruct (captured_substring db NUMBER_RE 1 _ (normalize_spaces db text)
                               (x :: w) capture_number Hv) as (a & b & Ht).
  apply (ascii_digit_isdecimal db x ok) in Hx.
  exists x. split; [|exact Hx].
  apply (decimal_in_text db text a x (w ++ b) ok); [|exact Hx].
  rewrite Ht. reflexivity.
Qed.

Lemma person_match_digit db text :
  ucd_ok db -> person_match db text <> None ->
  exists x, In x text /\ isdecimal db x = true.
Proof.
  intros ok H. unfold person_match in H.
  destruct (re_search db IGNORECASE PERSON_RE (normalize_spaces db text))
    as [mo|] eqn:E; [|congruence].
  apply re_search_sound in E. destruct E as (b0 & w & a0 & Ht & M).
  destruct (person_pattern_birthdate db w mo ok M)
    as (pre & d1 & d2 & d3 & -> & _ & H1 & _ & _ & Hd1 & _ & _).
  destruct d1 as [|x d1]; [discriminate H1|].
  inversion Hd1 as [|? ? Hx _]; subst.
  exists x. split; [|exact Hx].
  apply (decimal_in_text
           db text (b0 ++ pre ++ [chr "("]) x
           ((d1 ++ chr "/" :: d2 ++ chr "/" :: d3) ++ [chr ")"] ++ a0) ok);
    [|exact Hx].
  rewrite Ht. flatten_app. reflexivity.
Qed.

Lemma eye_match_digit db text side :
  ucd_ok db ->
  capture (EYE_RE side) 1 = Some VALUE_GROUP ->
  re_search db IGNORECASE (EYE_RE side) (normalize_spaces db text) <> None ->
  exists x, In x text /\ isdecimal db x = true.
Proof.
  intros ok Hc H.
  destruct (group_then_captured db strip (EYE_RE side) 1 _
              (normalize_spaces db text) Hc) as [_ Hm].
  destruct (Hm H) as (v & ga & gb & Hv & M).
  destruct (captured_substring db (EYE_RE side) 1 _ (normalize_spaces db text)
                               v Hc Hv) as (a & b & Ht).
  destruct (value_group_shape db ok v ga gb M)
    as (sign & whole & fraction & Hr & _ & Hw & Hd & _).
  destruct whole as [|x whole]; [congruence|].
  inversion Hd as [|? ? Hx _]; subst.
  exists x. split; [|exact Hx].
  assert (Hin : In x v).
  { assert (Hi : In x (replace (chr ",") (chr ".") v))
      by (rewrite Hr; apply in_or_app; right; now left).
    unfold replace in Hi. apply in_map_iff in Hi.
    destruct Hi as (y & Hy & Hin).
    cbv beta in Hy. destruct (y =? chr ",")%N; [|now subst y].
    subst x. rewrite (isdecimal_ascii ok (c := chr ".")) in Hx by reflexivity.
    discriminate Hx. }
  apply in_split in Hin. destruct Hin as (v1 & v2 & ->).
  apply (decimal_in_text db text (a ++ v1) x (v2 ++ b) ok); [|exact Hx].
  rewrite Ht. flatten_app. reflexivity.
Qed.

(** X17. Nothing is made up from a text without digits: when no character
    of the text is a decimal digit, [extract_client_info] gives no number
    and [parse_ordonnance] gives no title, no name, no birth date and no
    eye value. *)
Theorem no_digit_no_value :
  forall (db : ucd) (text : str),
    ucd_ok db ->
    Forall (fun c => isdecimal db c = false) text ->
    (exists name, Code.extract_client_info db text = Return (name, None))
    /\ Ordonnance.parse_ordonnance db text
       = Return {| Ordonnance.title := None; Ordonnance.full_name := None;
                   Ordonnance.birthdate := None;
                   Ordonnance.eye_right := None;
                   Ordonnance.eye_left := None |}.
Proof.
  intros db text ok Hnd.
  assert (Hno : forall x, In x text -> isdecimal db x = true -> False).
  { intros x Hin Hx. rewrite Forall_forall in Hnd.
    rewrite (Hnd x Hin) in Hx. discriminate Hx. }
  split.
  - destruct (extract_client_info_total db text)
      as (name & number & He & _ & Hn).
    exists name. rewrite He.
    destruct (number_match db text) eqn:E; [|now rewrite Hn].
    exfalso. destruct (number_match_digit db text ok) as (x & Hin & Hx);
      [congruence | exact (Hno x Hin Hx)].
  - rewrite parse_ordonnance_eq.
    assert (Hp : person_match db text = None).
    { destruct (person_match db text) eqn:E; [|reflexivity].
      exfalso. destruct (person_match_digit db text ok) as (x & Hin & Hx);
        [congruence | exact (Hno x Hin Hx)]. }
    assert (Hr : od_match db text = None).
    { unfold od_match.
      destruct (re_search db IGNORECASE (EYE_RE (u "Droit"))
                          (normalize_spaces db text)) eqn:E; [|reflexivity].
      exfalso.
      destruct (eye_match_digit db text (u "Droit") ok capture_right)
        as (x & Hin & Hx);
        [congruence | exact (Hno x Hin Hx)]. }
    assert (Hl : og_match db text = None).
    { unfold og_match.
      destruct (re_search db IGNORECASE (EYE_RE (u "Gauche"))
                          (normalize_spaces db text)) eqn:E; [|reflexivity].
      exfalso.
      destruct (eye_match_digit db text (u "Gauche") ok capture_left)
        as (x & Hin & Hx);
        [congruence | exact (Hno x Hin Hx)]. }
    now rewrite Hp, Hr, Hl.
Qed.

(** A text with the labels and no digit. *)
Lemma no_digit_no_value_witness :
  Code.extract_client_info
    latin (u "Mon numéro : inconnu. Madame Dupont (mai). Oeil droit : -")
  = Return (None, None).
Proof.
  destruct (no_digit_no_value
              latin (u "Mon numéro : inconnu. Madame Dupont (mai). Oeil droit : -")
              latin_ok)
    as [(name & H) _].
  - apply Forall_forall. intros x Hx.
    apply (proj1 (forallb_forall (fun c => negb (isdecimal latin c)) _)
                 (eq_refl : forallb (fun c => negb (isdecimal latin c))
                                    (u "Mon numéro : inconnu. Madame Dupont (mai). Oeil droit : -")
                            = true)) in Hx.
    now destruct (isdecimal latin x).
  - rewrite H. f_equal. f_equal.
    assert (E : Code.extract_client_info
                  latin (u "Mon numéro : inconnu. Madame Dupont (mai). Oeil droit : -")
                = Return (None, None)) by (vm_compute; reflexivity).
    congruence.
Defined.

(** ** Spacing of the text *)

(** X18. Runs of spaces, tabs and no-break spaces do not count: two texts
    with the same normalization give the same prescription record and the
    same client number, and a text and its normalization are two such
    texts. (The client name is read from the text as given.) *)
Theorem fields_ignore_spacing :
  forall (db : ucd) (t1 t2 : str),
    normalize_spaces db t1 = normalize_spaces db t2 ->
    Ordonnance.parse_ordonnance db t1 = Ordonnance.parse_ordonnance db t2
    /\ (forall name1 number1 name2 number2,
           Code.extract_client_info db t1 = Return (name1, number1) ->
           Code.extract_client_info db t2 = Return (name2, number2) ->
           number1 = number2)
    /\ Ordonnance.parse_ordonnance db (normalize_spaces db t1)
       = Ordonnance.parse_ordonnance db t1.
Proof.
  intros db t1 t2 H. split; [|split].
  - rewrite !parse_ordonnance_eq.
    unfold person_match, od_match, og_match. now rewrite H.
  - intros name1 number1 name2 number2.
    unfold Code.extract_client_info. rewrite !extract_client_info_with_eq.
    unfold number_span, number_match. rewrite H. cbv zeta.
    destruct (option_map strip
                (captured (re_search db IGNORECASE NUMBER_RE
                                     (normalize_spaces db t2)) 1))
      as [[|c number]|]; try congruence.
    destruct (15 <=? length (filter (isdecimal db) (c :: number)));
      [|congruence].
    destruct (Code.format_number_2digit_groups
                (firstn 15 (filter (isdecimal db) (c :: number))))
      as [formatted|e]; simpl; congruence.
  - rewrite !parse_ordonnance_eq.
    unfold person_match, od_match, og_match.
    now rewrite normalize_spaces_twice.
Qed.

(** A person line with a tab and doubled spaces, and the same line with
    single spaces. *)
Lemma fields_ignore_spacing_witness :
  Ordonnance.parse_ordonnance
    latin (u "Madame	Anne  Dupont (01/02/1980) Oeil  droit : +1,5")
  = Ordonnance.parse_ordonnance
      latin (u "Madame Anne Dupont (01/02/1980) Oeil droit : +1,5").
Proof.
  refine (proj1 (fields_ignore_spacing
                   latin
                   (u "Madame	Anne  Dupont (01/02/1980) Oeil  droit : +1,5")
                   (u "Madame Anne Dupont (01/02/1980) Oeil droit : +1,5") _)).
  vm_compute. reflexivity.
Defined.
